(** * sprite_motion: the frame-extraction and compositing pipeline

    A shallow embedding of [utils/gifBuilder.ts] (frame sequencing,
    geometry, bounding-box analysis, chroma keying, the render loop) and of
    the frame sequencing and keying helpers of [components/PreviewPlayer.tsx].

    Conventions.
    - A JavaScript [number] that holds a pixel coordinate, an array index, a
      grid size or a colour byte is a [Z]; a [number] that can be fractional
      (cell sizes, crop sizes, scale, ratios, delays) is a [Q].  Rational
      arithmetic is exact, except where an integer the code derives depends
      on the rounding of IEEE doubles: the output size under the 1024 cap
      and the pixel index of the analyzer on a fractional crop are computed
      on doubles ([roundDouble]).  (The scale is 1, 2, 4 or 0.5 in the
      interface: a product by it is exact.)
    - A typed array ([Uint8ClampedArray], [Uint8Array]) is a [list Z] of
      fixed length.  Reading outside of it gives [None] (JavaScript's
      [undefined]); writing outside of it does nothing.
    - The canvas, the image and the GIF encoder belong to the browser: what
      the code asks of them is recorded as a trace of effects.  A call the
      platform refuses ([getImageData] on an empty rectangle, [drawImage]
      from an empty canvas) throws; thrown inside the promise executor, it
      rejects the promise. *)

From Stdlib Require Import ZArith QArith Qround Qpower Qreduction Lia Lqa String Ascii.
From stdpp Require Import base option list list_numbers sorting gmap.

#[local] Open Scope Z_scope.

(** ** Configuration ([types.ts]) *)

Inductive ReadOrder := RowMajor | ColumnMajor.
Inductive AlignMode := AlignCenter | AlignBottom.

Record CropConfig := {
  top : Q;
  bottom : Q;
  left : Q;
  right : Q
}.

Record SpriteConfig := {
  rows : Z;
  cols : Z;
  totalFrames : Z;
  excludedFrames : list Z;
  fps : Q;
  scale : Q;
  transparent : option string;
  tolerance : Q;
  useFloodFill : bool;
  autoAlign : bool;
  alignMode : AlignMode;
  readOrder : ReadOrder;
  crop : CropConfig;
  maxResolution1024 : bool
}.

Record ImageDimensions := {
  width : Q;
  height : Q
}.

(** ** Frame sequencer ([generateGif], "Determine sequence of frames") *)

Record TempCoord := { t_r : Z; t_c : Z; t_index : Z }.
Record FrameCoord := { f_r : Z; f_c : Z; originalIndex : Z }.

(** The two nested [for] loops that fill [tempCoords]. *)
Definition tempCoords (order : ReadOrder) (rows cols : Z) : list TempCoord :=
  match order with
  | ColumnMajor =>
      c ← seqZ 0 cols; r ← seqZ 0 rows;
      [ {| t_r := r; t_c := c; t_index := c * rows + r |} ]
  | RowMajor =>
      r ← seqZ 0 rows; c ← seqZ 0 cols;
      [ {| t_r := r; t_c := c; t_index := r * cols + c |} ]
  end.

(** [item.index < totalFrames && !excludedFrames.includes(item.index)] *)
Definition keepIndex (totalFrames : Z) (excluded : list Z) (i : Z) : bool :=
  (i <? totalFrames) && negb (bool_decide (i ∈ excluded)).

(** The filter loop that fills [validFrameCoordinates]. *)
Definition validFrameCoordinates (cfg : SpriteConfig) : list FrameCoord :=
  (λ item, {| f_r := t_r item; f_c := t_c item; originalIndex := t_index item |})
    <$> filter (λ item, keepIndex (totalFrames cfg) (excludedFrames cfg) (t_index item) = true)
               (tempCoords (readOrder cfg) (rows cfg) (cols cfg)).

(** [getValidFrameIndices] of the preview player: the same two traversals,
    filtering while it enumerates. *)
Definition getValidFrameIndices (cfg : SpriteConfig) : list Z :=
  match readOrder cfg with
  | ColumnMajor =>
      c ← seqZ 0 (cols cfg); r ← seqZ 0 (rows cfg);
      let i := c * rows cfg + r in
      if keepIndex (totalFrames cfg) (excludedFrames cfg) i then [i] else []
  | RowMajor =>
      r ← seqZ 0 (rows cfg); c ← seqZ 0 (cols cfg);
      let i := r * cols cfg + c in
      if keepIndex (totalFrames cfg) (excludedFrames cfg) i then [i] else []
  end.

(** ** Typed arrays and colours *)

(** [a[i]]: [undefined] outside of the array. *)
Definition aget (a : list Z) (i : Z) : option Z :=
  if 0 <=? i then a !! Z.to_nat i else None.

(** [a[i] = v] on a typed array, whose length is fixed: ignored outside. *)
Definition aset (a : list Z) (i v : Z) : list Z :=
  if 0 <=? i then <[Z.to_nat i := v]> a else a.

(** The conversion a [Uint8ClampedArray] applies to an integer it stores. *)
Definition toUint8Clamped (v : Z) : Z := Z.max 0 (Z.min 255 v).

Record RGB := { rgb_r : Z; rgb_g : Z; rgb_b : Z }.

(** [(r - tr) * (r - tr) + (g - tg) * (g - tg) + (b - tb) * (b - tb)] *)
Definition distSq (r g b : Z) (t : RGB) : Z :=
  (r - rgb_r t) * (r - rgb_r t) + (g - rgb_g t) * (g - rgb_g t)
  + (b - rgb_b t) * (b - rgb_b t).

(** [data[p] = kr; data[p+1] = kg; data[p+2] = kb; data[p+3] = 255] *)
Definition writeKey (data : list Z) (p : Z) (key : RGB) : list Z :=
  aset (aset (aset (aset data p (toUint8Clamped (rgb_r key)))
                   (p + 1) (toUint8Clamped (rgb_g key)))
             (p + 2) (toUint8Clamped (rgb_b key)))
       (p + 3) 255.

(** ** IEEE 754 doubles

    A finite double is a rational; an arithmetic operation of JavaScript
    gives the double nearest to the exact result, ties going to the even
    significand.  (No number of the pipeline comes near 2^1024, where the
    result would be an infinity.) *)

(** The integer nearest to [q], the even one on a tie. *)
Definition rne (q : Q) : Z :=
  let f := Qfloor q in
  match Qcompare (q - inject_Z f) (1 # 2) with
  | Lt => f
  | Gt => f + 1
  | Eq => if Z.even f then f else f + 1
  end.

(** [floor (log2 q)] for [q] from 2^-1100 on; below, -1100. *)
Definition binade (q : Q) : Z :=
  Z.log2 (Qfloor (q * inject_Z (2 ^ 1100))) - 1100.

(** The exponent of the last place of the doubles around [q]: 52 binary
    places below the leading one, and never below 2^-1074. *)
Definition ulpExp (q : Q) : Z := Z.max (binade q - 52) (- 1074).

Definition roundPos (q : Q) : Q :=
  Qred (inject_Z (rne (q / 2 ^ ulpExp q)) * 2 ^ ulpExp q).

(** The double nearest to [q]. *)
Definition roundDouble (q : Q) : Q :=
  match Qnum q with
  | Z0 => 0
  | Zpos _ => roundPos q
  | Zneg _ => - roundPos (- q)
  end.

(** The integer part, which the platform takes of a number passed where
    it expects a [long]. *)
Definition Qtruncate (q : Q) : Z :=
  if Qle_bool 0 q then Qfloor q else Qceiling q.

(** ** Bounding-box analyzer ([getContentBoundingBox]) *)

Record BoundingBox := {
  minX : Z;
  minY : Z;
  maxX : Z;
  maxY : Z;
  bb_width : Z;
  bb_height : Z
}.

(** The value of [isContent] for the pixel whose bytes start at [idx].  A
    comparison with [NaN] (a byte read outside of the array) is false. *)
Definition isContent (data : list Z) (transparentRGB : option RGB)
    (thresholdSq : Q) (idx : Z) : bool :=
  match aget data (idx + 3) with
  | Some 0 => false
  | _ =>
      match transparentRGB with
      | Some t =>
          match aget data idx, aget data (idx + 1), aget data (idx + 2) with
          | Some r, Some g, Some b =>
              negb (Qle_bool (inject_Z (distSq r g b t)) thresholdSq)
          | _, _, _ => false
          end
      | None => true
      end
  end.

Record Scan := {
  s_minX : Z;
  s_minY : Z;
  s_maxX : Z;
  s_maxY : Z;
  s_found : bool
}.

(** The body of the inner loop, for the pixel at column [x] of row [y]. *)
Definition scanPixel (data : list Z) (width : Z) (transparentRGB : option RGB)
    (thresholdSq : Q) (y : Z) (s : Scan) (x : Z) : Scan :=
  if isContent data transparentRGB thresholdSq ((y * width + x) * 4) then
    {| s_minX := if x <? s_minX s then x else s_minX s;
       s_maxX := if s_maxX s <? x then x else s_maxX s;
       s_minY := if y <? s_minY s then y else s_minY s;
       s_maxY := if s_maxY s <? y then y else s_maxY s;
       s_found := true |}
  else s.

Definition scanRow (data : list Z) (width : Z) (transparentRGB : option RGB)
    (thresholdSq : Q) (s : Scan) (y : Z) : Scan :=
  foldl (scanPixel data width transparentRGB thresholdSq y) s (seqZ 0 width).

Definition getContentBoundingBox (data : list Z) (width height : Z)
    (transparentRGB : option RGB) (thresholdSq : Q) : option BoundingBox :=
  let s :=
    foldl (scanRow data width transparentRGB thresholdSq)
          {| s_minX := width; s_minY := height; s_maxX := 0; s_maxY := 0;
             s_found := false |}
          (seqZ 0 height) in
  if s_found s then
    Some {| minX := s_minX s; minY := s_minY s; maxX := s_maxX s; maxY := s_maxY s;
            bb_width := s_maxX s - s_minX s + 1;
            bb_height := s_maxY s - s_minY s + 1 |}
  else None.

(** *** The analyzer on a fractional size

    The analysis pass calls [getContentBoundingBox] with the crop size as
    it is, which is no integer when the sheet does not divide by the grid.
    The loops then run while [x < width] and [y < height], and the index
    [(y * width + x) * 4], computed on doubles, need not be an integer: the
    bytes read at such an index are [undefined]. *)

(** [data[i]] for a number [i]: [undefined] unless [i] is an index of the
    array. *)
Definition agetD (a : list Z) (i : Q) : option Z :=
  if Qeq_bool i (inject_Z (Qfloor i)) then aget a (Qfloor i) else None.

(** [isContent] for the bytes read from [idx] on. *)
Definition isContentD (data : list Z) (transparentRGB : option RGB)
    (thresholdSq : Q) (idx : Q) : bool :=
  match agetD data (roundDouble (idx + 3)) with
  | Some 0 => false
  | _ =>
      match transparentRGB with
      | Some t =>
          match agetD data idx, agetD data (roundDouble (idx + 1)),
                agetD data (roundDouble (idx + 2)) with
          | Some r, Some g, Some b =>
              negb (Qle_bool (inject_Z (distSq r g b t)) thresholdSq)
          | _, _, _ => false
          end
      | None => true
      end
  end.

(** [(y * width + x) * 4] *)
Definition pixelIndexD (width : Q) (x y : Z) : Q :=
  roundDouble (roundDouble (roundDouble (inject_Z y * width) + inject_Z x) * 4).

Definition scanPixelD (data : list Z) (width : Q) (transparentRGB : option RGB)
    (thresholdSq : Q) (y : Z) (s : Scan) (x : Z) : Scan :=
  if isContentD data transparentRGB thresholdSq (pixelIndexD width x y) then
    {| s_minX := if x <? s_minX s then x else s_minX s;
       s_maxX := if s_maxX s <? x then x else s_maxX s;
       s_minY := if y <? s_minY s then y else s_minY s;
       s_maxY := if s_maxY s <? y then y else s_maxY s;
       s_found := true |}
  else s.

(** [x] and [y] are integers, so [x < width] holds exactly when [x] is below
    the ceiling of [width]: the loops run over [0 .. ceiling - 1], and
    [minX], [minY], which start at [width] and [height] and are compared
    with integers only, start at the ceilings. *)
Definition getContentBoundingBoxD (data : list Z) (width height : Q)
    (transparentRGB : option RGB) (thresholdSq : Q) : option BoundingBox :=
  let s :=
    foldl (λ s y, foldl (scanPixelD data width transparentRGB thresholdSq y) s
                        (seqZ 0 (Qceiling width)))
          {| s_minX := Qceiling width; s_minY := Qceiling height;
             s_maxX := 0; s_maxY := 0; s_found := false |}
          (seqZ 0 (Qceiling height)) in
  if s_found s then
    Some {| minX := s_minX s; minY := s_minY s; maxX := s_maxX s; maxY := s_maxY s;
            bb_width := s_maxX s - s_minX s + 1;
            bb_height := s_maxY s - s_minY s + 1 |}
  else None.

(** ** Chroma-key engine *)

(** [matches] of [applyFloodFill]: a pixel of alpha 0 matches; otherwise the
    pixel matches when it lies within the threshold of the target. *)
Definition matches (target : RGB) (thresholdSq : Q) (data : list Z) (idx : Z) : bool :=
  match aget data (idx + 3) with
  | Some 0 => true
  | _ =>
      match aget data idx, aget data (idx + 1), aget data (idx + 2) with
      | Some r, Some g, Some b => Qle_bool (inject_Z (distSq r g b target)) thresholdSq
      | _, _, _ => false
      end
  end.

(** [matches] of the preview's [processTransparency]: no test of alpha. *)
Definition previewMatches (target : RGB) (thresholdSq : Q) (data : list Z) (idx : Z) : bool :=
  match aget data idx, aget data (idx + 1), aget data (idx + 2) with
  | Some r, Some g, Some b => Qle_bool (inject_Z (distSq r g b target)) thresholdSq
  | _, _, _ => false
  end.

(** [data[i + 3] > 0 && matches(i)], the test the preview applies. *)
Definition previewKeyed (target : RGB) (thresholdSq : Q) (data : list Z) (idx : Z) : bool :=
  match aget data (idx + 3) with
  | Some a => (0 <? a) && previewMatches target thresholdSq data idx
  | None => false
  end.

(** *** Edge-seeded flood fill

    [applyFloodFill] (export) and the flood branch of [processTransparency]
    (preview) are the same loop around two different pixel tests and two
    different writes; the loop is written once, over both. *)

Record Flood := {
  fl_data : list Z;      (* the bitmap, mutated in place *)
  fl_visited : list Z;   (* [visited], a [Uint8Array] of width * height flags *)
  fl_queue : list Z;     (* [queue], only ever pushed to *)
  fl_head : nat;         (* [head] *)
  fl_touched : list Z    (* ghost: the pixel indices read or written so far *)
}.

(** [!visited[i]] *)
Definition unvisited (visited : list Z) (i : Z) : bool :=
  match aget visited i with
  | Some v => v =? 0
  | None => true
  end.

Section FloodFill.
(** The pixel test, on the current bitmap and a byte offset. *)
Variable test : list Z → Z → bool.
(** The write applied to a dequeued pixel, given its byte offset. *)
Variable paint : list Z → Z → list Z.
Variables width height : Z.

(** The test-and-enqueue shared by [addSeed] and the neighbour loop. *)
Definition enqueueIfMatch (vIdx : Z) (st : Flood) : Flood :=
  if unvisited (fl_visited st) vIdx then
    if test (fl_data st) (vIdx * 4) then
      {| fl_data := fl_data st;
         fl_visited := aset (fl_visited st) vIdx 1;
         fl_queue := fl_queue st ++ [vIdx];
         fl_head := fl_head st;
         fl_touched := vIdx :: fl_touched st |}
    else
      {| fl_data := fl_data st; fl_visited := fl_visited st;
         fl_queue := fl_queue st; fl_head := fl_head st;
         fl_touched := vIdx :: fl_touched st |}
  else
    {| fl_data := fl_data st; fl_visited := fl_visited st;
       fl_queue := fl_queue st; fl_head := fl_head st;
       fl_touched := vIdx :: fl_touched st |}.

Definition addSeed (x y : Z) (st : Flood) : Flood :=
  enqueueIfMatch (y * width + x) st.

(** The two seeding loops: top and bottom rows, then left and right
    columns between them. *)
Definition seedEdges (st : Flood) : Flood :=
  let st1 :=
    foldl (λ st x, addSeed x (height - 1) (addSeed x 0 st)) st (seqZ 0 width) in
  foldl (λ st y, addSeed (width - 1) y (addSeed 0 y st)) st1 (seqZ 1 (height - 2)).

(** One neighbour of the [for (const { nx, ny } of neighbors)] loop. *)
Definition visitNeighbor (st : Flood) (n : Z * Z) : Flood :=
  let '(nx, ny) := n in
  if (0 <=? nx) && (nx <? width) && (0 <=? ny) && (ny <? height) then
    enqueueIfMatch (ny * width + nx) st
  else st.

(** The head of an iteration of the [while] loop: [head++] and the write
    to the dequeued pixel. *)
Definition paintPixel (vIdx : Z) (st : Flood) : Flood :=
  {| fl_data := paint (fl_data st) (vIdx * 4);
     fl_visited := fl_visited st;
     fl_queue := fl_queue st;
     fl_head := S (fl_head st);
     fl_touched := vIdx :: fl_touched st |}.

(** One iteration of the [while] loop, for the dequeued index [vIdx]. *)
Definition floodStep (vIdx : Z) (st : Flood) : Flood :=
  let x := Z.rem vIdx width in
  let y := vIdx / width in
  foldl visitNeighbor (paintPixel vIdx st)
        [(x + 1, y); (x - 1, y); (x, y + 1); (x, y - 1)].

(** [while (head < queue.length)], with a bound on the iterations:
    [None] when the bound is reached with the queue not yet drained. *)
Fixpoint floodLoop (fuel : nat) (st : Flood) : option Flood :=
  match fl_queue st !! fl_head st with
  | None => Some st
  | Some vIdx =>
      match fuel with
      | O => None
      | S fuel' => floodLoop fuel' (floodStep vIdx st)
      end
  end.

Definition floodInit (data : list Z) : Flood :=
  {| fl_data := data;
     fl_visited := replicate (Z.to_nat (width * height)) 0;
     fl_queue := [];
     fl_head := 0%nat;
     fl_touched := [] |}.

(** The whole fill, allowed [width * height] iterations of the loop. *)
Definition floodFill (data : list Z) : option Flood :=
  floodLoop (Z.to_nat (width * height)) (seedEdges (floodInit data)).
End FloodFill.

Definition applyFloodFill (data : list Z) (width height : Z)
    (targetRGB keyColor : RGB) (thresholdSq : Q) : option Flood :=
  floodFill (matches targetRGB thresholdSq) (λ d idx, writeKey d idx keyColor)
            width height data.

(** The global branch of [generateGif]'s keying: every pixel on its own. *)
Definition globalKeyPixel (target key : RGB) (thresholdSq : Q) (data : list Z) (p : Z)
    : list Z :=
  match aget data (p + 3) with
  | Some 0 => writeKey data p key
  | _ =>
      match aget data p, aget data (p + 1), aget data (p + 2) with
      | Some r, Some g, Some b =>
          if Qle_bool (inject_Z (distSq r g b target)) thresholdSq
          then writeKey data p key else data
      | _, _, _ => data
      end
  end.

(** [for (let p = 0; p < data.length; p += 4)] *)
Definition pixelOffsets (data : list Z) : list Z :=
  (λ k, k * 4) <$> seqZ 0 ((Z.of_nat (length data) + 3) / 4).

Definition applyGlobalKey (data : list Z) (targetRGB keyColor : RGB) (thresholdSq : Q)
    : list Z :=
  foldl (globalKeyPixel targetRGB keyColor thresholdSq) data (pixelOffsets data).

(** The flood branch of the preview's [processTransparency]: alpha is set
    to 0 in place of a key colour, and a pixel of alpha 0 never matches. *)
Definition previewFloodFill (data : list Z) (width height : Z) (targetRGB : RGB)
    (thresholdSq : Q) : option Flood :=
  floodFill (previewKeyed targetRGB thresholdSq) (λ d idx, aset d (idx + 3) 0)
            width height data.

(** [processTransparency]; the result is the bitmap it leaves. *)
Definition processTransparency (data : list Z) (width height : Z) (targetRGB : RGB)
    (thresholdSq : Q) (useFloodFill : bool) : option (list Z) :=
  if negb useFloodFill then
    Some (foldl (λ d i, if previewKeyed targetRGB thresholdSq d i
                        then aset d (i + 3) 0 else d)
                data (pixelOffsets data))
  else fl_data <$> previewFloodFill data width height targetRGB thresholdSq.

(** ** The export pipeline ([generateGif]) *)

(** [hexToRgb]: an optional [#] and exactly six hexadecimal digits. *)
Definition hexDigit (ch : ascii) : option Z :=
  let n := Z.of_N (N_of_ascii ch) in
  if (48 <=? n) && (n <=? 57) then Some (n - 48)
  else if (97 <=? n) && (n <=? 102) then Some (n - 87)
  else if (65 <=? n) && (n <=? 70) then Some (n - 55)
  else None.

Definition hexByte (hi lo : ascii) : option Z :=
  h ← hexDigit hi; l ← hexDigit lo; Some (16 * h + l).

Definition hexToRgb (hex : string) : option RGB :=
  let digits :=
    match hex with
    | String "#"%char rest => rest
    | _ => hex
    end in
  match list_ascii_of_string digits with
  | [r1; r2; g1; g2; b1; b2] =>
      r ← hexByte r1 r2; g ← hexByte g1 g2; b ← hexByte b1 b2;
      Some {| rgb_r := r; rgb_g := g; rgb_b := b |}
  | _ => None
  end.

(** The sentinel colour: green when the target is within 100 of magenta,
    magenta otherwise.  [sqrt s < 100] is decided on [s < 10000]. *)
Definition keyColorFor (t : RGB) : RGB :=
  if distSq (rgb_r t) (rgb_g t) (rgb_b t) {| rgb_r := 255; rgb_g := 0; rgb_b := 255 |}
     <? 10000
  then {| rgb_r := 0; rgb_g := 255; rgb_b := 0 |}
  else {| rgb_r := 255; rgb_g := 0; rgb_b := 255 |}.

(** [thresholdSq], from the tolerance in percent of [maxDist = 441.67]. *)
Definition thresholdSqOf (tolerance : Q) : Q :=
  let threshold := (tolerance / 100 * 441.67)%Q in
  (threshold * threshold)%Q.

Record KeySetup := {
  transparentRGB : option RGB;
  keyColor : option RGB;
  thresholdSq : Q
}.

(** "Prep transparency config": an empty string is falsy. *)
Definition keySetup (cfg : SpriteConfig) : KeySetup :=
  match transparent cfg with
  | Some (String ch rest as hex) =>
      match hexToRgb hex with
      | Some t => {| transparentRGB := Some t; keyColor := Some (keyColorFor t);
                     thresholdSq := thresholdSqOf (tolerance cfg) |}
      | None => {| transparentRGB := None; keyColor := None; thresholdSq := 0 |}
      end
  | _ => {| transparentRGB := None; keyColor := None; thresholdSq := 0 |}
  end.

(** [if (transparent)] *)
Definition hasTransparent (cfg : SpriteConfig) : bool :=
  match transparent cfg with
  | Some (String _ _) => true
  | _ => false
  end.

(** What the browser contributes: whether each canvas yields a 2d context,
    and the bytes [getImageData] returns for the crop of the cell at row [r],
    column [c] drawn on the analysis canvas. *)
Record Browser := {
  analysisCtx : bool;
  bufferCtx : bool;
  outputCtx : bool;
  analysisPixels : Z → Z → list Z
}.

Inductive Canvas := AnalysisCanvas | BufferCanvas | OutputCanvas.

(** What the code asks of the canvases and of the GIF encoder. *)
Inductive Effect :=
| CreateCanvas (cv : Canvas) (w h : Q)
| ClearRect (cv : Canvas) (w h : Q)
| FillWhite (cv : Canvas) (w h : Q)
| DrawImage (cv : Canvas) (sx sy sw sh dx dy dw dh : Q)
| GetImageData (cv : Canvas) (w h : Q)
| KeyPixels (flood : bool) (target key : RGB) (thresholdSq : Q) (w h : Z)
| PutImageData (cv : Canvas)
| DrawBuffer (w h : Z)
| NewGif (w h : Z) (transparentColor : option Z)
| AddFrame (cv : Canvas) (delay : Q)
| GifRender.

Inductive PipelineError :=
| InvalidCrop        (* "裁剪数值过大，导致画面宽度或高度为0或负数" *)
| EmptySequence      (* "没有有效的帧可供生成" *)
| NoCanvasContext    (* "Could not create canvas context" *)
| IndexSizeError     (* thrown by [getImageData] on an empty rectangle *)
| InvalidStateError. (* thrown by [drawImage] from an empty canvas *)

(** [Rendering]: every frame was submitted and [gif.render()] was called;
    the promise resolves when the encoder reports [finished]. *)
Inductive Outcome :=
| Rejected (e : PipelineError)
| Rendering.

Record Geometry := {
  frameWidthRaw : Q;
  frameHeightRaw : Q;
  cropWidth : Q;
  cropHeight : Q
}.

Definition geometry (cfg : SpriteConfig) (dimensions : ImageDimensions) : Geometry :=
  let fw := (width dimensions / inject_Z (cols cfg))%Q in
  let fh := (height dimensions / inject_Z (rows cfg))%Q in
  {| frameWidthRaw := fw;
     frameHeightRaw := fh;
     cropWidth := (fw - left (crop cfg) - right (crop cfg))%Q;
     cropHeight := (fh - top (crop cfg) - bottom (crop cfg))%Q |}.

(** [cropWidth] and [cropHeight] as the doubles the code holds: the size of
    the bitmap [getImageData] returns, and the loop bounds and the pixel
    stride of the analyzer, depend on them. *)
Definition cropWidthD (cfg : SpriteConfig) (geo : Geometry) : Q :=
  roundDouble (roundDouble (roundDouble (frameWidthRaw geo)
                            - roundDouble (left (crop cfg)))
               - roundDouble (right (crop cfg))).

Definition cropHeightD (cfg : SpriteConfig) (geo : Geometry) : Q :=
  roundDouble (roundDouble (roundDouble (frameHeightRaw geo)
                            - roundDouble (top (crop cfg)))
               - roundDouble (bottom (crop cfg))).

(** The auto-align analysis: one bounding box per sequenced frame, and the
    largest width and height seen. *)
Record Analysis := {
  frameBBoxes : gmap Z (option BoundingBox);
  maxW : Z;
  maxH : Z;
  an_effects : list Effect
}.

(** The box [getContentBoundingBox] returns for the frame [f]: it is
    called with the crop size, not with the size of the bitmap. *)
Definition frameBBox (env : Browser) (cfg : SpriteConfig) (geo : Geometry)
    (ks : KeySetup) (f : FrameCoord) : option BoundingBox :=
  getContentBoundingBoxD (analysisPixels env (f_r f) (f_c f))
    (cropWidthD cfg geo) (cropHeightD cfg geo)
    (transparentRGB ks) (thresholdSq ks).

Definition analyseFrame (env : Browser) (cfg : SpriteConfig) (geo : Geometry)
    (ks : KeySetup) (a : Analysis) (f : FrameCoord) : Analysis :=
  let bbox := frameBBox env cfg geo ks f in
  {| frameBBoxes := <[originalIndex f := bbox]> (frameBBoxes a);
     maxW := match bbox with Some b => Z.max (maxW a) (bb_width b) | None => maxW a end;
     maxH := match bbox with Some b => Z.max (maxH a) (bb_height b) | None => maxH a end;
     an_effects :=
       an_effects a ++
       [ ClearRect AnalysisCanvas (cropWidth geo) (cropHeight geo);
         DrawImage AnalysisCanvas
           (inject_Z (f_c f) * frameWidthRaw geo + left (crop cfg))
           (inject_Z (f_r f) * frameHeightRaw geo + top (crop cfg))
           (cropWidth geo) (cropHeight geo) 0 0 (cropWidth geo) (cropHeight geo);
         GetImageData AnalysisCanvas (cropWidth geo) (cropHeight geo) ] |}.

Definition analysis (env : Browser) (cfg : SpriteConfig) (geo : Geometry)
    (ks : KeySetup) (frames : list FrameCoord) : Analysis :=
  let empty := {| frameBBoxes := ∅; maxW := 0; maxH := 0; an_effects := [] |} in
  if autoAlign cfg && analysisCtx env
  then foldl (analyseFrame env cfg geo ks) empty frames
  else empty.

(** [finalWidth], [finalHeight] *)
Definition finalSize (geo : Geometry) (a : Analysis) : Q * Q :=
  if (0 <? maxW a) && (0 <? maxH a)
  then (inject_Z (maxW a + 2), inject_Z (maxH a + 2))
  else (cropWidth geo, cropHeight geo).

Record Output := {
  resizeRatio : Q;
  outputWidth : Z;
  outputHeight : Z
}.

(** "Output" dimensions, constrained by 1024px if enabled.  The quotient
    and the two products are doubles: the product of the longer side and
    the ratio can fall just below 1024, and its floor is then 1023. *)
Definition outputSize (maxResolution1024 : bool) (logicalWidth logicalHeight : Z)
    : Output :=
  let maxSide := Z.max logicalWidth logicalHeight in
  if maxResolution1024 && (1024 <? maxSide) then
    let ratio := roundDouble (1024 / inject_Z maxSide) in
    {| resizeRatio := ratio;
       outputWidth := Qfloor (roundDouble (inject_Z logicalWidth * ratio));
       outputHeight := Qfloor (roundDouble (inject_Z logicalHeight * ratio)) |}
  else
    {| resizeRatio := 1; outputWidth := logicalWidth; outputHeight := logicalHeight |}.

(** [(keyColor.r << 16) | (keyColor.g << 8) | keyColor.b] *)
Definition gifTransparent (cfg : SpriteConfig) (ks : KeySetup) : option Z :=
  match keyColor ks with
  | Some k =>
      if hasTransparent cfg
      then Some (Z.lor (Z.lor (Z.shiftl (rgb_r k) 16) (Z.shiftl (rgb_g k) 8)) (rgb_b k))
      else None
  | None => None
  end.

Record RenderCtx := {
  rc_logicalWidth : Z;
  rc_logicalHeight : Z;
  rc_output : Output;
  rc_outputCanvas : bool;   (* [resizeRatio !== 1.0]: an output canvas exists *)
  rc_resized : bool;        (* [outputCtx && outputCanvas] *)
  rc_delay : Q
}.

(** "Dimension calculation": the logical size, the output size, the delay. *)
Definition renderCtx (env : Browser) (cfg : SpriteConfig) (geo : Geometry)
    (a : Analysis) : RenderCtx :=
  let '(finalWidth, finalHeight) := finalSize geo a in
  let logicalWidth := Qfloor (finalWidth * scale cfg) in
  let logicalHeight := Qfloor (finalHeight * scale cfg) in
  let out := outputSize (maxResolution1024 cfg) logicalWidth logicalHeight in
  let resize := negb (Qeq_bool (resizeRatio out) 1) in
  {| rc_logicalWidth := logicalWidth;
     rc_logicalHeight := logicalHeight;
     rc_output := out;
     rc_outputCanvas := resize;
     rc_resized := resize && outputCtx env;
     rc_delay := (1000 / fps cfg)%Q |}.

(** One iteration of the render loop. *)
Definition renderFrame (cfg : SpriteConfig) (geo : Geometry) (ks : KeySetup)
    (a : Analysis) (rc : RenderCtx) (f : FrameCoord) : list Effect :=
  let lw := inject_Z (rc_logicalWidth rc) in
  let lh := inject_Z (rc_logicalHeight rc) in
  let ow := inject_Z (outputWidth (rc_output rc)) in
  let oh := inject_Z (outputHeight (rc_output rc)) in
  [ ClearRect BufferCanvas lw lh ]
  ++ (if hasTransparent cfg then [] else [ FillWhite BufferCanvas lw lh ])
  ++ (if autoAlign cfg then
        match frameBBoxes a !! originalIndex f with
        | Some (Some bbox) =>
            let scaledBboxW := Qfloor (inject_Z (bb_width bbox) * scale cfg) in
            let scaledBboxH := Qfloor (inject_Z (bb_height bbox) * scale cfg) in
            let destX :=
              Qfloor (inject_Z (rc_logicalWidth rc - scaledBboxW) / 2) in
            let destY :=
              match alignMode cfg with
              | AlignBottom => rc_logicalHeight rc - scaledBboxH
              | AlignCenter =>
                  Qfloor (inject_Z (rc_logicalHeight rc - scaledBboxH) / 2)
              end in
            [ DrawImage BufferCanvas
                (inject_Z (f_c f) * frameWidthRaw geo + left (crop cfg)
                 + inject_Z (minX bbox))
                (inject_Z (f_r f) * frameHeightRaw geo + top (crop cfg)
                 + inject_Z (minY bbox))
                (inject_Z (bb_width bbox)) (inject_Z (bb_height bbox))
                (inject_Z destX) (inject_Z destY)
                (inject_Z scaledBboxW) (inject_Z scaledBboxH) ]
        | _ => []
        end
      else
        [ DrawImage BufferCanvas
            (inject_Z (f_c f) * frameWidthRaw geo + left (crop cfg))
            (inject_Z (f_r f) * frameHeightRaw geo + top (crop cfg))
            (cropWidth geo) (cropHeight geo) 0 0 lw lh ])
  ++ match transparentRGB ks, keyColor ks with
     | Some t, Some k =>
         [ GetImageData BufferCanvas lw lh;
           KeyPixels (useFloodFill cfg) t k (thresholdSq ks)
                     (rc_logicalWidth rc) (rc_logicalHeight rc);
           PutImageData BufferCanvas ]
     | _, _ => []
     end
  ++ (if rc_resized rc then
        [ ClearRect OutputCanvas ow oh ]
        ++ (if hasTransparent cfg then [] else [ FillWhite OutputCanvas ow oh ])
        ++ [ DrawBuffer (outputWidth (rc_output rc)) (outputHeight (rc_output rc));
             AddFrame OutputCanvas (rc_delay rc) ]
      else [ AddFrame BufferCanvas (rc_delay rc) ]).

(** What precedes the render loop: the analysis canvas and its pass, the
    encoder, the buffer canvas. *)
Definition setupEffects (cfg : SpriteConfig) (geo : Geometry) (ks : KeySetup)
    (a : Analysis) (rc : RenderCtx) : list Effect :=
  [ CreateCanvas AnalysisCanvas (cropWidth geo) (cropHeight geo) ]
  ++ an_effects a
  ++ [ NewGif (outputWidth (rc_output rc)) (outputHeight (rc_output rc))
              (gifTransparent cfg ks);
       CreateCanvas BufferCanvas (inject_Z (rc_logicalWidth rc))
                    (inject_Z (rc_logicalHeight rc)) ].

(** The calls the platform refuses.  [getImageData] throws on a rectangle
    whose width or height, as integers, is 0; [drawImage] throws when its
    source is a canvas of width or height 0; [addFrame] with [copy: true]
    reads the context back over the width and height of the encoder
    (gif.js, [getContextData]), an empty rectangle when one of them is 0. *)
Definition refused (cfg : SpriteConfig) (geo : Geometry) (rc : RenderCtx)
    (call : Effect) : option PipelineError :=
  match call with
  | GetImageData AnalysisCanvas _ _ =>
      if (Qtruncate (cropWidthD cfg geo) =? 0) || (Qtruncate (cropHeightD cfg geo) =? 0)
      then Some IndexSizeError else None
  | GetImageData _ _ _ =>
      if (rc_logicalWidth rc =? 0) || (rc_logicalHeight rc =? 0)
      then Some IndexSizeError else None
  | DrawBuffer _ _ =>
      if (rc_logicalWidth rc =? 0) || (rc_logicalHeight rc =? 0)
      then Some InvalidStateError else None
  | AddFrame _ _ =>
      if (outputWidth (rc_output rc) =? 0) || (outputHeight (rc_output rc) =? 0)
      then Some IndexSizeError else None
  | _ => None
  end.

(** The calls made until one is refused, and the error it throws. *)
Fixpoint attempt (refuse : Effect → option PipelineError) (calls : list Effect)
    : list Effect * option PipelineError :=
  match calls with
  | [] => ([], None)
  | call :: rest =>
      match refuse call with
      | Some err => ([], Some err)
      | None => let '(made, r) := attempt refuse rest in (call :: made, r)
      end
  end.

(** The executor of the promise [generateGif] returns: the effects it has
    on the browser, in order, and how it ends.  An exception thrown in the
    executor rejects the promise.  (The fetch of the worker script, awaited
    before, is the browser's.) *)
Definition generateGif (env : Browser) (cfg : SpriteConfig) (dimensions : ImageDimensions)
    : list Effect * Outcome :=
  let geo := geometry cfg dimensions in
  if Qle_bool (cropWidth geo) 0 || Qle_bool (cropHeight geo) 0 then
    ([], Rejected InvalidCrop)
  else
    let frames := validFrameCoordinates cfg in
    match frames with
    | [] => ([], Rejected EmptySequence)
    | _ :: _ =>
        let ks := keySetup cfg in
        let a := analysis env cfg geo ks frames in
        let rc := renderCtx env cfg geo a in
        match attempt (refused cfg geo rc) (setupEffects cfg geo ks a rc) with
        | (made, Some err) => (made, Rejected err)
        | (setup, None) =>
            if negb (bufferCtx env) then (setup, Rejected NoCanvasContext)
            else
              match
                attempt (refused cfg geo rc)
                  ((if rc_outputCanvas rc
                    then [ CreateCanvas OutputCanvas
                             (inject_Z (outputWidth (rc_output rc)))
                             (inject_Z (outputHeight (rc_output rc))) ]
                    else [])
                   ++ (frames ≫= renderFrame cfg geo ks a rc)
                   ++ [ GifRender ])
              with
              | (made, Some err) => (setup ++ made, Rejected err)
              | (made, None) => (setup ++ made, Rendering)
              end
        end
    end.

(** ** Vocabulary of the statements *)

(** What the scan of the columns below [cw] and the rows below [ch] keeps
    true of its state. *)
Definition ScanBounds (cw ch : Z) (s : Scan) : Prop :=
  if s_found s
  then 0 ≤ s_minX s ≤ s_maxX s ∧ s_maxX s < cw
       ∧ 0 ≤ s_minY s ≤ s_maxY s ∧ s_maxY s < ch
  else cw ≤ s_minX s ∧ ch ≤ s_minY s ∧ s_maxX s = 0 ∧ s_maxY s = 0.


(** The distinct excluded indices that lie in [0, totalFrames). *)
Definition excludedInRange (cfg : SpriteConfig) : list Z :=
  remove_dups (filter (λ e, 0 ≤ e < totalFrames cfg) (excludedFrames cfg)).

(** The four bytes of the pixel number [p] of a bitmap. *)
Definition pixelAt (data : list Z) (p : Z) : list (option Z) :=
  [ aget data (p * 4); aget data (p * 4 + 1); aget data (p * 4 + 2);
    aget data (p * 4 + 3) ].

(** The bytes of a pixel rewritten to the opaque key colour. *)
Definition keyPixel (key : RGB) : list (option Z) :=
  [ Some (toUint8Clamped (rgb_r key)); Some (toUint8Clamped (rgb_g key));
    Some (toUint8Clamped (rgb_b key)); Some 255 ].

(** The pixel at column [x] of row [y] lies in the bitmap and the analyzer
    counts it as content. *)
Definition contentAt (data : list Z) (width height : Z) (transparentRGB : option RGB)
    (thresholdSq : Q) (x y : Z) : Prop :=
  0 ≤ x < width ∧ 0 ≤ y < height
  ∧ isContent data transparentRGB thresholdSq ((y * width + x) * 4) = true.

(** A background pixel: alpha 0, or within the threshold of the target
    colour when one is configured. *)
Definition backgroundPixel (transparentRGB : option RGB) (thresholdSq : Q)
    (px : list (option Z)) : Prop :=
  ∃ r g b a, px = [Some r; Some g; Some b; Some a]
    ∧ (a = 0 ∨ ∃ t, transparentRGB = Some t
                    ∧ (inject_Z (distSq r g b t) <= thresholdSq)%Q).

(** A foreground pixel: alpha above 0 and, when a target colour is
    configured, farther from it than the threshold. *)
Definition foregroundPixel (transparentRGB : option RGB) (thresholdSq : Q)
    (px : list (option Z)) : Prop :=
  ∃ r g b a, px = [Some r; Some g; Some b; Some a]
    ∧ a ≠ 0
    ∧ match transparentRGB with
      | Some t => (thresholdSq < inject_Z (distSq r g b t))%Q
      | None => True
      end.

(** Two pixels that share an edge: east, west, south or north. *)
Definition adjacent (x y x' y' : Z) : Prop :=
  (x' = x + 1 ∧ y' = y) ∨ (x' = x - 1 ∧ y' = y)
  ∨ (x' = x ∧ y' = y + 1) ∨ (x' = x ∧ y' = y - 1).

(** The pixels a flood fill is to convert: those that match, [m x y], and
    lie on the border, and those that match and share an edge with one
    already reached. *)
Inductive Reachable (m : Z → Z → bool) (width height : Z) : Z → Z → Prop :=
| Reachable_border x y :
    0 ≤ x < width → 0 ≤ y < height →
    x = 0 ∨ x = width - 1 ∨ y = 0 ∨ y = height - 1 →
    m x y = true →
    Reachable m width height x y
| Reachable_step x y x' y' :
    Reachable m width height x y →
    0 ≤ x' < width → 0 ≤ y' < height →
    adjacent x y x' y' →
    m x' y' = true →
    Reachable m width height x' y'.

(** The discipline of [visited], [queue] and [head], whatever the pixel
    test and the write are. *)
Record QueueInv (width height : Z) (st : Flood) : Prop := {
  qi_visited_len : Z.of_nat (length (fl_visited st)) = width * height;
  qi_range : Forall (λ v, 0 ≤ v < width * height) (fl_queue st);
  qi_nodup : NoDup (fl_queue st);
  qi_visited : ∀ v, 0 ≤ v < width * height →
    unvisited (fl_visited st) v = false ↔ v ∈ fl_queue st;
  qi_head : (fl_head st ≤ length (fl_queue st))%nat;
  qi_touched : Forall (λ v, 0 ≤ v < width * height) (fl_touched st)
}.

(** What the fill has done to the bitmap [data0] it started from: the
    queued pixels are reachable, the dequeued ones are painted, the others
    are as they were. *)
Record PaintInv (test : list Z → Z → bool) (paint : list Z → Z → list Z)
    (width height : Z) (data0 : list Z) (st : Flood) : Prop := {
  pi_length : length (fl_data st) = length data0;
  pi_reach : ∀ v, v ∈ fl_queue st →
    ∃ x y, 0 ≤ x < width ∧ 0 ≤ y < height ∧ v = y * width + x
           ∧ Reachable (λ x y, test data0 ((y * width + x) * 4)) width height x y;
  pi_painted : ∀ v, v ∈ take (fl_head st) (fl_queue st) →
    pixelAt (fl_data st) v = pixelAt (paint data0 (v * 4)) v;
  pi_untouched : ∀ v, v ∉ take (fl_head st) (fl_queue st) →
    pixelAt (fl_data st) v = pixelAt data0 v
}.

(** The dequeued pixels have had their matching neighbours queued, but for
    the neighbours [todo] of the pixel [cur] that is being processed. *)
Definition Closed (test : list Z → Z → bool) (width height : Z) (data0 : list Z)
    (todo : list (Z * Z)) (cur : Z) (st : Flood) : Prop :=
  ∀ x y x' y',
    y * width + x ∈ take (fl_head st) (fl_queue st) →
    0 ≤ x < width → 0 ≤ y < height →
    adjacent x y x' y' → 0 ≤ x' < width → 0 ≤ y' < height →
    test data0 ((y' * width + x') * 4) = true →
    y' * width + x' ∈ fl_queue st
    ∨ (y * width + x = cur ∧ (x', y') ∈ todo).

(** What seeding has achieved once the border pixels [seeded] were offered:
    nothing is dequeued yet and those that match are queued. *)
Record SeedInv (test : list Z → Z → bool) (paint : list Z → Z → list Z)
    (width height : Z) (data0 : list Z) (seeded : Z → Z → Prop) (st : Flood) : Prop := {
  sd_queue : QueueInv width height st;
  sd_paint : PaintInv test paint width height data0 st;
  sd_head : fl_head st = 0%nat;
  sd_seeded : ∀ x y, seeded x y → test data0 ((y * width + x) * 4) = true →
    y * width + x ∈ fl_queue st
}.

(** What the scan knows after the pixels [seen]: every content pixel seen
    lies within the running bounds, each bound is attained by one of them,
    and before the first one the bounds are the initial ones. *)
Record ScanInv (content seen : Z → Z → Prop) (width height : Z) (s : Scan) : Prop := {
  si_bounds : ∀ x y, seen x y → content x y →
    s_found s = true ∧ s_minX s ≤ x ≤ s_maxX s ∧ s_minY s ≤ y ≤ s_maxY s;
  si_minX : s_found s = true → ∃ y, seen (s_minX s) y ∧ content (s_minX s) y;
  si_maxX : s_found s = true → ∃ y, seen (s_maxX s) y ∧ content (s_maxX s) y;
  si_minY : s_found s = true → ∃ x, seen x (s_minY s) ∧ content x (s_minY s);
  si_maxY : s_found s = true → ∃ x, seen x (s_maxY s) ∧ content x (s_maxY s);
  si_init : s_found s = false →
    s_minX s = width ∧ s_minY s = height ∧ s_maxX s = 0 ∧ s_maxY s = 0
}.

(** The frames submitted to the GIF encoder. *)
Definition isAddFrame (e : Effect) : bool :=
  match e with AddFrame _ _ => true | _ => false end.

Definition framesSubmitted (trace : list Effect) : nat :=
  length (filter (λ e, isAddFrame e = true) trace).

(** A drawing of the source image on the buffer canvas, the one frames are
    composed on. *)
Definition drawsOnBuffer (e : Effect) : bool :=
  match e with DrawImage BufferCanvas _ _ _ _ _ _ _ _ => true | _ => false end.

(** The effects of a frame after its drawing step: keying, then emission. *)
Definition keyAndEmit (cfg : SpriteConfig) (ks : KeySetup) (rc : RenderCtx)
    : list Effect :=
  let lw := inject_Z (rc_logicalWidth rc) in
  let lh := inject_Z (rc_logicalHeight rc) in
  let ow := inject_Z (outputWidth (rc_output rc)) in
  let oh := inject_Z (outputHeight (rc_output rc)) in
  match transparentRGB ks, keyColor ks with
  | Some t, Some k =>
      [ GetImageData BufferCanvas lw lh;
        KeyPixels (useFloodFill cfg) t k (thresholdSq ks)
                  (rc_logicalWidth rc) (rc_logicalHeight rc);
        PutImageData BufferCanvas ]
  | _, _ => []
  end
  ++ (if rc_resized rc then
        [ ClearRect OutputCanvas ow oh ]
        ++ (if hasTransparent cfg then [] else [ FillWhite OutputCanvas ow oh ])
        ++ [ DrawBuffer (outputWidth (rc_output rc)) (outputHeight (rc_output rc));
             AddFrame OutputCanvas (rc_delay rc) ]
      else [ AddFrame BufferCanvas (rc_delay rc) ]).

(** The drawing of the no-align path: the whole cropped cell of [f], scaled
    to the logical canvas. *)
Definition drawFullCell (cfg : SpriteConfig) (geo : Geometry) (rc : RenderCtx)
    (f : FrameCoord) : Effect :=
  DrawImage BufferCanvas
    (inject_Z (f_c f) * frameWidthRaw geo + left (crop cfg))
    (inject_Z (f_r f) * frameHeightRaw geo + top (crop cfg))
    (cropWidth geo) (cropHeight geo) 0 0
    (inject_Z (rc_logicalWidth rc)) (inject_Z (rc_logicalHeight rc)).

(** A browser that grants every context and whose image is fully
    transparent: every byte read back is 0. *)
Definition blankBrowser (w h : Z) : Browser :=
  {| analysisCtx := true; bufferCtx := true; outputCtx := true;
     analysisPixels := λ _ _, replicate (Z.to_nat (4 * w * h)) 0 |}.

(** A configuration with the given grid and the defaults of the UI. *)
Definition gridConfig (order : ReadOrder) (r c total : Z) (excl : list Z) : SpriteConfig :=
  {| rows := r; cols := c; totalFrames := total; excludedFrames := excl;
     fps := 12; scale := 1; transparent := None; tolerance := 10;
     useFloodFill := true; autoAlign := false; alignMode := AlignCenter;
     readOrder := order;
     crop := {| top := 0; bottom := 0; left := 0; right := 0 |};
     maxResolution1024 := false |}.


(** A one-cell sheet rendered with auto-align. *)
Definition cfgAligned : SpriteConfig :=
  {| rows := 1; cols := 1; totalFrames := 1; excludedFrames := [];
     fps := 10; scale := 1; transparent := None; tolerance := 10;
     useFloodFill := true; autoAlign := true; alignMode := AlignCenter;
     readOrder := RowMajor;
     crop := {| top := 0; bottom := 0; left := 0; right := 0 |};
     maxResolution1024 := false |}.

(** A one-cell sheet of 2000 by 1000 pixels, capped at 1024. *)
Definition cfgCapped : SpriteConfig :=
  {| rows := 1; cols := 1; totalFrames := 1; excludedFrames := [];
     fps := 10; scale := 1; transparent := None; tolerance := 10;
     useFloodFill := true; autoAlign := false; alignMode := AlignCenter;
     readOrder := RowMajor;
     crop := {| top := 0; bottom := 0; left := 0; right := 0 |};
     maxResolution1024 := true |}.

(** One row of four cells on a sheet 10 pixels wide: cells of 2.5 pixels,
    aligned automatically. *)
Definition cfgFractional : SpriteConfig :=
  {| rows := 1; cols := 4; totalFrames := 4; excludedFrames := [];
     fps := 10; scale := 1; transparent := None; tolerance := 10;
     useFloodFill := true; autoAlign := true; alignMode := AlignCenter;
     readOrder := RowMajor;
     crop := {| top := 0; bottom := 0; left := 0; right := 0 |};
     maxResolution1024 := false |}.

(** A 4 by 4 grid exported at half size with white keyed out. *)
Definition cfgHalf : SpriteConfig :=
  {| rows := 4; cols := 4; totalFrames := 16; excludedFrames := [];
     fps := 10; scale := 1 # 2; transparent := Some "#ffffff"%string; tolerance := 10;
     useFloodFill := true; autoAlign := false; alignMode := AlignCenter;
     readOrder := RowMajor;
     crop := {| top := 0; bottom := 0; left := 0; right := 0 |};
     maxResolution1024 := false |}.

(** A 6 by 6 bitmap, transparent but for one opaque pixel at (5, 5). *)
Definition onePixelBitmap : list Z :=
  replicate 140 0 ++ [200; 30; 30; 255].

(** A 5 by 5 bitmap: a white pixel in the middle, a red ring around it, a
    white ring along the border. *)
Definition ringBitmap : list Z :=
  let W := [255; 255; 255; 255] in
  let R := [200; 30; 30; 255] in
  concat [ W; W; W; W; W;
           W; R; R; R; W;
           W; R; W; R; W;
           W; R; R; R; W;
           W; W; W; W; W ].

Definition white : RGB := {| rgb_r := 255; rgb_g := 255; rgb_b := 255 |}.
Definition magenta : RGB := {| rgb_r := 255; rgb_g := 0; rgb_b := 255 |}.

(** What a finished fill leaves of its bookkeeping on a [width] by [height]
    bitmap [data]: no index queued twice, the queue drained after as many
    iterations as it has entries, at most [width * height], and every
    pixel touched, with its four bytes, inside the bitmap. *)
Definition FillBounded (width height : Z) (data : list Z) (st : Flood) : Prop :=
  NoDup (fl_queue st)
  ∧ Forall (λ v, 0 ≤ v < width * height) (fl_queue st)
  ∧ Z.of_nat (length (fl_queue st)) ≤ width * height
  ∧ fl_head st = length (fl_queue st)
  ∧ Z.of_nat (length (fl_visited st)) = width * height
  ∧ length (fl_data st) = length data
  ∧ Forall (λ v, 0 ≤ v < width * height
                 ∧ ∀ k, 0 ≤ k < 4 → is_Some (aget data (v * 4 + k)))
           (fl_touched st).

(** ** The preview player ([components/PreviewPlayer.tsx]) *)

(** "Calculate row/col": the cell the preview draws for a frame index. *)
Definition previewCell (cfg : SpriteConfig) (frameIndex : Z) : Z * Z :=
  match readOrder cfg with
  | ColumnMajor => (Z.rem frameIndex (rows cfg), frameIndex / rows cfg)
  | RowMajor => (frameIndex / cols cfg, Z.rem frameIndex (cols cfg))
  end.

(** The frame the preview shows at [time] milliseconds: its position in the
    list of valid indices and the index read there; [None] when there is
    nothing to play. *)
Definition frameAtTime (cfg : SpriteConfig) (time : Q) : option (Z * option Z) :=
  let validIndices := getValidFrameIndices cfg in
  match validIndices with
  | [] => None
  | _ :: _ =>
      let frameInterval := (1000 / fps cfg)%Q in
      let tick := Qfloor (time / frameInterval) in
      let indexInValid := Z.rem tick (Z.of_nat (length validIndices)) in
      Some (indexInValid, aget validIndices indexInValid)
  end.

(** The global branch of [processTransparency]. *)
Definition previewGlobalKey (data : list Z) (targetRGB : RGB) (thresholdSq : Q) : list Z :=
  foldl (λ d i, if previewKeyed targetRGB thresholdSq d i then aset d (i + 3) 0 else d)
        data (pixelOffsets data).

Record AlphaBox := {
  ab_minX : Z;
  ab_minY : Z;
  ab_width : Z;
  ab_height : Z
}.

(** [data[idx + 3] > 0] *)
Definition alphaContent (data : list Z) (idx : Z) : bool :=
  match aget data (idx + 3) with
  | Some a => 0 <? a
  | None => false
  end.

Definition alphaScanPixel (data : list Z) (width : Z) (y : Z) (s : Scan) (x : Z) : Scan :=
  if alphaContent data ((y * width + x) * 4) then
    {| s_minX := if x <? s_minX s then x else s_minX s;
       s_maxX := if s_maxX s <? x then x else s_maxX s;
       s_minY := if y <? s_minY s then y else s_minY s;
       s_maxY := if s_maxY s <? y then y else s_maxY s;
       s_found := true |}
  else s.

(** [getAlphaBoundingBox]: the box of the pixels whose alpha is above 0. *)
Definition getAlphaBoundingBox (data : list Z) (width height : Z) : option AlphaBox :=
  let s :=
    foldl (λ s y, foldl (alphaScanPixel data width y) s (seqZ 0 width))
          {| s_minX := width; s_minY := height; s_maxX := 0; s_maxY := 0;
             s_found := false |}
          (seqZ 0 height) in
  if s_found s then
    Some {| ab_minX := s_minX s; ab_minY := s_minY s;
            ab_width := s_maxX s - s_minX s + 1;
            ab_height := s_maxY s - s_minY s + 1 |}
  else None.

(** ** The grid overlay ([components/SpriteCanvas.tsx]) *)

Record OverlayCell := {
  oc_r : Z;
  oc_c : Z;
  oc_seqIndex : Z;
  oc_isExcluded : bool;
  oc_isOutOfRange : bool
}.

(** [renderGridOverlay]: nothing without an image or a positive grid;
    otherwise one cell per position [i] of the CSS grid. *)
Definition renderGridOverlay (hasImage : bool) (cfg : SpriteConfig)
    : option (list OverlayCell) :=
  if negb hasImage || (cols cfg <=? 0) || (rows cfg <=? 0) then None
  else
    Some ((λ i,
             let r := i / cols cfg in
             let c := Z.rem i (cols cfg) in
             let seqIndex :=
               match readOrder cfg with
               | ColumnMajor => c * rows cfg + r
               | RowMajor => r * cols cfg + c
               end in
             {| oc_r := r; oc_c := c; oc_seqIndex := seqIndex;
                oc_isExcluded := bool_decide (seqIndex ∈ excludedFrames cfg);
                oc_isOutOfRange := totalFrames cfg <=? seqIndex |})
          <$> seqZ 0 (rows cfg * cols cfg)).

(** ** The application state ([App.tsx]) *)

(** [handleToggleFrame]: drop the index if it is excluded, append it
    otherwise. *)
Definition handleToggleFrame (index : Z) (prev : SpriteConfig) : SpriteConfig :=
  let newExcluded :=
    if bool_decide (index ∈ excludedFrames prev)
    then filter (λ i, i ≠ index) (excludedFrames prev)
    else excludedFrames prev ++ [index] in
  {| rows := rows prev; cols := cols prev; totalFrames := totalFrames prev;
     excludedFrames := newExcluded;
     fps := fps prev; scale := scale prev; transparent := transparent prev;
     tolerance := tolerance prev; useFloodFill := useFloodFill prev;
     autoAlign := autoAlign prev; alignMode := alignMode prev;
     readOrder := readOrder prev; crop := crop prev;
     maxResolution1024 := maxResolution1024 prev |}.

(** The frame count the settings panel displays:
    [totalFrames - excludedFrames.filter(i => i < totalFrames).length]. *)
Definition displayedFrameCount (cfg : SpriteConfig) : Z :=
  totalFrames cfg
  - Z.of_nat (length (filter (λ i, i < totalFrames cfg) (excludedFrames cfg))).

(** [updateConfig(key, value)], over the keys the settings panel calls it
    with: the field is set, and a grid that was full stays full when its
    rows or columns change. *)
Inductive ConfigUpdate :=
| SetRows (v : Z)
| SetCols (v : Z)
| SetTotalFrames (v : Z)
| SetReadOrder (v : ReadOrder)
| SetAutoAlign (v : bool)
| SetAlignMode (v : AlignMode)
| SetFps (v : Q)
| SetScale (v : Q)
| SetMaxResolution1024 (v : bool)
| SetTransparent (v : option string)
| SetTolerance (v : Q)
| SetUseFloodFill (v : bool).

(** [{ ...prev, [key]: value }] *)
Definition setField (u : ConfigUpdate) (prev : SpriteConfig) : SpriteConfig :=
  {| rows := match u with SetRows v => v | _ => rows prev end;
     cols := match u with SetCols v => v | _ => cols prev end;
     totalFrames := match u with SetTotalFrames v => v | _ => totalFrames prev end;
     excludedFrames := excludedFrames prev;
     fps := match u with SetFps v => v | _ => fps prev end;
     scale := match u with SetScale v => v | _ => scale prev end;
     transparent := match u with SetTransparent v => v | _ => transparent prev end;
     tolerance := match u with SetTolerance v => v | _ => tolerance prev end;
     useFloodFill := match u with SetUseFloodFill v => v | _ => useFloodFill prev end;
     autoAlign := match u with SetAutoAlign v => v | _ => autoAlign prev end;
     alignMode := match u with SetAlignMode v => v | _ => alignMode prev end;
     readOrder := match u with SetReadOrder v => v | _ => readOrder prev end;
     crop := crop prev;
     maxResolution1024 :=
       match u with SetMaxResolution1024 v => v | _ => maxResolution1024 prev end |}.

Definition withTotalFrames (v : Z) (cfg : SpriteConfig) : SpriteConfig :=
  {| rows := rows cfg; cols := cols cfg; totalFrames := v;
     excludedFrames := excludedFrames cfg;
     fps := fps cfg; scale := scale cfg; transparent := transparent cfg;
     tolerance := tolerance cfg; useFloodFill := useFloodFill cfg;
     autoAlign := autoAlign cfg; alignMode := alignMode cfg;
     readOrder := readOrder cfg; crop := crop cfg;
     maxResolution1024 := maxResolution1024 cfg |}.

Definition updateConfig (u : ConfigUpdate) (prev : SpriteConfig) : SpriteConfig :=
  let next := setField u prev in
  match u with
  | SetRows _ | SetCols _ =>
      if totalFrames prev =? rows prev * cols prev
      then withTotalFrames (rows next * cols next) next
      else next
  | _ => next
  end.

(** ** Vocabulary of the further statements *)

(** The box of the analyzer, as the preview records it. *)
Definition alphaBoxOf (b : BoundingBox) : AlphaBox :=
  {| ab_minX := minX b; ab_minY := minY b;
     ab_width := bb_width b; ab_height := bb_height b |}.

(** A bitmap of [n] RGBA pixels, every byte present. *)
Definition wellFormed (data : list Z) (n : Z) : Prop :=
  Z.of_nat (length data) = 4 * n.

(** A browser whose every cell reads back as [onePixelBitmap]. *)
Definition onePixelBrowser : Browser :=
  {| analysisCtx := true; bufferCtx := true; outputCtx := true;
     analysisPixels := λ _ _, onePixelBitmap |}.

(** * Properties *)

(** ** Doubles: rounding to nearest, ties to even *)

Lemma Qfloor_spec q : (inject_Z (Qfloor q) <= q < inject_Z (Qfloor q) + 1)%Q.
Proof.
  split; [apply Qfloor_le|].
  pose proof (Qlt_floor q) as H. by rewrite inject_Z_plus in H.
Qed.

Lemma rne_cases q :
  let f := Qfloor q in
  (rne q = f ∧ (q - inject_Z f <= 1 # 2)%Q)
  ∨ (rne q = f + 1 ∧ (1 # 2 <= q - inject_Z f)%Q).
Proof.
  intros f. unfold rne. fold f.
  destruct (Qcompare (q - inject_Z f) (1 # 2)) eqn:E.
  - apply Qeq_alt in E. destruct (Z.even f); [left|right]; split; try done; lra.
  - apply Qlt_alt in E. left. split; [done|lra].
  - apply Qgt_alt in E. right. split; [done|lra].
Qed.

Lemma rne_floor q : Qfloor q ≤ rne q ≤ Qfloor q + 1.
Proof. destruct (rne_cases q) as [[-> _]|[-> _]]; lia. Qed.

Lemma rne_strict q :
  ((q - inject_Z (Qfloor q) < 1 # 2)%Q → rne q = Qfloor q)
  ∧ ((1 # 2 < q - inject_Z (Qfloor q))%Q → rne q = Qfloor q + 1).
Proof.
  destruct (rne_cases q) as [[-> H]|[-> H]]; split; intros; try done; lra.
Qed.

Lemma rne_mono q1 q2 : (q1 <= q2)%Q → rne q1 ≤ rne q2.
Proof.
  intros Hle. pose proof (Qfloor_resp_le _ _ Hle) as Hf.
  pose proof (rne_floor q1). pose proof (rne_floor q2).
  destruct (decide (Qfloor q1 = Qfloor q2)) as [E|]; [|lia].
  unfold rne. rewrite E.
  destruct (Qcompare (q1 - inject_Z (Qfloor q2)) (1 # 2)) eqn:E1,
           (Qcompare (q2 - inject_Z (Qfloor q2)) (1 # 2)) eqn:E2;
    try (destruct (Z.even (Qfloor q2))); try lia;
    repeat match goal with
           | H : Qcompare _ _ = Eq |- _ => apply Qeq_alt in H
           | H : Qcompare _ _ = Lt |- _ => apply Qlt_alt in H
           | H : Qcompare _ _ = Gt |- _ => apply Qgt_alt in H
           end; lra.
Qed.

Lemma rne_Z n : rne (inject_Z n) = n.
Proof.
  destruct (rne_strict (inject_Z n)) as [H _]. rewrite Qfloor_Z in H.
  apply H. lra.
Qed.

Lemma rne_comp q1 q2 : (q1 == q2)%Q → rne q1 = rne q2.
Proof. intros E. apply Z.le_antisymm; apply rne_mono; lra. Qed.

Lemma rne_error q : (- (1 # 2) <= inject_Z (rne q) - q <= 1 # 2)%Q.
Proof.
  pose proof (Qfloor_spec q).
  destruct (rne_cases q) as [[-> H1]|[-> H1]]; [lra|].
  assert (inject_Z (Qfloor q + 1) == inject_Z (Qfloor q) + 1)%Q as E
    by (rewrite inject_Z_plus; reflexivity).
  lra.
Qed.

Lemma rne_ge n q : (inject_Z n <= q)%Q → n ≤ rne q.
Proof. intros H. rewrite <- (rne_Z n). by apply rne_mono. Qed.

Lemma rne_le n q : (q <= inject_Z n)%Q → rne q ≤ n.
Proof. intros H. rewrite <- (rne_Z n). by apply rne_mono. Qed.

(** ** Powers of two *)

Lemma two_ne_0 : ¬ (2 == 0)%Q.
Proof. lra. Qed.

Lemma pow2_pos k : (0 < 2 ^ k)%Q.
Proof. apply Qpower_0_lt. lra. Qed.

Lemma pow2_plus a b : (2 ^ (a + b) == 2 ^ a * 2 ^ b)%Q.
Proof. apply Qpower_plus, two_ne_0. Qed.

Lemma pow2_le a b : a ≤ b → (2 ^ a <= 2 ^ b)%Q.
Proof. intros H. apply Qpower_le_compat_l; [done|lra]. Qed.

Lemma pow2_Z k : 0 ≤ k → (inject_Z (2 ^ k) == 2 ^ k)%Q.
Proof. intros H. by rewrite Zpower_Qpower. Qed.

Lemma pow2_div q a : (q / 2 ^ a == q * 2 ^ (- a))%Q.
Proof. rewrite Qpower_opp. reflexivity. Qed.

(** ** The binade of a positive number *)

Lemma binade_mono q1 q2 : (q1 <= q2)%Q → binade q1 ≤ binade q2.
Proof.
  intros H. unfold binade.
  assert (Qfloor (q1 * inject_Z (2 ^ 1100)) ≤ Qfloor (q2 * inject_Z (2 ^ 1100))).
  { apply Qfloor_resp_le. apply Qmult_le_compat_r; [done|].
    change (inject_Z 0 <= inject_Z (2 ^ 1100))%Q. rewrite <- Zle_Qle. lia. }
  pose proof (Z.log2_le_mono _ _ H0). lia.
Qed.

Lemma binade_upper q : (q < 2 ^ (binade q + 1))%Q.
Proof.
  unfold binade. set (n := Qfloor (q * inject_Z (2 ^ 1100))).
  pose proof (Qfloor_spec (q * inject_Z (2 ^ 1100))) as [_ Hn]. fold n in Hn.
  assert (n + 1 ≤ 2 ^ (Z.log2 n + 1)) as Hlog.
  { destruct (Z.le_gt_cases n 0) as [Hle|Hgt].
    - rewrite (Z.log2_nonpos n Hle). simpl. lia.
    - pose proof (Z.log2_spec n Hgt). lia. }
  assert (q * inject_Z (2 ^ 1100) < inject_Z (2 ^ (Z.log2 n + 1)))%Q as Hq.
  { eapply Qlt_le_trans; [exact Hn|].
    change (inject_Z n + 1)%Q with (inject_Z n + inject_Z 1)%Q.
    rewrite <- inject_Z_plus, <- Zle_Qle. exact Hlog. }
  rewrite !pow2_Z in Hq by (pose proof (Z.log2_nonneg n); lia).
  replace (Z.log2 n - 1100 + 1) with ((Z.log2 n + 1) + - 1100) by lia.
  rewrite pow2_plus.
  assert (2 ^ 1100 * 2 ^ (- 1100) == 1)%Q as Hinv.
  { rewrite <- pow2_plus. reflexivity. }
  pose proof (pow2_pos 1100). pose proof (pow2_pos (- 1100)).
  set (a := (2 ^ 1100)%Q) in *. set (b := (2 ^ (- 1100))%Q) in *.
  set (c := (2 ^ (Z.log2 n + 1))%Q) in *.
  assert (q * a * b < c * b)%Q by (apply Qmult_lt_compat_r; done).
  assert (q * a * b == q)%Q by (rewrite <- Qmult_assoc, Hinv; ring).
  lra.
Qed.

Lemma binade_lower q : (2 ^ (- 1100) <= q)%Q → (2 ^ binade q <= q)%Q.
Proof.
  intros Hq. unfold binade. set (n := Qfloor (q * inject_Z (2 ^ 1100))).
  pose proof (Qfloor_spec (q * inject_Z (2 ^ 1100))) as [Hn _]. fold n in Hn.
  assert (2 ^ 1100 * 2 ^ (- 1100) == 1)%Q as Hinv.
  { rewrite <- pow2_plus. reflexivity. }
  pose proof (pow2_pos 1100) as Ha. pose proof (pow2_pos (- 1100)) as Hb.
  assert (1 ≤ n) as Hn1.
  { change 1 with (Qfloor 1). apply Qfloor_resp_le.
    rewrite pow2_Z by lia.
    assert (2 ^ (- 1100) * 2 ^ 1100 <= q * 2 ^ 1100)%Q
      by (apply Qmult_le_compat_r; [done|lra]).
    lra. }
  pose proof (Z.log2_spec n ltac:(lia)) as [Hlog _].
  assert (inject_Z (2 ^ Z.log2 n) <= q * inject_Z (2 ^ 1100))%Q as Hle.
  { eapply Qle_trans; [|exact Hn]. by rewrite <- Zle_Qle. }
  rewrite !pow2_Z in Hle by (pose proof (Z.log2_nonneg n); lia).
  replace (Z.log2 n - 1100) with (Z.log2 n + - 1100) by lia.
  rewrite pow2_plus.
  set (a := (2 ^ 1100)%Q) in *. set (b := (2 ^ (- 1100))%Q) in *.
  set (c := (2 ^ Z.log2 n)%Q) in *.
  assert (c * b <= q * a * b)%Q by (apply Qmult_le_compat_r; [done|lra]).
  assert (q * a * b == q)%Q by (rewrite <- Qmult_assoc, Hinv; ring).
  lra.
Qed.

Lemma binade_lower_gt q : - 1100 < binade q → (2 ^ binade q <= q)%Q.
Proof.
  intros Hk. apply binade_lower.
  unfold binade in Hk. set (n := Qfloor (q * inject_Z (2 ^ 1100))) in *.
  assert (1 ≤ n) as Hn1.
  { destruct (Z.le_gt_cases n 0) as [Hle|]; [|lia].
    rewrite (Z.log2_nonpos n Hle) in Hk. lia. }
  pose proof (Qfloor_spec (q * inject_Z (2 ^ 1100))) as [Hn _]. fold n in Hn.
  assert (1 <= q * inject_Z (2 ^ 1100))%Q as H1.
  { eapply Qle_trans; [|exact Hn]. change 1%Q with (inject_Z 1).
    by rewrite <- Zle_Qle. }
  rewrite pow2_Z in H1 by lia.
  assert (2 ^ 1100 * 2 ^ (- 1100) == 1)%Q as Hinv.
  { rewrite <- pow2_plus. reflexivity. }
  pose proof (pow2_pos 1100) as Ha. pose proof (pow2_pos (- 1100)) as Hb.
  set (a := (2 ^ 1100)%Q) in *. set (b := (2 ^ (- 1100))%Q) in *.
  assert (1 * b <= q * a * b)%Q by (apply Qmult_le_compat_r; [done|lra]).
  assert (q * a * b == q)%Q by (rewrite <- Qmult_assoc, Hinv; ring).
  lra.
Qed.

(** ** Rounding *)

Lemma roundPos_eq q :
  (roundPos q == inject_Z (rne (q / 2 ^ ulpExp q)) * 2 ^ ulpExp q)%Q.
Proof. unfold roundPos. apply Qred_correct. Qed.

Lemma roundPos_nonneg q : (0 <= q)%Q → (0 <= roundPos q)%Q.
Proof.
  intros Hq. rewrite roundPos_eq. pose proof (pow2_pos (ulpExp q)).
  apply Qmult_le_0_compat; [|lra].
  change 0%Q with (inject_Z 0). rewrite <- Zle_Qle. apply rne_ge.
  apply Qle_shift_div_l; [done|]. change (inject_Z 0) with 0%Q.
  by rewrite Qmult_0_l.
Qed.

Lemma scaled_pow2 a e : (2 ^ a / 2 ^ e == 2 ^ (a - e))%Q.
Proof. rewrite Qpower_minus by apply two_ne_0. reflexivity. Qed.

(** A rounded number is at most the next power of two, and at least the
    power of two below it when it is a normal number. *)
Lemma roundPos_upper q : (0 < q)%Q → (roundPos q <= 2 ^ (ulpExp q + 53))%Q.
Proof.
  intros Hq. rewrite roundPos_eq. set (e := ulpExp q).
  pose proof (pow2_pos e) as He.
  assert (rne (q / 2 ^ e) ≤ 2 ^ 53) as Hr.
  { apply rne_le. rewrite pow2_Z by lia. apply Qle_shift_div_r; [done|].
    rewrite <- pow2_plus. apply Qlt_le_weak.
    eapply Qlt_le_trans; [apply binade_upper|]. apply pow2_le.
    unfold e, ulpExp. lia. }
  assert (2 ^ (e + 53) == inject_Z (2 ^ 53) * 2 ^ e)%Q as ->
    by (rewrite (Z.add_comm e), pow2_plus, (pow2_Z 53) by lia; reflexivity).
  apply Qmult_le_compat_r; [|lra]. by rewrite <- Zle_Qle.
Qed.

Lemma roundPos_lower q :
  - 1074 ≤ binade q - 52 → (2 ^ binade q <= roundPos q)%Q.
Proof.
  intros Hk. rewrite roundPos_eq.
  assert (ulpExp q = binade q - 52) as -> by (unfold ulpExp; lia).
  set (e := binade q - 52). pose proof (pow2_pos e) as He.
  assert (2 ^ 52 ≤ rne (q / 2 ^ e)) as Hr.
  { apply rne_ge. rewrite pow2_Z by lia. apply Qle_shift_div_l; [done|].
    rewrite <- pow2_plus. replace (52 + e) with (binade q) by (unfold e; lia).
    apply binade_lower_gt. lia. }
  assert (2 ^ binade q == inject_Z (2 ^ 52) * 2 ^ e)%Q as ->.
  { replace (binade q) with (52 + e) by (unfold e; lia).
    rewrite pow2_plus, (pow2_Z 52) by lia. reflexivity. }
  apply Qmult_le_compat_r; [|lra]. by rewrite <- Zle_Qle.
Qed.

Lemma roundPos_mono q1 q2 : (0 < q1)%Q → (q1 <= q2)%Q → (roundPos q1 <= roundPos q2)%Q.
Proof.
  intros Hpos Hle. pose proof (binade_mono _ _ Hle) as Hk.
  destruct (decide (ulpExp q1 = ulpExp q2)) as [E|Hne].
  - rewrite !roundPos_eq, E. pose proof (pow2_pos (ulpExp q2)).
    apply Qmult_le_compat_r; [|lra]. rewrite <- Zle_Qle. apply rne_mono.
    apply Qmult_le_compat_r; [done|]. apply Qlt_le_weak, Qinv_lt_0_compat. done.
  - assert (ulpExp q1 < ulpExp q2 ∧ - 1074 ≤ binade q2 - 52
            ∧ ulpExp q1 + 53 ≤ binade q2) as (? & ? & ?)
      by (unfold ulpExp in *; lia).
    eapply Qle_trans; [apply roundPos_upper; done|].
    eapply Qle_trans; [|apply roundPos_lower; done].
    by apply pow2_le.
Qed.

Lemma Qnum_sign q :
  match Qnum q with
  | Z0 => (q == 0)%Q
  | Zpos _ => (0 < q)%Q
  | Zneg _ => (q < 0)%Q
  end.
Proof. destruct q as [[|p|p] d]; unfold Qeq, Qlt; simpl; lia. Qed.

Lemma roundDouble_nonneg q : (0 <= q)%Q → (0 <= roundDouble q)%Q.
Proof.
  intros Hq. unfold roundDouble. pose proof (Qnum_sign q) as Hs.
  destruct (Qnum q); [lra| |lra]. apply roundPos_nonneg. lra.
Qed.

Lemma roundDouble_nonpos q : (q <= 0)%Q → (roundDouble q <= 0)%Q.
Proof.
  intros Hq. unfold roundDouble. pose proof (Qnum_sign q) as Hs.
  destruct (Qnum q); [lra|lra|].
  assert (0 <= roundPos (- q))%Q by (apply roundPos_nonneg; lra). lra.
Qed.

(** Rounding is monotone. *)
Lemma roundDouble_mono q1 q2 : (q1 <= q2)%Q → (roundDouble q1 <= roundDouble q2)%Q.
Proof.
  intros Hle.
  destruct (Qlt_le_dec 0 q1) as [H1|H1].
  - unfold roundDouble. pose proof (Qnum_sign q1) as Hs1. pose proof (Qnum_sign q2) as Hs2.
    destruct (Qnum q1); [lra| |lra]. destruct (Qnum q2); [lra| |lra].
    by apply roundPos_mono.
  - destruct (Qlt_le_dec q2 0) as [H2|H2].
    + unfold roundDouble.
      pose proof (Qnum_sign q1) as Hs1. pose proof (Qnum_sign q2) as Hs2.
      destruct (Qnum q1); [lra|lra|]. destruct (Qnum q2); [lra|lra|].
      assert (roundPos (- q2) <= roundPos (- q1))%Q
        by (apply roundPos_mono; lra).
      lra.
    + pose proof (roundDouble_nonpos q1 H1). pose proof (roundDouble_nonneg q2 H2). lra.
Qed.

Lemma roundDouble_comp q1 q2 : (q1 == q2)%Q → (roundDouble q1 == roundDouble q2)%Q.
Proof. intros E. apply Qle_antisym; apply roundDouble_mono; lra. Qed.

Lemma roundDouble_pos q : (0 < q)%Q → roundDouble q = roundPos q.
Proof.
  intros Hq. unfold roundDouble. pose proof (Qnum_sign q) as Hs.
  destruct (Qnum q); [lra|done|lra].
Qed.

Lemma roundDouble_neg q : (q < 0)%Q → roundDouble q = (- roundPos (- q))%Q.
Proof.
  intros Hq. unfold roundDouble. pose proof (Qnum_sign q) as Hs.
  destruct (Qnum q); [lra|lra|done].
Qed.

Lemma Qred_idem q : Qred (Qred q) = Qred q.
Proof. apply Qred_complete, Qred_correct. Qed.

Lemma roundPos_reduced q : Qred (roundPos q) = roundPos q.
Proof. apply Qred_idem. Qed.

Lemma roundDouble_reduced q : Qred (roundDouble q) = roundDouble q.
Proof.
  unfold roundDouble. destruct (Qnum q); [done|apply roundPos_reduced|].
  by rewrite Qred_opp, roundPos_reduced.
Qed.

(** Equal numbers round to the same double, as the same fraction. *)
Lemma roundDouble_eq q1 q2 : (q1 == q2)%Q → roundDouble q1 = roundDouble q2.
Proof.
  intros E. rewrite <- (roundDouble_reduced q1), <- (roundDouble_reduced q2).
  apply Qred_complete. by apply roundDouble_comp.
Qed.

(** *** Integers up to 2^53 are doubles *)

Lemma binade_Z n : 0 < n → binade (inject_Z n) = Z.log2 n.
Proof.
  intros Hn. unfold binade. rewrite <- inject_Z_mult, Qfloor_Z.
  rewrite Z.log2_mul_pow2 by lia. lia.
Qed.

Lemma roundPos_Z n : 0 < n < 2 ^ 53 → (roundPos (inject_Z n) == inject_Z n)%Q.
Proof.
  intros Hn. rewrite roundPos_eq. unfold ulpExp. rewrite binade_Z by lia.
  assert (Z.log2 n < 53) as Hlog by (apply Z.log2_lt_pow2; lia).
  pose proof (Z.log2_nonneg n).
  rewrite Z.max_l by lia. set (e := Z.log2 n - 52).
  assert (inject_Z n / 2 ^ e == inject_Z (n * 2 ^ (- e)))%Q as E.
  { rewrite inject_Z_mult, pow2_Z by (unfold e; lia). apply pow2_div. }
  rewrite (rne_comp _ _ E), rne_Z, inject_Z_mult, pow2_Z by (unfold e; lia).
  rewrite <- Qmult_assoc, <- pow2_plus.
  replace (- e + e) with 0 by lia. simpl. ring.
Qed.

Lemma Qred_inject_Z n : Qred (inject_Z n) = inject_Z n.
Proof.
  unfold Qred, inject_Z. pose proof (Z.ggcd_gcd n 1) as Hg.
  pose proof (Z.ggcd_correct_divisors n 1) as Hd.
  destruct (Z.ggcd n 1) as [g [a b]]. simpl in *.
  rewrite Z.gcd_1_r in Hg. subst g. destruct Hd as [-> Hb].
  assert (b = 1) as -> by lia. simpl. by destruct a.
Qed.

(** The doubles include the integers of magnitude below 2^53. *)
Lemma roundDouble_Z n : - 2 ^ 53 < n < 2 ^ 53 → roundDouble (inject_Z n) = inject_Z n.
Proof.
  intros Hn.
  destruct (Z.lt_trichotomy n 0) as [Hneg|[->|Hpos]].
  - rewrite roundDouble_neg by (change 0%Q with (inject_Z 0); rewrite <- Zlt_Qlt; lia).
    rewrite <- inject_Z_opp, <- (roundPos_reduced (inject_Z (- n))).
    rewrite (Qred_complete _ _ (roundPos_Z (- n) ltac:(lia))), Qred_inject_Z.
    rewrite <- inject_Z_opp. f_equal. lia.
  - reflexivity.
  - rewrite roundDouble_pos by (change 0%Q with (inject_Z 0); rewrite <- Zlt_Qlt; lia).
    rewrite <- (roundPos_reduced (inject_Z n)).
    by rewrite (Qred_complete _ _ (roundPos_Z n ltac:(lia))), Qred_inject_Z.
Qed.

(** *** Rounding error *)

Lemma roundPos_error q :
  (- (2 ^ ulpExp q / 2) <= roundPos q - q <= 2 ^ ulpExp q / 2)%Q.
Proof.
  rewrite roundPos_eq. set (u := (2 ^ ulpExp q)%Q).
  pose proof (pow2_pos (ulpExp q)) as Hu. fold u in Hu.
  pose proof (rne_error (q / u)) as Herr.
  set (r := inject_Z (rne (q / u))) in *.
  assert (q / u * u == q)%Q as Hs by (field; lra).
  set (s := (q / u)%Q) in *.
  assert ((r - s) * u <= (1 # 2) * u)%Q by (apply Qmult_le_compat_r; lra).
  assert (- (1 # 2) * u <= (r - s) * u)%Q by (apply Qmult_le_compat_r; lra).
  assert (u / 2 == (1 # 2) * u)%Q by (field; lra).
  split; lra.
Qed.

(** A normal number is rounded with a relative error of at most 2^-53. *)
Lemma roundPos_relative q :
  - 1022 ≤ binade q →
  (- (q * 2 ^ (- 53)) <= roundPos q - q <= q * 2 ^ (- 53))%Q.
Proof.
  intros Hk. pose proof (roundPos_error q) as Herr.
  assert (ulpExp q = binade q - 52) as Ee by (unfold ulpExp; lia).
  rewrite Ee in Herr.
  assert (2 ^ (binade q - 52) / 2 == 2 ^ binade q * 2 ^ (- 53))%Q as Eu.
  { replace (binade q - 52) with (binade q + (- 53) + 1) by lia.
    rewrite !pow2_plus. change (2 ^ 1)%Q with 2%Q. field. }
  rewrite Eu in Herr.
  pose proof (binade_lower_gt q ltac:(lia)) as Hlow.
  pose proof (pow2_pos (- 53)) as Hp.
  set (a := (2 ^ binade q)%Q) in *. set (b := (2 ^ (- 53))%Q) in *.
  assert (a * b <= q * b)%Q by (apply Qmult_le_compat_r; [done|lra]).
  lra.
Qed.

(** ** Frame sequencer *)

(** *** The traversal enumerates [0, rows*cols) in ascending order *)

Lemma bind_singleton_fmap {A B} (f : A → B) (l : list A) :
  (x ← l; [f x]) = f <$> l.
Proof. induction l as [|a l IH]; [done|]. by rewrite bind_cons, IH. Qed.

Lemma inner_indices (o inner : Z) :
  (λ i, o * inner + i) <$> seqZ 0 inner = seqZ (o * Z.max 0 inner) (Z.max 0 inner).
Proof.
  destruct (Z.le_gt_cases inner 0) as [Hi|Hi].
  - rewrite Z.max_l by lia. by rewrite !seqZ_nil by lia.
  - rewrite Z.max_r by lia.
    change (λ i, o * inner + i) with (Z.add (o * inner)).
    rewrite fmap_add_seqZ. f_equal. lia.
Qed.

Lemma nested_indices (outer inner : Z) :
  (o ← seqZ 0 outer; (λ i, o * inner + i) <$> seqZ 0 inner)
  = seqZ 0 (Z.max 0 outer * Z.max 0 inner).
Proof.
  destruct (Z.le_gt_cases outer 0) as [Ho|Ho].
  { rewrite (seqZ_nil 0 outer) by lia. rewrite Z.max_l by lia. reflexivity. }
  rewrite (Z.max_r 0 outer) by lia.
  rewrite <- (Z2Nat.id outer) by lia.
  induction (Z.to_nat outer) as [|n IH]; [reflexivity|].
  rewrite seqZ_S, bind_app, IH, bind_singleton, inner_indices.
  replace (Z.of_nat (S n) * Z.max 0 inner)
    with (Z.of_nat n * Z.max 0 inner + Z.max 0 inner) by lia.
  rewrite seqZ_app by lia. do 2 f_equal.
Qed.

Lemma fmap_bind_list {A B C} (f : B → C) (g : A → list B) (l : list A) :
  f <$> (l ≫= g) = l ≫= (λ x, f <$> g x).
Proof.
  induction l as [|a l IH]; [done|].
  by rewrite !bind_cons, fmap_app, IH.
Qed.

Lemma tempCoords_indices order rows cols :
  t_index <$> tempCoords order rows cols = seqZ 0 (Z.max 0 rows * Z.max 0 cols).
Proof.
  destruct order; simpl.
  - rewrite <- nested_indices, fmap_bind_list.
    apply list_bind_ext; [|done]. intros r.
    by rewrite bind_singleton_fmap, <- list_fmap_compose.
  - rewrite (Z.mul_comm (Z.max 0 rows)), <- nested_indices, fmap_bind_list.
    apply list_bind_ext; [|done]. intros c.
    by rewrite bind_singleton_fmap, <- list_fmap_compose.
Qed.

Lemma validFrameCoordinates_indices cfg :
  originalIndex <$> validFrameCoordinates cfg
  = filter (λ i, keepIndex (totalFrames cfg) (excludedFrames cfg) i = true)
           (seqZ 0 (Z.max 0 (rows cfg) * Z.max 0 (cols cfg))).
Proof.
  unfold validFrameCoordinates.
  rewrite <- (tempCoords_indices (readOrder cfg)), <- list_fmap_compose.
  induction (tempCoords _ _ _) as [|t l IH]; [done|].
  rewrite fmap_cons, !filter_cons. simpl.
  destruct (decide _); simpl; by f_equal.
Qed.

Lemma filter_bind_list {A B} (P : B → Prop) `{∀ x, Decision (P x)}
    (g : A → list B) (l : list A) :
  filter P (l ≫= g) = l ≫= (λ x, filter P (g x)).
Proof.
  induction l as [|a l IH]; [done|].
  by rewrite !bind_cons, filter_app, IH.
Qed.

Lemma bind_if_filter {A} (p : Z → bool) (f : A → Z) (l : list A) :
  (x ← l; if p (f x) then [f x] else []) = filter (λ i, p i = true) (f <$> l).
Proof.
  induction l as [|a l IH]; [done|].
  rewrite bind_cons, IH, fmap_cons, filter_cons.
  destruct (p (f a)) eqn:Hp; destruct (decide _); simpl; congruence.
Qed.

Lemma getValidFrameIndices_indices cfg :
  getValidFrameIndices cfg
  = filter (λ i, keepIndex (totalFrames cfg) (excludedFrames cfg) i = true)
           (seqZ 0 (Z.max 0 (rows cfg) * Z.max 0 (cols cfg))).
Proof.
  unfold getValidFrameIndices. destruct (readOrder cfg).
  - rewrite <- nested_indices, filter_bind_list.
    apply list_bind_ext; [|done]. intros r.
    apply (bind_if_filter (keepIndex _ _) (λ c, r * cols cfg + c)).
  - rewrite (Z.mul_comm (Z.max 0 (rows cfg))), <- nested_indices, filter_bind_list.
    apply list_bind_ext; [|done]. intros c.
    apply (bind_if_filter (keepIndex _ _) (λ r, c * rows cfg + r)).
Qed.

(** Both sequencers emit the same indices in the same order. *)
Lemma preview_export_agree cfg :
  getValidFrameIndices cfg = originalIndex <$> validFrameCoordinates cfg.
Proof. by rewrite getValidFrameIndices_indices, validFrameCoordinates_indices. Qed.

Lemma StronglySorted_seqZ m n : StronglySorted Z.lt (seqZ m n).
Proof.
  destruct (Z.le_gt_cases n 0) as [Hn|Hn]; [rewrite seqZ_nil by lia; constructor|].
  rewrite <- (Z2Nat.id n) by lia. clear Hn.
  induction (Z.to_nat n) as [|k IH]; [constructor|].
  rewrite seqZ_S. apply StronglySorted_app; split_and!; [|done|repeat constructor].
  intros x y Hx Hy. apply elem_of_seqZ in Hx. apply list_elem_of_singleton in Hy. lia.
Qed.

Lemma StronglySorted_filter_lt (P : Z → Prop) `{∀ x, Decision (P x)} (l : list Z) :
  StronglySorted Z.lt l → StronglySorted Z.lt (filter P l).
Proof.
  induction 1 as [|x l Hs IH Hall]; [constructor|].
  rewrite filter_cons. destruct (decide (P x)); [|done].
  constructor; [done|]. rewrite Forall_forall in Hall |- *.
  intros y [_ Hy]%list_elem_of_filter. auto.
Qed.

(** ** The frame sequencer *)

Example rowMajor_2x3 :
  validFrameCoordinates (gridConfig RowMajor 2 3 6 [])
  = [ {| f_r := 0; f_c := 0; originalIndex := 0 |};
      {| f_r := 0; f_c := 1; originalIndex := 1 |};
      {| f_r := 0; f_c := 2; originalIndex := 2 |};
      {| f_r := 1; f_c := 0; originalIndex := 3 |};
      {| f_r := 1; f_c := 1; originalIndex := 4 |};
      {| f_r := 1; f_c := 2; originalIndex := 5 |} ].
Proof. reflexivity. Qed.

Example exclude_2_of_2x2 :
  originalIndex <$> validFrameCoordinates (gridConfig RowMajor 2 2 4 [2]) = [0; 1; 3].
Proof. reflexivity. Qed.

(** Every emitted frame carries the index its traversal assigns to its cell,
    and its cell lies in the grid. *)
Lemma validFrameCoordinates_formula cfg f :
  f ∈ validFrameCoordinates cfg →
  0 ≤ f_r f < rows cfg ∧ 0 ≤ f_c f < cols cfg ∧
  originalIndex f =
    match readOrder cfg with
    | RowMajor => f_r f * cols cfg + f_c f
    | ColumnMajor => f_c f * rows cfg + f_r f
    end.
Proof.
  unfold validFrameCoordinates. intros (t & -> & Ht)%list_elem_of_fmap.
  apply list_elem_of_filter in Ht as [_ Ht]. simpl.
  unfold tempCoords in Ht. destruct (readOrder cfg).
  - apply list_elem_of_bind in Ht as (r & Ht & Hr%elem_of_seqZ).
    apply list_elem_of_bind in Ht as (c & Ht & Hc%elem_of_seqZ).
    apply list_elem_of_singleton in Ht as ->. simpl. lia.
  - apply list_elem_of_bind in Ht as (c & Ht & Hc%elem_of_seqZ).
    apply list_elem_of_bind in Ht as (r & Ht & Hr%elem_of_seqZ).
    apply list_elem_of_singleton in Ht as ->. simpl. lia.
Qed.

Lemma filter_all {A} (P : A → Prop) `{∀ x, Decision (P x)} (l : list A) :
  Forall P l → filter P l = l.
Proof.
  induction 1 as [|x l Hx Hl IH]; [done|].
  by rewrite filter_cons, decide_True, IH.
Qed.

Lemma filter_none {A} (P : A → Prop) `{∀ x, Decision (P x)} (l : list A) :
  Forall (λ x, ¬ P x) l → filter P l = [].
Proof.
  induction 1 as [|x l Hx Hl IH]; [done|].
  by rewrite filter_cons, decide_False.
Qed.

Lemma keepIndex_true tf excl i :
  keepIndex tf excl i = true ↔ i < tf ∧ i ∉ excl.
Proof.
  unfold keepIndex. rewrite andb_true_iff, Z.ltb_lt, negb_true_iff, bool_decide_eq_false.
  done.
Qed.

(** With nothing excluded and no cutoff below the grid size, both traversals
    emit 0, 1, ..., rows*cols - 1. *)
Lemma full_grid_indices cfg :
  0 < rows cfg → 0 < cols cfg → excludedFrames cfg = [] →
  rows cfg * cols cfg ≤ totalFrames cfg →
  originalIndex <$> validFrameCoordinates cfg = seqZ 0 (rows cfg * cols cfg).
Proof.
  intros Hr Hc He Ht. rewrite validFrameCoordinates_indices, He, !Z.max_r by lia.
  apply filter_all, Forall_seqZ. intros i Hi.
  apply keepIndex_true. split; [lia|]. apply not_elem_of_nil.
Qed.

(** *** The number of emitted frames *)

Lemma filter_ext_in {A} (P1 P2 : A → Prop)
    `{∀ x, Decision (P1 x)} `{∀ x, Decision (P2 x)} (l : list A) :
  Forall (λ x, P1 x ↔ P2 x) l → filter P1 l = filter P2 l.
Proof.
  induction 1 as [|x l Hx Hl IH]; [done|].
  rewrite !filter_cons, IH.
  destruct (decide (P1 x)), (decide (P2 x)); tauto.
Qed.

Lemma emitted_below_cutoff cfg :
  0 ≤ totalFrames cfg ≤ Z.max 0 (rows cfg) * Z.max 0 (cols cfg) →
  originalIndex <$> validFrameCoordinates cfg
  = filter (λ i, i ∉ excludedFrames cfg) (seqZ 0 (totalFrames cfg)).
Proof.
  intros Ht. rewrite validFrameCoordinates_indices.
  replace (Z.max 0 (rows cfg) * Z.max 0 (cols cfg))
    with (totalFrames cfg + (Z.max 0 (rows cfg) * Z.max 0 (cols cfg) - totalFrames cfg))
    by lia.
  rewrite seqZ_app, filter_app by lia.
  rewrite (filter_none _ (seqZ (0 + _) _)), app_nil_r.
  - apply filter_ext_in, Forall_seqZ. intros i Hi.
    rewrite keepIndex_true. intuition lia.
  - apply Forall_seqZ. intros i Hi. rewrite keepIndex_true. lia.
Qed.

Lemma excluded_seen_once cfg :
  filter (λ i, i ∈ excludedFrames cfg) (seqZ 0 (totalFrames cfg)) ≡ₚ excludedInRange cfg.
Proof.
  apply NoDup_Permutation.
  - apply NoDup_filter, NoDup_seqZ.
  - apply NoDup_remove_dups.
  - intros i. unfold excludedInRange.
    rewrite elem_of_remove_dups, !list_elem_of_filter, elem_of_seqZ. intuition lia.
Qed.

(** The emitted frames and the distinct excluded indices below the cutoff
    partition [0, totalFrames). *)
Lemma emitted_count cfg :
  0 ≤ totalFrames cfg ≤ Z.max 0 (rows cfg) * Z.max 0 (cols cfg) →
  (length (validFrameCoordinates cfg) + length (excludedInRange cfg))%nat
  = Z.to_nat (totalFrames cfg).
Proof.
  intros Ht.
  rewrite <- (length_fmap originalIndex), emitted_below_cutoff by done.
  rewrite <- (excluded_seen_once cfg), <- length_app.
  rewrite <- (length_seqZ 0 (totalFrames cfg)).
  apply Permutation_length.
  rewrite (comm app).
  etrans; [|apply (filter_app_complement (λ i, i ∈ excludedFrames cfg))].
  done.
Qed.

(** *** Emission order *)

Lemma emitted_sorted cfg :
  StronglySorted Z.lt (originalIndex <$> validFrameCoordinates cfg).
Proof.
  rewrite validFrameCoordinates_indices.
  apply StronglySorted_filter_lt, StronglySorted_seqZ.
Qed.

(** ** The export pipeline *)




(** *** Calls the platform refuses *)















(** *** Frames submitted to the encoder *)








(** *** The auto-align pass records one box per sequenced frame *)

Lemma analysis_fold_other env cfg geo ks frames a0 k :
  k ∉ originalIndex <$> frames →
  frameBBoxes (foldl (analyseFrame env cfg geo ks) a0 frames) !! k = frameBBoxes a0 !! k.
Proof.
  revert a0. induction frames as [|g gs IH]; intros a0 Hk; [done|].
  rewrite fmap_cons, not_elem_of_cons in Hk. destruct Hk as [Hg Hgs].
  simpl. rewrite IH by done. simpl. by rewrite lookup_insert_ne.
Qed.

Lemma analysis_fold_lookup env cfg geo ks frames a0 f :
  NoDup (originalIndex <$> frames) → f ∈ frames →
  frameBBoxes (foldl (analyseFrame env cfg geo ks) a0 frames) !! originalIndex f
  = Some (frameBBox env cfg geo ks f).
Proof.
  revert a0. induction frames as [|g gs IH]; intros a0 Hnd Hf; [by inv Hf|].
  rewrite fmap_cons, NoDup_cons in Hnd. destruct Hnd as [Hg Hgs].
  simpl. apply elem_of_cons in Hf as [->|Hf].
  - rewrite analysis_fold_other by done. simpl. by rewrite lookup_insert_eq.
  - by apply IH.
Qed.

Lemma emitted_NoDup cfg : NoDup (originalIndex <$> validFrameCoordinates cfg).
Proof.
  rewrite validFrameCoordinates_indices. apply NoDup_filter, NoDup_seqZ.
Qed.

(** What [frameBBoxes.get(originalIndex)] yields in the render loop. *)
Lemma frameBBoxes_get env cfg geo ks f :
  f ∈ validFrameCoordinates cfg →
  frameBBoxes (analysis env cfg geo ks (validFrameCoordinates cfg)) !! originalIndex f
  = if autoAlign cfg && analysisCtx env then Some (frameBBox env cfg geo ks f) else None.
Proof.
  intros Hf. unfold analysis. destruct (autoAlign cfg && analysisCtx env); [|done].
  apply analysis_fold_lookup; [apply emitted_NoDup|done].
Qed.


Lemma renderFrame_no_align cfg geo ks a rc f :
  autoAlign cfg = false →
  renderFrame cfg geo ks a rc f
  = [ ClearRect BufferCanvas (inject_Z (rc_logicalWidth rc))
                (inject_Z (rc_logicalHeight rc)) ]
    ++ (if hasTransparent cfg then []
        else [ FillWhite BufferCanvas (inject_Z (rc_logicalWidth rc))
                         (inject_Z (rc_logicalHeight rc)) ])
    ++ [ drawFullCell cfg geo rc f ]
    ++ keyAndEmit cfg ks rc.
Proof.
  intros Ha. unfold renderFrame, keyAndEmit, drawFullCell. rewrite Ha.
  reflexivity.
Qed.


Lemma keyAndEmit_submits_one cfg ks rc :
  framesSubmitted (keyAndEmit cfg ks rc) = 1%nat.
Proof.
  unfold keyAndEmit.
  destruct (transparentRGB ks), (keyColor ks), (rc_resized rc), (hasTransparent cfg);
    reflexivity.
Qed.

(** ** Typed arrays *)

Lemma aget_Some_range (a : list Z) i v : aget a i = Some v → 0 ≤ i < Z.of_nat (length a).
Proof.
  unfold aget. destruct (Z.leb_spec 0 i) as [Hi|Hi]; [|done].
  intros Hl%lookup_lt_Some. lia.
Qed.

Lemma aget_in_range (a : list Z) i : 0 ≤ i < Z.of_nat (length a) → is_Some (aget a i).
Proof.
  intros H. unfold aget. destruct (Z.leb_spec 0 i); [|lia].
  apply lookup_lt_is_Some. lia.
Qed.

Lemma aget_None_range (a : list Z) i : aget a i = None → i < 0 ∨ Z.of_nat (length a) ≤ i.
Proof.
  intros H. destruct (decide (0 ≤ i < Z.of_nat (length a))) as [Hi|Hi]; [|lia].
  apply aget_in_range in Hi as [v Hv]. congruence.
Qed.

Lemma length_aset a i v : length (aset a i v) = length a.
Proof. unfold aset. destruct (0 <=? i); [apply length_insert|done]. Qed.

Lemma aget_aset_eq a i v : 0 ≤ i < Z.of_nat (length a) → aget (aset a i v) i = Some v.
Proof.
  intros H. unfold aget, aset. destruct (Z.leb_spec 0 i); [|lia].
  apply list_lookup_insert_eq. lia.
Qed.

Lemma aget_aset_ne a i j v : i ≠ j → aget (aset a i v) j = aget a j.
Proof.
  intros H. unfold aget, aset.
  destruct (Z.leb_spec 0 i), (Z.leb_spec 0 j); try done.
  apply list_lookup_insert_ne. lia.
Qed.

(** ** Bounding-box analyzer *)

(** [isContent] on a pixel whose four bytes lie in the bitmap. *)
Lemma isContent_bytes data transparentRGB thresholdSq idx r g b a :
  aget data idx = Some r → aget data (idx + 1) = Some g →
  aget data (idx + 2) = Some b → aget data (idx + 3) = Some a →
  isContent data transparentRGB thresholdSq idx = true
  ↔ a ≠ 0 ∧ match transparentRGB with
            | Some t => (thresholdSq < inject_Z (distSq r g b t))%Q
            | None => True
            end.
Proof.
  intros Hr Hg Hb Ha. unfold isContent. rewrite Ha, Hr, Hg, Hb.
  assert (∀ t, negb (Qle_bool (inject_Z (distSq r g b t)) thresholdSq) = true
               ↔ (thresholdSq < inject_Z (distSq r g b t))%Q) as Hlt.
  { intros t. rewrite negb_true_iff, <- not_true_iff_false, Qle_bool_iff.
    split; [apply Qnot_le_lt|apply Qlt_not_le]. }
  destruct a as [|a|a]; [split; [done|by intros [[] _]]|..];
    (destruct transparentRGB as [t|]; [rewrite Hlt|]; intuition done).
Qed.

Section Analyzer.
Variable data : list Z.
Variables width height : Z.
Variable transparentRGB : option RGB.
Variable thresholdSq : Q.

Let content := contentAt data width height transparentRGB thresholdSq.

Lemma ScanInv_ext seen seen' s :
  (∀ x y, seen x y ↔ seen' x y) →
  ScanInv content seen width height s → ScanInv content seen' width height s.
Proof.
  intros E [Hb H1 H2 H3 H4 Hi]. split; try done.
  - intros x y Hs. apply Hb. by apply E.
  - intros Hf. destruct (H1 Hf) as (y & Hs & Hc). exists y. split; [by apply E|done].
  - intros Hf. destruct (H2 Hf) as (y & Hs & Hc). exists y. split; [by apply E|done].
  - intros Hf. destruct (H3 Hf) as (x & Hs & Hc). exists x. split; [by apply E|done].
  - intros Hf. destruct (H4 Hf) as (x & Hs & Hc). exists x. split; [by apply E|done].
Qed.

Lemma scanPixel_inv seen s x y :
  0 ≤ x < width → 0 ≤ y < height →
  ScanInv content seen width height s →
  ScanInv content (λ x' y', seen x' y' ∨ (x' = x ∧ y' = y)) width height
          (scanPixel data width transparentRGB thresholdSq y s x).
Proof.
  intros Hx Hy [Hb H1 H2 H3 H4 Hi]. unfold scanPixel.
  destruct (isContent data transparentRGB thresholdSq ((y * width + x) * 4)) eqn:Hc.
  - assert (content x y) as Hcxy by (unfold content, contentAt; auto).
    destruct (s_found s) eqn:Hf.
    + specialize (H1 eq_refl). specialize (H2 eq_refl).
      specialize (H3 eq_refl). specialize (H4 eq_refl). clear Hi.
      split; cbn [s_found s_minX s_maxX s_minY s_maxY].
      * intros x' y' [Hs|[-> ->]] Hc'.
        -- destruct (Hb x' y' Hs Hc') as (_ & ? & ?). split; [done|].
           destruct (Z.ltb_spec x (s_minX s)), (Z.ltb_spec (s_maxX s) x),
             (Z.ltb_spec y (s_minY s)), (Z.ltb_spec (s_maxY s) y); lia.
        -- split; [done|].
           destruct (Z.ltb_spec x (s_minX s)), (Z.ltb_spec (s_maxX s) x),
             (Z.ltb_spec y (s_minY s)), (Z.ltb_spec (s_maxY s) y); lia.
      * intros _. destruct (Z.ltb_spec x (s_minX s)); [by eauto 6|].
        destruct H1 as (y1 & ? & ?). eauto.
      * intros _. destruct (Z.ltb_spec (s_maxX s) x); [by eauto 6|].
        destruct H2 as (y1 & ? & ?). eauto.
      * intros _. destruct (Z.ltb_spec y (s_minY s)); [by eauto 6|].
        destruct H3 as (x1 & ? & ?). eauto.
      * intros _. destruct (Z.ltb_spec (s_maxY s) y); [by eauto 6|].
        destruct H4 as (x1 & ? & ?). eauto.
      * done.
    + destruct (Hi eq_refl) as (-> & -> & -> & ->).
      assert (∀ x' y', seen x' y' → content x' y' → False) as Hnone.
      { intros x' y' Hs Hc'. by destruct (Hb x' y' Hs Hc') as (? & _). }
      split; cbn [s_found s_minX s_maxX s_minY s_maxY].
      * intros x' y' [Hs|[-> ->]] Hc'; [by destruct (Hnone x' y')|].
        split; [done|].
        destruct (Z.ltb_spec x width), (Z.ltb_spec 0 x),
          (Z.ltb_spec y height), (Z.ltb_spec 0 y); lia.
      * intros _. destruct (Z.ltb_spec x width); [by eauto 6|lia].
      * intros _. destruct (Z.ltb_spec 0 x); [by eauto 6|].
        replace 0 with x by lia. eauto 6.
      * intros _. destruct (Z.ltb_spec y height); [by eauto 6|lia].
      * intros _. destruct (Z.ltb_spec 0 y); [by eauto 6|].
        replace 0 with y by lia. eauto 6.
      * done.
  - split; try done.
    + intros x' y' [Hs|[-> ->]] Hc'; [by apply Hb|].
      destruct Hc' as (_ & _ & Hc'). congruence.
    + intros Hf. destruct (H1 Hf) as (y1 & ? & ?). eauto.
    + intros Hf. destruct (H2 Hf) as (y1 & ? & ?). eauto.
    + intros Hf. destruct (H3 Hf) as (x1 & ? & ?). eauto.
    + intros Hf. destruct (H4 Hf) as (x1 & ? & ?). eauto.
Qed.

Lemma scan_pixels_inv seen s y (l : list Z) :
  0 ≤ y < height → Forall (λ x, 0 ≤ x < width) l →
  ScanInv content seen width height s →
  ScanInv content (λ x' y', seen x' y' ∨ (x' ∈ l ∧ y' = y)) width height
          (foldl (scanPixel data width transparentRGB thresholdSq y) s l).
Proof.
  intros Hy Hl. revert seen s.
  induction Hl as [|x l Hx Hl IH]; intros seen s Hs.
  - eapply ScanInv_ext; [|exact Hs]. intros x' y'.
    rewrite elem_of_nil. tauto.
  - simpl. eapply ScanInv_ext; [|apply IH, scanPixel_inv; [done..|exact Hs]].
    intros x' y'. simpl. rewrite elem_of_cons. tauto.
Qed.

Lemma scanRow_inv seen s y :
  0 ≤ y < height →
  ScanInv content seen width height s →
  ScanInv content (λ x' y', seen x' y' ∨ (0 ≤ x' < width ∧ y' = y)) width height
          (scanRow data width transparentRGB thresholdSq s y).
Proof.
  intros Hy Hs. unfold scanRow.
  eapply ScanInv_ext; [|apply scan_pixels_inv; [done| |exact Hs]].
  - intros x' y'. simpl. rewrite elem_of_seqZ. intuition lia.
  - apply Forall_seqZ. lia.
Qed.

Lemma scan_rows_inv seen s (l : list Z) :
  Forall (λ y, 0 ≤ y < height) l →
  ScanInv content seen width height s →
  ScanInv content (λ x' y', seen x' y' ∨ (0 ≤ x' < width ∧ y' ∈ l)) width height
          (foldl (scanRow data width transparentRGB thresholdSq) s l).
Proof.
  intros Hl. revert seen s.
  induction Hl as [|y l Hy Hl IH]; intros seen s Hs.
  - eapply ScanInv_ext; [|exact Hs]. intros x' y'.
    rewrite elem_of_nil. tauto.
  - simpl. eapply ScanInv_ext; [|apply IH, scanRow_inv; [done|exact Hs]].
    intros x' y'. simpl. rewrite elem_of_cons. intuition (subst; auto).
Qed.

(** The state the scan ends in has seen every pixel of the bitmap. *)
Lemma scan_complete :
  ScanInv content (λ x y, 0 ≤ x < width ∧ 0 ≤ y < height) width height
    (foldl (scanRow data width transparentRGB thresholdSq)
           {| s_minX := width; s_minY := height; s_maxX := 0; s_maxY := 0;
              s_found := false |}
           (seqZ 0 height)).
Proof.
  eapply ScanInv_ext; [|apply (scan_rows_inv (λ _ _, False))].
  - intros x y. simpl. rewrite elem_of_seqZ. intuition lia.
  - apply Forall_seqZ. lia.
  - split; simpl; try done.
Qed.

Lemma getContentBoundingBox_None :
  getContentBoundingBox data width height transparentRGB thresholdSq = None
  ↔ ∀ x y, ¬ content x y.
Proof.
  pose proof scan_complete as [Hb H1 _ _ _ _]. unfold getContentBoundingBox.
  set (s := foldl _ _ _) in *. cbv zeta. destruct (s_found s) eqn:Hf.
  - split; [done|]. intros Hnone. destruct (H1 eq_refl) as (y & _ & Hc).
    by destruct (Hnone _ _ Hc).
  - split; [|done]. intros _ x y Hc.
    destruct (Hb x y) as (Hf' & _); [by destruct Hc as (? & ? & _)|done|].
    congruence.
Qed.

Lemma getContentBoundingBox_Some b :
  getContentBoundingBox data width height transparentRGB thresholdSq = Some b →
  (∀ x y, content x y → minX b ≤ x ≤ maxX b ∧ minY b ≤ y ≤ maxY b)
  ∧ (∃ y, content (minX b) y) ∧ (∃ y, content (maxX b) y)
  ∧ (∃ x, content x (minY b)) ∧ (∃ x, content x (maxY b))
  ∧ bb_width b = maxX b - minX b + 1
  ∧ bb_height b = maxY b - minY b + 1.
Proof.
  pose proof scan_complete as [Hb H1 H2 H3 H4 _]. unfold getContentBoundingBox.
  set (s := foldl _ _ _) in *. cbv zeta. destruct (s_found s) eqn:Hf; [|done].
  intros [= <-]. cbn [minX minY maxX maxY bb_width bb_height]. split_and!; try done.
  - intros x y Hc. destruct (Hb x y) as (_ & ? & ?); [by destruct Hc as (? & ? & _)|done|].
    done.
  - destruct (H1 eq_refl) as (y & _ & Hc). eauto.
  - destruct (H2 eq_refl) as (y & _ & Hc). eauto.
  - destruct (H3 eq_refl) as (x & _ & Hc). eauto.
  - destruct (H4 eq_refl) as (x & _ & Hc). eauto.
Qed.

(** A single content pixel is its own box. *)
Lemma getContentBoundingBox_single x0 y0 :
  (∀ x y, content x y ↔ x = x0 ∧ y = y0) →
  getContentBoundingBox data width height transparentRGB thresholdSq
  = Some {| minX := x0; minY := y0; maxX := x0; maxY := y0;
            bb_width := 1; bb_height := 1 |}.
Proof.
  intros Hc.
  destruct (getContentBoundingBox data width height transparentRGB thresholdSq)
    as [b|] eqn:E.
  - destruct (getContentBoundingBox_Some b E)
      as (_ & (y1 & H1) & (y2 & H2) & (x3 & H3) & (x4 & H4) & Hw & Hh).
    apply Hc in H1 as [H1 _]. apply Hc in H2 as [H2 _].
    apply Hc in H3 as [_ H3]. apply Hc in H4 as [_ H4].
    destruct b as [a1 a2 a3 a4 a5 a6]. simpl in *. subst. f_equal; f_equal; lia.
  - destruct getContentBoundingBox_None as [Hn _].
    destruct (Hn E x0 y0). by apply Hc.
Qed.

End Analyzer.

Lemma background_not_content data w h tRGB t x y :
  backgroundPixel tRGB t (pixelAt data (y * w + x)) → ¬ contentAt data w h tRGB t x y.
Proof.
  intros (r & g & b & a & [= Hr Hg Hb Ha] & Hbg) (_ & _ & Hc).
  apply (isContent_bytes data tRGB t _ r g b a) in Hc as [Hnz Hfar]; try done.
  destruct Hbg as [->|(tg & -> & Hle)]; [done|].
  by apply Qlt_not_le in Hfar.
Qed.

Lemma foreground_content data w h tRGB t x y :
  0 ≤ x < w → 0 ≤ y < h →
  foregroundPixel tRGB t (pixelAt data (y * w + x)) → contentAt data w h tRGB t x y.
Proof.
  intros Hx Hy (r & g & b & a & [= Hr Hg Hb Ha] & Hnz & Hfar).
  split; [done|]. split; [done|].
  by apply (isContent_bytes data tRGB t _ r g b a).
Qed.

(** C6.  On a bitmap all of whose pixels are background the analyzer
    returns none; on one whose only content is a fully opaque foreground
    pixel at (5,5) it returns minX = 5, minY = 5, width = 1, height = 1.  In
    general it returns none exactly when there is no content pixel, and
    otherwise the tightest rectangle around the content pixels: all of them
    lie inside it and each of its four sides holds one. *)
Theorem bounding_box_analyzer data w h tRGB t :
  let content := contentAt data w h tRGB t in
  let box := getContentBoundingBox data w h tRGB t in
  ((∀ x y, 0 ≤ x < w → 0 ≤ y < h →
           backgroundPixel tRGB t (pixelAt data (y * w + x))) →
   box = None)
  ∧ (5 < w → 5 < h →
     (∃ r g b, pixelAt data (5 * w + 5) = [Some r; Some g; Some b; Some 255]
               ∧ foregroundPixel tRGB t (pixelAt data (5 * w + 5))) →
     (∀ x y, 0 ≤ x < w → 0 ≤ y < h → (x, y) ≠ (5, 5) →
             backgroundPixel tRGB t (pixelAt data (y * w + x))) →
     box = Some {| minX := 5; minY := 5; maxX := 5; maxY := 5;
                   bb_width := 1; bb_height := 1 |})
  ∧ (box = None ↔ ∀ x y, ¬ content x y)
  ∧ (∀ b, box = Some b →
       (∀ x y, content x y → minX b ≤ x ≤ maxX b ∧ minY b ≤ y ≤ maxY b)
       ∧ (∃ y, content (minX b) y) ∧ (∃ y, content (maxX b) y)
       ∧ (∃ x, content x (minY b)) ∧ (∃ x, content x (maxY b))
       ∧ bb_width b = maxX b - minX b + 1
       ∧ bb_height b = maxY b - minY b + 1).
Proof.
  intros content box. split_and!.
  - intros Hbg. apply getContentBoundingBox_None. intros x y Hc.
    destruct (Hc) as (Hx & Hy & _).
    by apply (background_not_content data w h tRGB t x y (Hbg x y Hx Hy)).
  - intros Hw Hh (r & g & b & _ & Hfg) Hbg.
    apply getContentBoundingBox_single. intros x y. split.
    + intros Hc. destruct (decide ((x, y) = (5, 5))) as [[= -> ->]|Hne]; [done|].
      destruct (Hc) as (Hx & Hy & _).
      destruct (background_not_content data w h tRGB t x y (Hbg x y Hx Hy Hne) Hc).
    + intros [-> ->]. apply foreground_content; [lia..|done].
  - apply getContentBoundingBox_None.
  - apply getContentBoundingBox_Some.
Qed.

Lemma bounding_box_analyzer_witness :
  getContentBoundingBox onePixelBitmap 6 6 None 0
  = Some {| minX := 5; minY := 5; maxX := 5; maxY := 5; bb_width := 1; bb_height := 1 |}.
Proof.
  destruct (bounding_box_analyzer onePixelBitmap 6 6 None 0) as (_ & H & _).
  apply H; [lia | lia | |].
  - exists 200, 30, 30. split; [reflexivity|].
    exists 200, 30, 30, 255. split; [reflexivity|]. split; [lia|exact I].
  - intros x y Hx Hy Hne.
    assert (∀ p, 0 ≤ p < 35 → pixelAt onePixelBitmap p = [Some 0; Some 0; Some 0; Some 0])
      as Hzero.
    { intros p Hp.
      assert (Forall (λ p, pixelAt onePixelBitmap p = [Some 0; Some 0; Some 0; Some 0])
                (seqZ 0 35)) as Hall by (vm_compute; repeat constructor).
      rewrite Forall_seqZ in Hall. apply Hall. lia. }
    exists 0, 0, 0, 0. split; [|by left]. apply Hzero.
    assert (¬ (x = 5 ∧ y = 5)) by (intros [-> ->]; done). lia.
Defined.

(** ** The analyzer on a fractional size *)

Lemma foldl_ext_in {A B} (f g : A → B → A) (l : list B) :
  (∀ a x, x ∈ l → f a x = g a x) → ∀ a, foldl f a l = foldl g a l.
Proof.
  induction l as [|x l IH]; intros E a; simpl; [done|].
  rewrite E by (by left). apply IH. intros a' x' Hx'. apply E. by right.
Qed.

Lemma scanPixelD_bounds data W tRGB t cw ch x y s :
  0 ≤ x < cw → 0 ≤ y < ch →
  ScanBounds cw ch s → ScanBounds cw ch (scanPixelD data W tRGB t y s x).
Proof.
  intros Hx Hy Hs. unfold scanPixelD.
  destruct (isContentD data tRGB t (pixelIndexD W x y)); [|done].
  unfold ScanBounds in *. cbn [s_found s_minX s_minY s_maxX s_maxY].
  destruct (s_found s);
    destruct (Z.ltb_spec x (s_minX s)), (Z.ltb_spec (s_maxX s) x),
             (Z.ltb_spec y (s_minY s)), (Z.ltb_spec (s_maxY s) y); lia.
Qed.

Lemma scanRowD_bounds data W tRGB t cw ch y xs :
  0 ≤ y < ch → Forall (λ x, 0 ≤ x < cw) xs →
  ∀ s, ScanBounds cw ch s →
       ScanBounds cw ch (foldl (scanPixelD data W tRGB t y) s xs).
Proof.
  intros Hy. induction xs as [|x xs IH]; intros Hxs s Hs; [done|].
  apply Forall_cons in Hxs as [Hx Hxs]. simpl. apply IH; [done|].
  by apply scanPixelD_bounds.
Qed.

Lemma scanD_bounds data W tRGB t cw ch ys :
  Forall (λ y, 0 ≤ y < ch) ys →
  ∀ s, ScanBounds cw ch s →
       ScanBounds cw ch
         (foldl (λ s y, foldl (scanPixelD data W tRGB t y) s (seqZ 0 cw)) s ys).
Proof.
  induction ys as [|y ys IH]; intros Hys s Hs; [done|].
  apply Forall_cons in Hys as [Hy Hys]. simpl. apply IH; [done|].
  apply scanRowD_bounds; [done| |done]. apply Forall_seqZ. lia.
Qed.

(** A box found on a fractional size lies within the columns and rows
    scanned, and is at least one pixel wide and high. *)
Lemma getContentBoundingBoxD_bounds data W H tRGB t b :
  getContentBoundingBoxD data W H tRGB t = Some b →
  0 ≤ minX b ≤ maxX b ∧ maxX b < Qceiling W
  ∧ 0 ≤ minY b ≤ maxY b ∧ maxY b < Qceiling H
  ∧ 1 ≤ bb_width b ≤ Qceiling W ∧ 1 ≤ bb_height b ≤ Qceiling H.
Proof.
  unfold getContentBoundingBoxD.
  match goal with
  | |- context [foldl ?f ?s0 ?l] =>
      pose proof (scanD_bounds data W tRGB t (Qceiling W) (Qceiling H) l
                    ltac:(apply Forall_seqZ; lia) s0) as Hb;
      set (s := foldl f s0 l) in *
  end.
  assert (ScanBounds (Qceiling W) (Qceiling H) s) as Hs.
  { apply Hb. unfold ScanBounds. simpl. lia. }
  clear Hb. unfold ScanBounds in Hs.
  destruct (s_found s); [|discriminate]. intros [= <-]. simpl. lia.
Qed.

Lemma agetD_Z a i : agetD a (inject_Z i) = aget a i.
Proof. unfold agetD. by rewrite Qfloor_Z, Qeq_bool_refl. Qed.

Lemma roundDouble_plus_Z a b :
  - 2 ^ 53 < a + b < 2 ^ 53 →
  roundDouble (inject_Z a + inject_Z b) = inject_Z (a + b).
Proof.
  intros H. rewrite <- (roundDouble_Z (a + b)) by done.
  apply roundDouble_eq. by rewrite inject_Z_plus.
Qed.

Lemma roundDouble_mult_Z a b :
  - 2 ^ 53 < a * b < 2 ^ 53 →
  roundDouble (inject_Z a * inject_Z b) = inject_Z (a * b).
Proof.
  intros H. rewrite <- (roundDouble_Z (a * b)) by done.
  apply roundDouble_eq. by rewrite inject_Z_mult.
Qed.

Lemma pixelIndexD_Z w x y :
  0 ≤ x → 0 ≤ y → 0 ≤ w → (y * w + x) * 4 < 2 ^ 53 →
  pixelIndexD (inject_Z w) x y = inject_Z ((y * w + x) * 4).
Proof.
  intros Hx Hy Hw Hb. unfold pixelIndexD.
  rewrite roundDouble_mult_Z by nia.
  rewrite roundDouble_plus_Z by nia.
  change 4%Q with (inject_Z 4). apply roundDouble_mult_Z. nia.
Qed.

Lemma isContentD_Z data tRGB t i :
  0 ≤ i → i + 3 < 2 ^ 53 →
  isContentD data tRGB t (inject_Z i) = isContent data tRGB t i.
Proof.
  intros Hi Hb. unfold isContentD, isContent.
  change 3%Q with (inject_Z 3). change 2%Q with (inject_Z 2).
  change 1%Q with (inject_Z 1).
  rewrite !roundDouble_plus_Z by lia. by rewrite !agetD_Z.
Qed.

(** On an integral size the analyzer is [getContentBoundingBox]. *)
Lemma getContentBoundingBoxD_integral data w h tRGB t :
  0 ≤ w → 0 ≤ h → 4 * w * h + 3 < 2 ^ 53 →
  getContentBoundingBoxD data (inject_Z w) (inject_Z h) tRGB t
  = getContentBoundingBox data w h tRGB t.
Proof.
  intros Hw Hh Hb. unfold getContentBoundingBoxD, getContentBoundingBox.
  rewrite !Qceiling_Z.
  rewrite (foldl_ext_in _ (scanRow data w tRGB t)); [done|].
  intros s y Hy%elem_of_seqZ. unfold scanRow. apply foldl_ext_in.
  intros s' x Hx%elem_of_seqZ. unfold scanPixelD, scanPixel.
  rewrite pixelIndexD_Z, isContentD_Z by nia. done.
Qed.

(** ** Flood fill: the queue discipline *)

Lemma index_in_range w h x y :
  0 ≤ x < w → 0 ≤ y < h → 0 ≤ y * w + x < w * h.
Proof. intros Hx Hy. nia. Qed.

Lemma index_coords w x y :
  0 ≤ x < w → 0 ≤ y → Z.rem (y * w + x) w = x ∧ (y * w + x) / w = y.
Proof.
  intros Hx Hy. rewrite Z.rem_mod_nonneg by nia. split.
  - rewrite Z.add_comm, Z.mod_add by lia. apply Z.mod_small. lia.
  - rewrite Z.add_comm, Z.div_add by lia. rewrite Z.div_small by lia. lia.
Qed.

Lemma index_inj w x y x' y' :
  0 ≤ x < w → 0 ≤ x' < w → y * w + x = y' * w + x' → x = x' ∧ y = y'.
Proof.
  intros Hx Hx' E.
  assert (y = y') as ->
    by (destruct (Z.lt_trichotomy y y') as [?|[?|?]]; [nia|done|nia]).
  lia.
Qed.

Lemma unvisited_marked visited v :
  0 ≤ v < Z.of_nat (length visited) → unvisited (aset visited v 1) v = false.
Proof. intros Hv. unfold unvisited. by rewrite aget_aset_eq. Qed.

Lemma unvisited_other visited v u :
  v ≠ u → unvisited (aset visited v 1) u = unvisited visited u.
Proof. intros Hne. unfold unvisited. by rewrite aget_aset_ne. Qed.

Section FloodQueue.
Variable test : list Z → Z → bool.
Variable paint : list Z → Z → list Z.
Variables w h : Z.
Hypothesis Hw : 0 < w.
Hypothesis Hh : 0 < h.

Lemma floodInit_queue data : QueueInv w h (floodInit w h data).
Proof.
  split; simpl.
  - rewrite length_replicate. nia.
  - constructor.
  - constructor.
  - intros v Hv. unfold unvisited, aget.
    destruct (Z.leb_spec 0 v); [|lia].
    rewrite lookup_replicate_2 by nia. simpl. split; [done|inversion 1].
  - lia.
  - constructor.
Qed.

Lemma enqueue_queue v st :
  0 ≤ v < w * h → QueueInv w h st → QueueInv w h (enqueueIfMatch test v st).
Proof.
  intros Hv [Hlen Hrange Hnd Hvis Hhead Htouched]. unfold enqueueIfMatch.
  destruct (unvisited (fl_visited st) v) eqn:Hu;
    [destruct (test (fl_data st) (v * 4))|]; split; simpl; try done;
    try (by constructor).
  - by rewrite length_aset.
  - apply Forall_app. split; [done|]. by constructor.
  - apply NoDup_app. split_and!; [done| |apply NoDup_singleton].
    intros u Hin ->%list_elem_of_singleton.
    apply Hvis in Hin; [congruence|done].
  - intros u Hrng. rewrite elem_of_app, list_elem_of_singleton.
    destruct (decide (v = u)) as [<-|Hne].
    + rewrite unvisited_marked by lia. tauto.
    + rewrite unvisited_other by done. rewrite Hvis by done.
      intuition congruence.
  - rewrite length_app. simpl. lia.
Qed.

Lemma enqueue_head v st : fl_head (enqueueIfMatch test v st) = fl_head st.
Proof. unfold enqueueIfMatch. by repeat destruct (_ : bool). Qed.

Lemma enqueue_data v st : fl_data (enqueueIfMatch test v st) = fl_data st.
Proof. unfold enqueueIfMatch. by repeat destruct (_ : bool). Qed.

Lemma enqueue_prefix v st :
  fl_queue st `prefix_of` fl_queue (enqueueIfMatch test v st).
Proof.
  unfold enqueueIfMatch. repeat destruct (_ : bool); simpl; try done.
  by apply prefix_app_r.
Qed.

Lemma visitNeighbor_queue st n :
  QueueInv w h st → QueueInv w h (visitNeighbor test w h st n).
Proof.
  intros Hst. destruct n as [nx ny]. unfold visitNeighbor.
  destruct (_ && _) eqn:Hb; [|done].
  rewrite !andb_true_iff, !Z.leb_le, !Z.ltb_lt in Hb.
  apply enqueue_queue; [|done]. apply index_in_range; lia.
Qed.

Lemma paintPixel_queue v st :
  fl_queue st !! fl_head st = Some v →
  QueueInv w h st → QueueInv w h (paintPixel paint v st).
Proof.
  intros Hv [Hlen Hrange Hnd Hvis Hhead Htouched]. split; simpl; try done.
  - apply lookup_lt_Some in Hv. lia.
  - constructor; [|done]. rewrite Forall_forall in Hrange.
    apply Hrange. by eapply list_elem_of_lookup_2.
Qed.

Lemma floodStep_queue v st :
  fl_queue st !! fl_head st = Some v →
  QueueInv w h st → QueueInv w h (floodStep test paint w h v st).
Proof.
  intros Hv Hst. unfold floodStep. cbn [foldl].
  do 4 apply visitNeighbor_queue. by apply paintPixel_queue.
Qed.

Lemma seedEdges_queue st :
  QueueInv w h st → QueueInv w h (seedEdges test w h st).
Proof.
  intros Hst. unfold seedEdges.
  assert (∀ l st, Forall (λ x, 0 ≤ x < w) l → QueueInv w h st →
            QueueInv w h (foldl (λ st x, addSeed test w x (h - 1) (addSeed test w x 0 st))
                                st l)) as Hrows.
  { intros l. induction l as [|x l IH]; intros st' Hl Hst'; [done|].
    inv Hl. simpl. apply IH; [done|]. unfold addSeed.
    apply enqueue_queue; [apply index_in_range; lia|].
    apply enqueue_queue; [apply index_in_range; lia|done]. }
  assert (∀ l st, Forall (λ y, 0 ≤ y < h) l → QueueInv w h st →
            QueueInv w h (foldl (λ st y, addSeed test w (w - 1) y (addSeed test w 0 y st))
                                st l)) as Hcols.
  { intros l. induction l as [|y l IH]; intros st' Hl Hst'; [done|].
    inv Hl. simpl. apply IH; [done|]. unfold addSeed.
    apply enqueue_queue; [apply index_in_range; lia|].
    apply enqueue_queue; [apply index_in_range; lia|done]. }
  apply Hcols; [apply Forall_seqZ; lia|].
  apply Hrows; [apply Forall_seqZ; lia|done].
Qed.

(** A queue without repetition over [w * h] indices has at most [w * h]
    entries. *)
Lemma queue_bounded st :
  QueueInv w h st → (length (fl_queue st) ≤ Z.to_nat (w * h))%nat.
Proof.
  intros [_ Hrange Hnd _ _ _].
  rewrite <- (length_seqZ 0 (w * h)).
  apply submseteq_length, NoDup_submseteq; [done|].
  intros v Hv. rewrite Forall_forall in Hrange. apply elem_of_seqZ.
  specialize (Hrange v Hv). lia.
Qed.

(** The loop drains the queue within the iterations that are left to it:
    each iteration advances [head], which never passes [w * h]. *)
Lemma floodLoop_terminates fuel st :
  QueueInv w h st →
  (Z.to_nat (w * h) - fl_head st ≤ fuel)%nat →
  ∃ st', floodLoop test paint w h fuel st = Some st'
         ∧ QueueInv w h st'
         ∧ fl_head st' = length (fl_queue st')
         ∧ fl_queue st `prefix_of` fl_queue st'.
Proof.
  revert st. induction fuel as [|fuel IH]; intros st Hst Hfuel.
  - pose proof (queue_bounded st Hst) as Hb. pose proof (qi_head _ _ _ Hst) as Hh'.
    exists st. simpl. rewrite lookup_ge_None_2 by lia. split_and!; try done. lia.
  - simpl. destruct (fl_queue st !! fl_head st) as [v|] eqn:Hv.
    + pose proof (floodStep_queue v st Hv Hst) as Hst'.
      destruct (IH (floodStep test paint w h v st) Hst') as (st' & E & Hq & Hd & Hp).
      { assert (fl_head (floodStep test paint w h v st) = S (fl_head st)) as ->.
        { unfold floodStep. cbn [foldl]. unfold visitNeighbor.
          repeat (destruct (_ && _); rewrite ?enqueue_head); done. }
        lia. }
      exists st'. split_and!; try done.
      etrans; [|exact Hp]. unfold floodStep. cbn [foldl].
      assert (∀ st n, fl_queue st `prefix_of` fl_queue (visitNeighbor test w h st n))
        as Hvn.
      { intros s [nx ny]. unfold visitNeighbor. destruct (_ && _); [|done].
        apply enqueue_prefix. }
      etrans; [|apply Hvn]. etrans; [|apply Hvn]. etrans; [|apply Hvn].
      etrans; [|apply Hvn]. done.
    + exists st. split_and!; try done.
      apply lookup_ge_None_1 in Hv. pose proof (qi_head _ _ _ Hst). lia.
Qed.
End FloodQueue.

(** ** Flood fill: what is painted *)

Lemma Reachable_in_range m w h x y :
  Reachable m w h x y → 0 ≤ x < w ∧ 0 ≤ y < h.
Proof. by intros [|]. Qed.

Section FloodPaint.
Variable test : list Z → Z → bool.
Variable paint : list Z → Z → list Z.
Variables w h : Z.
Variable data0 : list Z.
Hypothesis Hw : 0 < w.
Hypothesis Hh : 0 < h.
(** The test reads the bytes of the pixel it is asked about, only. *)
Hypothesis test_local : ∀ d1 d2 p,
  pixelAt d1 p = pixelAt d2 p → test d1 (p * 4) = test d2 (p * 4).
(** The write changes the bytes of the pixel it is applied to, only, and
    what it leaves there depends on those bytes alone. *)
Hypothesis paint_length : ∀ d i, length (paint d i) = length d.
Hypothesis paint_other : ∀ d p q,
  p ≠ q → pixelAt (paint d (p * 4)) q = pixelAt d q.
Hypothesis paint_local : ∀ d1 d2 p,
  pixelAt d1 p = pixelAt d2 p →
  pixelAt (paint d1 (p * 4)) p = pixelAt (paint d2 (p * 4)) p.

Let m := λ x y, test data0 ((y * w + x) * 4).

Lemma floodInit_paint cur :
  PaintInv test paint w h data0 (floodInit w h data0)
  ∧ Closed test w h data0 [] cur (floodInit w h data0).
Proof.
  split; [split; simpl; try done|].
  - intros v Hv. inv Hv.
  - intros v Hv. inv Hv.
  - intros x y x' y' Hin. simpl in Hin. inv Hin.
Qed.

(** A pixel that is not yet visited still has its original bytes, so
    the test sees the original bitmap. *)
Lemma test_unvisited st v :
  QueueInv w h st → PaintInv test paint w h data0 st →
  0 ≤ v < w * h → unvisited (fl_visited st) v = true →
  (v ∉ fl_queue st) ∧ test (fl_data st) (v * 4) = test data0 (v * 4).
Proof.
  intros Hq Hp Hv Hu.
  assert (v ∉ fl_queue st) as Hnq.
  { intros Hin. apply (qi_visited _ _ _ Hq) in Hin; [congruence|done]. }
  split; [done|]. apply test_local, (pi_untouched _ _ _ _ _ _ Hp).
  intros Hin. apply Hnq. by eapply subseteq_take.
Qed.

Lemma enqueue_paint st x y :
  QueueInv w h st → PaintInv test paint w h data0 st →
  0 ≤ x < w → 0 ≤ y < h →
  (m x y = true → Reachable m w h x y) →
  PaintInv test paint w h data0 (enqueueIfMatch test (y * w + x) st)
  ∧ (m x y = true → y * w + x ∈ fl_queue (enqueueIfMatch test (y * w + x) st)).
Proof.
  intros Hq Hp Hx Hy Hreach.
  pose proof (index_in_range w h x y Hx Hy) as Hv.
  unfold enqueueIfMatch.
  destruct (unvisited (fl_visited st) (y * w + x)) eqn:Hu.
  - destruct (test_unvisited st _ Hq Hp Hv Hu) as [Hnq Ht]. rewrite Ht.
    fold (m x y). destruct (m x y) eqn:Hm.
    + split; [|intros _; simpl; apply elem_of_app; right; by constructor].
      destruct Hp as [Hlen Hr Hpa Hun].
      pose proof (qi_head _ _ _ Hq) as Hhead.
      split; simpl; try done.
      * intros v [Hin| ->%list_elem_of_singleton]%elem_of_app; [by apply Hr|].
        exists x, y. do 3 (split; [done|]). by apply Hreach.
      * intros v. rewrite take_app_le by done. apply Hpa.
      * intros v. rewrite take_app_le by done. apply Hun.
    + split; [|done]. by destruct Hp.
  - split; [by destruct Hp|]. intros _.
    apply (qi_visited _ _ _ Hq); done.
Qed.

Lemma enqueue_closed todo cur st v :
  QueueInv w h st →
  Closed test w h data0 todo cur st →
  Closed test w h data0 todo cur (enqueueIfMatch test v st).
Proof.
  intros Hq Hc x y x' y' Hin Hx Hy Hadj Hx' Hy' Hm.
  rewrite enqueue_head in Hin.
  destruct (enqueue_prefix test v st) as [k Hk].
  rewrite Hk, take_app_le in Hin by apply (qi_head _ _ _ Hq).
  destruct (Hc x y x' y' Hin Hx Hy Hadj Hx' Hy' Hm) as [Hin'|?]; [|by right].
  left. rewrite Hk. apply elem_of_app. by left.
Qed.

(** Visiting a neighbour settles it: if it matches, it is queued. *)
Lemma visitNeighbor_paint todo cx cy st nx ny :
  QueueInv w h st → PaintInv test paint w h data0 st →
  0 ≤ cx < w → 0 ≤ cy < h →
  Reachable m w h cx cy → adjacent cx cy nx ny →
  Closed test w h data0 ((nx, ny) :: todo) (cy * w + cx) st →
  PaintInv test paint w h data0 (visitNeighbor test w h st (nx, ny))
  ∧ Closed test w h data0 todo (cy * w + cx) (visitNeighbor test w h st (nx, ny)).
Proof.
  intros Hq Hp Hcx Hcy Hr Hadj Hc. unfold visitNeighbor.
  destruct (_ && _) eqn:Hb.
  - rewrite !andb_true_iff, !Z.leb_le, !Z.ltb_lt in Hb.
    assert (0 ≤ nx < w) as Hnx by lia. assert (0 ≤ ny < h) as Hny by lia.
    destruct (enqueue_paint st nx ny Hq Hp Hnx Hny) as [Hp' Hin'].
    { intros Hm. by eapply Reachable_step. }
    split; [done|].
    pose proof (enqueue_closed _ _ _ (ny * w + nx) Hq Hc) as Hc'.
    intros x y x' y' Hin Hx Hy Hadj' Hx' Hy' Hm.
    destruct (Hc' x y x' y' Hin Hx Hy Hadj' Hx' Hy' Hm) as [?|[E Htodo]]; [by left|].
    apply elem_of_cons in Htodo as [[= -> ->]|Htodo]; [|by right].
    left. by apply Hin'.
  - split; [done|].
    intros x y x' y' Hin Hx Hy Hadj' Hx' Hy' Hm.
    destruct (Hc x y x' y' Hin Hx Hy Hadj' Hx' Hy' Hm) as [?|[E Htodo]]; [by left|].
    apply elem_of_cons in Htodo as [[= -> ->]|Htodo]; [|by right].
    rewrite !andb_false_iff, !Z.leb_gt, !Z.ltb_ge in Hb. lia.
Qed.

Lemma Closed_nil cur cur' st :
  Closed test w h data0 [] cur st → Closed test w h data0 [] cur' st.
Proof.
  intros Hc x y x' y' Hin Hx Hy Hadj Hx' Hy' Hm.
  destruct (Hc x y x' y' Hin Hx Hy Hadj Hx' Hy' Hm) as [?|[_ Hn]]; [by left|inv Hn].
Qed.

Lemma paintPixel_paint cur st cx cy :
  fl_queue st !! fl_head st = Some (cy * w + cx) →
  0 ≤ cx < w → 0 ≤ cy < h →
  QueueInv w h st → PaintInv test paint w h data0 st →
  Closed test w h data0 [] cur st →
  PaintInv test paint w h data0 (paintPixel paint (cy * w + cx) st)
  ∧ Closed test w h data0
      [(cx + 1, cy); (cx - 1, cy); (cx, cy + 1); (cx, cy - 1)] (cy * w + cx)
      (paintPixel paint (cy * w + cx) st).
Proof.
  intros Hv Hcx Hcy Hq [Hlen Hr Hpa Hun] Hc.
  set (v := cy * w + cx) in *.
  assert (v ∉ take (fl_head st) (fl_queue st)) as Hfresh.
  { intros (i & Hi & Hlt)%elem_of_take.
    pose proof (NoDup_lookup _ _ _ _ (qi_nodup _ _ _ Hq) Hi Hv). lia. }
  split; [split|]; simpl.
  - by rewrite paint_length.
  - done.
  - intros u. rewrite (take_S_r _ _ _ Hv), elem_of_app, list_elem_of_singleton.
    intros [Hin| ->].
    + rewrite paint_other by (intros ->; done). by apply Hpa.
    + apply paint_local. by apply Hun.
  - intros u. rewrite (take_S_r _ _ _ Hv), elem_of_app, list_elem_of_singleton.
    intros Hn. rewrite paint_other by (intros ->; apply Hn; by right).
    apply Hun. intros Hin. apply Hn. by left.
  - intros x y x' y' Hin Hx Hy Hadj Hx' Hy' Hm. simpl in Hin |- *.
    rewrite (take_S_r _ _ _ Hv), elem_of_app, list_elem_of_singleton in Hin.
    destruct Hin as [Hin|E].
    + destruct (Hc x y x' y' Hin Hx Hy Hadj Hx' Hy' Hm) as [?|[_ Hn]];
        [by left|inv Hn].
    + right. split; [done|].
      apply index_inj in E as [-> ->]; [|done..].
      destruct Hadj as [[-> ->]|[[-> ->]|[[-> ->]|[-> ->]]]];
        rewrite !elem_of_cons; tauto.
Qed.

Lemma floodStep_paint cur st v :
  fl_queue st !! fl_head st = Some v →
  QueueInv w h st → PaintInv test paint w h data0 st →
  Closed test w h data0 [] cur st →
  PaintInv test paint w h data0 (floodStep test paint w h v st)
  ∧ Closed test w h data0 [] v (floodStep test paint w h v st).
Proof.
  intros Hv Hq Hp Hc.
  destruct (pi_reach _ _ _ _ _ _ Hp v) as (cx & cy & Hcx & Hcy & -> & Hr);
    [by eapply list_elem_of_lookup_2|].
  unfold floodStep. destruct (index_coords w cx cy) as [-> ->]; [lia..|].
  cbn [foldl].
  pose proof (paintPixel_queue paint w h _ st Hv Hq) as Hq0.
  destruct (paintPixel_paint cur st cx cy Hv Hcx Hcy Hq Hp Hc) as [Hp0 Hc0].
  set (st0 := paintPixel paint (cy * w + cx) st) in *.
  destruct (visitNeighbor_paint [(cx - 1, cy); (cx, cy + 1); (cx, cy - 1)] cx cy st0 (cx + 1) cy Hq0 Hp0 Hcx Hcy Hr) as [Hp1 Hc1];
    [unfold adjacent; lia|exact Hc0|].
  pose proof (visitNeighbor_queue test w h st0 (cx + 1, cy) Hq0) as Hq1.
  set (st1 := visitNeighbor test w h st0 (cx + 1, cy)) in *.
  destruct (visitNeighbor_paint [(cx, cy + 1); (cx, cy - 1)] cx cy st1 (cx - 1) cy Hq1 Hp1 Hcx Hcy Hr) as [Hp2 Hc2];
    [unfold adjacent; lia|exact Hc1|].
  pose proof (visitNeighbor_queue test w h st1 (cx - 1, cy) Hq1) as Hq2.
  set (st2 := visitNeighbor test w h st1 (cx - 1, cy)) in *.
  destruct (visitNeighbor_paint [(cx, cy - 1)] cx cy st2 cx (cy + 1) Hq2 Hp2 Hcx Hcy Hr) as [Hp3 Hc3];
    [unfold adjacent; lia|exact Hc2|].
  pose proof (visitNeighbor_queue test w h st2 (cx, cy + 1) Hq2) as Hq3.
  set (st3 := visitNeighbor test w h st2 (cx, cy + 1)) in *.
  destruct (visitNeighbor_paint [] cx cy st3 cx (cy - 1) Hq3 Hp3 Hcx Hcy Hr) as [Hp4 Hc4];
    [unfold adjacent; lia|exact Hc3|].
  done.
Qed.

Lemma floodLoop_paint fuel : ∀ cur st st',
  QueueInv w h st → PaintInv test paint w h data0 st →
  Closed test w h data0 [] cur st →
  floodLoop test paint w h fuel st = Some st' →
  PaintInv test paint w h data0 st' ∧ Closed test w h data0 [] cur st'.
Proof.
  induction fuel as [|fuel IH]; intros cur st st' Hq Hp Hc; simpl;
    destruct (fl_queue st !! fl_head st) as [v|] eqn:Hv; try done;
    try (by intros [= <-]).
  intros E.
  destruct (floodStep_paint cur st v Hv Hq Hp Hc) as [Hp' Hc'].
  assert (QueueInv w h (floodStep test paint w h v st)) as Hq'
    by (by apply floodStep_queue).
  destruct (IH v _ st' Hq' Hp' Hc' E) as [Hp'' Hc''].
  split; [done|]. by eapply Closed_nil.
Qed.

(** *** Seeding *)

Lemma SeedInv_ext seeded seeded' st :
  (∀ x y, seeded' x y → seeded x y) →
  SeedInv test paint w h data0 seeded st → SeedInv test paint w h data0 seeded' st.
Proof. intros E [Hq Hp Hh0 Hs]. split; try done. intros x y Hxy. by apply Hs, E. Qed.

Lemma addSeed_inv seeded st x y :
  0 ≤ x < w → 0 ≤ y < h →
  x = 0 ∨ x = w - 1 ∨ y = 0 ∨ y = h - 1 →
  SeedInv test paint w h data0 seeded st →
  SeedInv test paint w h data0 (λ x' y', seeded x' y' ∨ (x' = x ∧ y' = y))
          (addSeed test w x y st).
Proof.
  intros Hx Hy Hborder [Hq Hp Hh0 Hs]. unfold addSeed.
  destruct (enqueue_paint st x y Hq Hp Hx Hy) as [Hp' Hin].
  { intros Hm. by apply Reachable_border. }
  split; [|done| |].
  - apply enqueue_queue; [done..|by apply index_in_range|done].
  - by rewrite enqueue_head.
  - intros x' y' [Hxy|[-> ->]] Hm; [|by apply Hin].
    eapply elem_of_prefix; [by apply Hs|apply enqueue_prefix].
Qed.

Lemma seed_rows_inv (l : list Z) : ∀ seeded st,
  Forall (λ x, 0 ≤ x < w) l →
  SeedInv test paint w h data0 seeded st →
  SeedInv test paint w h data0
          (λ x' y', seeded x' y' ∨ (x' ∈ l ∧ (y' = 0 ∨ y' = h - 1)))
          (foldl (λ st x, addSeed test w x (h - 1) (addSeed test w x 0 st)) st l).
Proof.
  induction l as [|x l IH]; intros seeded st Hl Hst.
  - eapply SeedInv_ext; [|exact Hst]. intros x' y' [?|[Hin _]]; [done|inv Hin].
  - apply Forall_cons in Hl as [Hx Hl]. simpl.
    pose proof (addSeed_inv seeded st x 0
                  ltac:(lia) ltac:(lia) ltac:(lia) Hst) as H0.
    pose proof (addSeed_inv _ _ x (h - 1)
                  ltac:(lia) ltac:(lia) ltac:(lia) H0) as H1.
    eapply SeedInv_ext; [|apply (IH _ _ Hl H1)].
    intros x' y'. simpl. rewrite elem_of_cons. intuition (subst; auto).
Qed.

Lemma seed_cols_inv (l : list Z) : ∀ seeded st,
  Forall (λ y, 0 ≤ y < h) l →
  SeedInv test paint w h data0 seeded st →
  SeedInv test paint w h data0
          (λ x' y', seeded x' y' ∨ (y' ∈ l ∧ (x' = 0 ∨ x' = w - 1)))
          (foldl (λ st y, addSeed test w (w - 1) y (addSeed test w 0 y st)) st l).
Proof.
  induction l as [|y l IH]; intros seeded st Hl Hst.
  - eapply SeedInv_ext; [|exact Hst]. intros x' y' [?|[Hin _]]; [done|inv Hin].
  - apply Forall_cons in Hl as [Hy Hl]. simpl.
    pose proof (addSeed_inv seeded st 0 y
                  ltac:(lia) ltac:(lia) ltac:(lia) Hst) as H0.
    pose proof (addSeed_inv _ _ (w - 1) y
                  ltac:(lia) ltac:(lia) ltac:(lia) H0) as H1.
    eapply SeedInv_ext; [|apply (IH _ _ Hl H1)].
    intros x' y'. simpl. rewrite elem_of_cons. intuition (subst; auto).
Qed.

(** After seeding, every matching pixel of the border is queued. *)
Lemma seedEdges_inv :
  SeedInv test paint w h data0
    (λ x y, 0 ≤ x < w ∧ 0 ≤ y < h ∧ (x = 0 ∨ x = w - 1 ∨ y = 0 ∨ y = h - 1))
    (seedEdges test w h (floodInit w h data0)).
Proof.
  unfold seedEdges.
  assert (SeedInv test paint w h data0 (λ _ _, False) (floodInit w h data0)) as H0.
  { split; [by apply floodInit_queue|apply (floodInit_paint 0)|done|]. intros x y []. }
  assert (Forall (λ x, 0 ≤ x < w) (seqZ 0 w)) as Hxs by (apply Forall_seqZ; lia).
  assert (Forall (λ y, 0 ≤ y < h) (seqZ 1 (h - 2))) as Hys by (apply Forall_seqZ; lia).
  pose proof (seed_rows_inv _ _ _ Hxs H0) as H1.
  pose proof (seed_cols_inv _ _ _ Hys H1) as H2.
  eapply SeedInv_ext; [|exact H2].
  intros x y (Hx & Hy & Hb). simpl. rewrite !elem_of_seqZ.
  destruct (decide (y = 0 ∨ y = h - 1)); [left; right; split; [lia|done]|].
  right. split; lia.
Qed.

(** *** The fill as a whole *)

Theorem floodFill_spec :
  ∃ st, floodFill test paint w h data0 = Some st
    ∧ QueueInv w h st
    ∧ fl_head st = length (fl_queue st)
    ∧ length (fl_data st) = length data0
    ∧ (∀ v, v ∈ fl_queue st ↔
            ∃ x y, 0 ≤ x < w ∧ 0 ≤ y < h ∧ v = y * w + x ∧ Reachable m w h x y)
    ∧ (∀ x y, 0 ≤ x < w → 0 ≤ y < h →
         (Reachable m w h x y →
            pixelAt (fl_data st) (y * w + x)
            = pixelAt (paint data0 ((y * w + x) * 4)) (y * w + x))
         ∧ (¬ Reachable m w h x y →
            pixelAt (fl_data st) (y * w + x) = pixelAt data0 (y * w + x))).
Proof.
  destruct seedEdges_inv as [Hq Hp Hh0 Hs].
  set (st0 := seedEdges test w h (floodInit w h data0)) in *.
  destruct (floodLoop_terminates test paint w h Hw Hh (Z.to_nat (w * h)) st0 Hq)
    as (st & E & Hq' & Hdone & Hpre); [lia|].
  assert (Closed test w h data0 [] 0 st0) as Hc0.
  { intros x y x' y' Hin. rewrite Hh0 in Hin. inv Hin. }
  destruct (floodLoop_paint _ 0 st0 st Hq Hp Hc0 E) as [Hp' Hc'].
  assert (∀ x y, Reachable m w h x y → y * w + x ∈ fl_queue st) as Hcomplete.
  { intros x y Hr. induction Hr as [x y Hx Hy Hb Hm|x y x' y' Hr IH Hx' Hy' Hadj Hm].
    - eapply elem_of_prefix; [|exact Hpre]. apply Hs; [|exact Hm].
      split; [exact Hx|]. split; [exact Hy|exact Hb].
    - destruct (Reachable_in_range _ _ _ _ _ Hr) as [Hx Hy].
      destruct (Hc' x y x' y') as [?|[_ Hn]]; try done; [|inv Hn].
      rewrite Hdone, take_ge by done. done. }
  exists st. unfold floodFill. fold st0. split_and!; try done.
  - by destruct Hp'.
  - intros v. split; [apply (pi_reach _ _ _ _ _ _ Hp')|].
    intros (x & y & _ & _ & -> & Hr). by apply Hcomplete.
  - intros x y Hx Hy. split.
    + intros Hr. apply (pi_painted _ _ _ _ _ _ Hp').
      rewrite Hdone, take_ge by done. by apply Hcomplete.
    + intros Hn. apply (pi_untouched _ _ _ _ _ _ Hp').
      rewrite Hdone, take_ge by done. intros Hin.
      destruct (pi_reach _ _ _ _ _ _ Hp' _ Hin) as (x1 & y1 & Hx1 & Hy1 & E1 & Hr).
      apply index_inj in E1 as [-> ->]; done.
Qed.
End FloodPaint.

(** ** The two pixel tests and the two writes *)

Lemma aget_aset a i j v :
  aget (aset a i v) j = if decide (i = j) then aget a i ≫= (λ _, Some v) else aget a j.
Proof.
  destruct (decide (i = j)) as [<-|Hne]; [|by apply aget_aset_ne].
  destruct (aget a i) as [u|] eqn:E.
  - apply aget_Some_range in E. simpl. by apply aget_aset_eq.
  - simpl. unfold aget, aset in *. destruct (0 <=? i); [|done].
    rewrite list_insert_ge; [done|]. by apply lookup_ge_None.
Qed.

Lemma length_writeKey d p key : length (writeKey d p key) = length d.
Proof. unfold writeKey. by rewrite !length_aset. Qed.

Lemma aget_writeKey d p key j :
  aget (writeKey d p key) j
  = if decide (j = p) then aget d j ≫= (λ _, Some (toUint8Clamped (rgb_r key)))
    else if decide (j = p + 1) then aget d j ≫= (λ _, Some (toUint8Clamped (rgb_g key)))
    else if decide (j = p + 2) then aget d j ≫= (λ _, Some (toUint8Clamped (rgb_b key)))
    else if decide (j = p + 3) then aget d j ≫= (λ _, Some 255)
    else aget d j.
Proof.
  unfold writeKey. rewrite !aget_aset.
  repeat case_decide; subst; try lia; try done.
Qed.

Lemma pixelAt_writeKey_other d p q key :
  p ≠ q → pixelAt (writeKey d (p * 4) key) q = pixelAt d q.
Proof.
  intros Hne. unfold pixelAt. rewrite !aget_writeKey.
  repeat case_decide; try lia; done.
Qed.

Lemma pixelAt_writeKey_same d p key :
  pixelAt (writeKey d (p * 4) key) p
  = [ aget d (p * 4) ≫= (λ _, Some (toUint8Clamped (rgb_r key)));
      aget d (p * 4 + 1) ≫= (λ _, Some (toUint8Clamped (rgb_g key)));
      aget d (p * 4 + 2) ≫= (λ _, Some (toUint8Clamped (rgb_b key)));
      aget d (p * 4 + 3) ≫= (λ _, Some 255) ].
Proof.
  unfold pixelAt. rewrite !aget_writeKey.
  repeat case_decide; try lia; done.
Qed.

(** A pixel inside the bitmap is rewritten to the key colour. *)
Lemma pixelAt_writeKey_inside d p key :
  0 ≤ p → p * 4 + 3 < Z.of_nat (length d) →
  pixelAt (writeKey d (p * 4) key) p = keyPixel key.
Proof.
  intros Hp Hlen. rewrite pixelAt_writeKey_same.
  destruct (aget_in_range d (p * 4)) as [? ->]; [lia|].
  destruct (aget_in_range d (p * 4 + 1)) as [? ->]; [lia|].
  destruct (aget_in_range d (p * 4 + 2)) as [? ->]; [lia|].
  destruct (aget_in_range d (p * 4 + 3)) as [? ->]; [lia|].
  done.
Qed.

Lemma pixelAt_writeKey_local d1 d2 p key :
  pixelAt d1 p = pixelAt d2 p →
  pixelAt (writeKey d1 (p * 4) key) p = pixelAt (writeKey d2 (p * 4) key) p.
Proof. intros [= E0 E1 E2 E3]. rewrite !pixelAt_writeKey_same. congruence. Qed.

Lemma matches_local target t d1 d2 p :
  pixelAt d1 p = pixelAt d2 p → matches target t d1 (p * 4) = matches target t d2 (p * 4).
Proof. intros [= E0 E1 E2 E3]. unfold matches. by rewrite E0, E1, E2, E3. Qed.

Lemma previewKeyed_local target t d1 d2 p :
  pixelAt d1 p = pixelAt d2 p →
  previewKeyed target t d1 (p * 4) = previewKeyed target t d2 (p * 4).
Proof.
  intros [= E0 E1 E2 E3]. unfold previewKeyed, previewMatches.
  by rewrite E0, E1, E2, E3.
Qed.

Lemma pixelAt_alpha_other d p q :
  p ≠ q → pixelAt (aset d (p * 4 + 3) 0) q = pixelAt d q.
Proof.
  intros Hne. unfold pixelAt. rewrite !aget_aset.
  repeat case_decide; try lia; done.
Qed.

Lemma pixelAt_alpha_local d1 d2 p :
  pixelAt d1 p = pixelAt d2 p →
  pixelAt (aset d1 (p * 4 + 3) 0) p = pixelAt (aset d2 (p * 4 + 3) 0) p.
Proof.
  intros [= E0 E1 E2 E3]. unfold pixelAt. rewrite !aget_aset.
  repeat case_decide; try lia; congruence.
Qed.

(** ** Keying every pixel on its own *)

Section PixelFold.
Variable test : list Z → Z → bool.
Variable paint : list Z → Z → list Z.
Hypothesis test_local : ∀ d1 d2 p,
  pixelAt d1 p = pixelAt d2 p → test d1 (p * 4) = test d2 (p * 4).
Hypothesis paint_other : ∀ d p q,
  p ≠ q → pixelAt (paint d (p * 4)) q = pixelAt d q.
Hypothesis paint_local : ∀ d1 d2 p,
  pixelAt d1 p = pixelAt d2 p →
  pixelAt (paint d1 (p * 4)) p = pixelAt (paint d2 (p * 4)) p.

(** A loop that tests and paints each listed pixel once decides every
    pixel on the bitmap it started from. *)
Lemma pixel_fold (l : list Z) : ∀ d q,
  NoDup l →
  pixelAt (foldl (λ d k, if test d (k * 4) then paint d (k * 4) else d) d l) q
  = if decide (q ∈ l)
    then if test d (q * 4) then pixelAt (paint d (q * 4)) q else pixelAt d q
    else pixelAt d q.
Proof.
  induction l as [|k l IH]; intros d q Hnd.
  - simpl. destruct (decide (q ∈ [])) as [Hin|_]; [inv Hin|done].
  - apply NoDup_cons in Hnd as [Hk Hnd]. simpl. rewrite IH by done.
    set (d1 := if test d (k * 4) then paint d (k * 4) else d).
    destruct (decide (q = k)) as [->|Hne].
    + destruct (decide (k ∈ l)) as [?|_]; [done|].
      destruct (decide (k ∈ k :: l)) as [_|Hn]; [|destruct Hn; by left].
      subst d1. by destruct (test d (k * 4)).
    + assert (pixelAt d1 q = pixelAt d q) as Hq.
      { subst d1. destruct (test d (k * 4)); [|done]. by apply paint_other. }
      rewrite (test_local d1 d q Hq), (paint_local d1 d q Hq), Hq.
      destruct (decide (q ∈ l)) as [Hin|Hnin], (decide (q ∈ k :: l)) as [Hin'|Hnin'];
        try done.
      * destruct Hnin'. by right.
      * apply elem_of_cons in Hin' as [?|?]; done.
Qed.
End PixelFold.

Lemma globalKeyPixel_alt target key t d p :
  globalKeyPixel target key t d p
  = if matches target t d p then writeKey d p key else d.
Proof.
  unfold globalKeyPixel, matches.
  destruct (aget d (p + 3)) as [[| |]|]; try done;
    destruct (aget d p), (aget d (p + 1)), (aget d (p + 2)); done.
Qed.

Lemma foldl_ext_eq {A B} (f g : A → B → A) (l : list B) (a : A) :
  (∀ a x, f a x = g a x) → foldl f a l = foldl g a l.
Proof. intros E. revert a. induction l as [|x l IH]; intros a; simpl; [done|]. by rewrite E, IH. Qed.

(** The global mode rewrites exactly the pixels that match. *)
Lemma applyGlobalKey_pixel data target key t n q :
  Z.of_nat (length data) = 4 * n → 0 ≤ q < n →
  pixelAt (applyGlobalKey data target key t) q
  = if matches target t data (q * 4) then keyPixel key else pixelAt data q.
Proof.
  intros Hlen Hq. unfold applyGlobalKey, pixelOffsets.
  rewrite foldl_fmap.
  rewrite (foldl_ext_eq _ (λ d k, if matches target t d (k * 4)
                                  then writeKey d (k * 4) key else d))
    by (intros; apply globalKeyPixel_alt).
  rewrite (pixel_fold (matches target t) (λ d i, writeKey d i key)).
  - destruct (decide (q ∈ _)) as [_|Hn].
    + destruct (matches target t data (q * 4)); [|done].
      apply pixelAt_writeKey_inside; lia.
    + destruct Hn. apply elem_of_seqZ. rewrite Hlen.
      replace ((4 * n + 3) / 4) with n; [lia|].
      apply Z.div_unique with (r := 3); lia.
  - intros. by apply matches_local.
  - intros. by apply pixelAt_writeKey_other.
  - intros. by apply pixelAt_writeKey_local.
  - apply NoDup_seqZ.
Qed.

(** ** Statements about the frame sequencer and the pipeline *)

(** The cells of the emitted frames, as (row, column) pairs. *)
Lemma full_grid_cells cfg :
  excludedFrames cfg = [] →
  Z.max 0 (rows cfg) * Z.max 0 (cols cfg) ≤ totalFrames cfg →
  (λ f, (f_r f, f_c f)) <$> validFrameCoordinates cfg
  = (λ t, (t_r t, t_c t)) <$> tempCoords (readOrder cfg) (rows cfg) (cols cfg).
Proof.
  intros He Ht. unfold validFrameCoordinates.
  rewrite <- list_fmap_compose. f_equal.
  apply filter_all, Forall_forall. intros t Hin.
  apply keepIndex_true. rewrite He. split; [|apply not_elem_of_nil].
  assert (t_index t ∈ t_index <$> tempCoords (readOrder cfg) (rows cfg) (cols cfg))
    as Hi by (by apply list_elem_of_fmap_2).
  rewrite tempCoords_indices in Hi. apply elem_of_seqZ in Hi. lia.
Qed.

(** C1, as the code has it.  With rows > 0, cols > 0, nothing excluded and
    no cutoff below the grid size, the sequencer emits the indices
    0, 1, ..., rows*cols - 1 in ascending order under both read orders; each
    frame carries the index of its cell, r*cols+c when row-major and
    c*rows+r when column-major.  On a 2-row, 3-column grid both orders
    therefore emit originalIndex 0,1,2,3,4,5: row-major visits the cells
    (0,0),(0,1),(0,2),(1,0),(1,1),(1,2), column-major visits
    (0,0),(1,0),(0,1),(1,1),(0,2),(1,2). *)
Theorem traversal_orders cfg :
  0 < rows cfg → 0 < cols cfg → excludedFrames cfg = [] →
  rows cfg * cols cfg ≤ totalFrames cfg →
  originalIndex <$> validFrameCoordinates cfg = seqZ 0 (rows cfg * cols cfg)
  ∧ (∀ f, f ∈ validFrameCoordinates cfg →
       originalIndex f = match readOrder cfg with
                         | RowMajor => f_r f * cols cfg + f_c f
                         | ColumnMajor => f_c f * rows cfg + f_r f
                         end)
  ∧ (rows cfg = 2 → cols cfg = 3 →
       originalIndex <$> validFrameCoordinates cfg = [0; 1; 2; 3; 4; 5]
       ∧ (λ f, (f_r f, f_c f)) <$> validFrameCoordinates cfg
         = match readOrder cfg with
           | RowMajor => [(0, 0); (0, 1); (0, 2); (1, 0); (1, 1); (1, 2)]
           | ColumnMajor => [(0, 0); (1, 0); (0, 1); (1, 1); (0, 2); (1, 2)]
           end).
Proof.
  intros Hr Hc He Ht. split_and!.
  - by apply full_grid_indices.
  - intros f Hf. by apply validFrameCoordinates_formula.
  - intros H2 H3. split.
    + rewrite full_grid_indices, H2, H3 by done. reflexivity.
    + rewrite full_grid_cells by (done || lia). rewrite H2, H3.
      by destruct (readOrder cfg).
Qed.

Lemma traversal_orders_witness :
  originalIndex <$> validFrameCoordinates (gridConfig ColumnMajor 2 3 6 [])
  = [0; 1; 2; 3; 4; 5].
Proof.
  destruct (traversal_orders (gridConfig ColumnMajor 2 3 6 [])) as (_ & _ & H);
    [simpl; lia | simpl; lia | reflexivity | simpl; lia |].
  apply H; reflexivity.
Defined.

(** C1 as stated fails: column-major traversal of the 2-row, 3-column grid
    does not emit originalIndex 0,3,1,4,2,5. *)
Lemma column_major_not_interleaved :
  originalIndex <$> validFrameCoordinates (gridConfig ColumnMajor 2 3 6 [])
  ≠ [0; 3; 1; 4; 2; 5].
Proof. vm_compute. discriminate. Qed.

(** C9.  For every configuration the indices the sequencer emits are
    strictly increasing, under either read order; so are those of the
    preview player. *)
Theorem emission_ascending cfg :
  StronglySorted Z.lt (originalIndex <$> validFrameCoordinates cfg)
  ∧ StronglySorted Z.lt (getValidFrameIndices cfg).
Proof.
  split; [apply emitted_sorted|].
  rewrite preview_export_agree. apply emitted_sorted.
Qed.






(** *** Output size *)

Lemma ratio_bounds m :
  1024 < m < 2 ^ 53 →
  let ratio := roundDouble (1024 / inject_Z m) in
  (0 <= ratio)%Q
  ∧ (1024 - 1024 * 2 ^ (- 53) <= inject_Z m * ratio <= 1024 + 1024 * 2 ^ (- 53))%Q.
Proof.
  intros Hm ratio.
  assert (0 < inject_Z m)%Q as Hm0
    by (change 0%Q with (inject_Z 0); rewrite <- Zlt_Qlt; lia).
  assert (inject_Z m <= inject_Z (2 ^ 53))%Q as Hm53 by (rewrite <- Zle_Qle; lia).
  set (q := (1024 / inject_Z m)%Q) in *.
  assert (inject_Z m * q == 1024)%Q as Hmq by (unfold q; field; lra).
  assert (0 < q)%Q as Hq by (apply Qlt_shift_div_l; lra).
  assert (- 1022 ≤ binade q) as Hk.
  { assert (1024 / inject_Z (2 ^ 53) <= q)%Q as Hle.
    { unfold q. apply Qle_shift_div_l; [done|].
      assert (1024 / inject_Z (2 ^ 53) * inject_Z (2 ^ 53) == 1024)%Q as E
        by reflexivity.
      assert (1024 / inject_Z (2 ^ 53) * inject_Z m
              <= 1024 / inject_Z (2 ^ 53) * inject_Z (2 ^ 53))%Q; [|lra].
      rewrite !(Qmult_comm (1024 / inject_Z (2 ^ 53))).
      apply Qmult_le_compat_r; [done|]. vm_compute. discriminate. }
    apply binade_mono in Hle.
    assert (binade (1024 / inject_Z (2 ^ 53)) = - 43) as E by (vm_compute; reflexivity).
    lia. }
  pose proof (roundPos_relative q Hk) as Herr.
  unfold ratio. rewrite roundDouble_pos by done.
  pose proof (pow2_pos (- 53)) as Hp.
  set (r := roundPos q) in *. set (b := (2 ^ (- 53))%Q) in *.
  split.
  - assert (q * b <= q * 1)%Q; [|lra].
    rewrite !(Qmult_comm q). apply Qmult_le_compat_r; [|lra].
    subst b. vm_compute. discriminate.
  - assert (inject_Z m * (r - q) <= inject_Z m * (q * b))%Q
      by (rewrite !(Qmult_comm (inject_Z m)); apply Qmult_le_compat_r; lra).
    assert (inject_Z m * (- (q * b)) <= inject_Z m * (r - q))%Q
      by (rewrite !(Qmult_comm (inject_Z m)); apply Qmult_le_compat_r; lra).
    assert (inject_Z m * (q * b) == 1024 * b)%Q by (rewrite Qmult_assoc, Hmq; ring).
    split; lra.
Qed.

(** When the cap applies, the longer output side is 1024 or, when the
    product of doubles falls just below 1024, 1023; the other side is no
    longer. *)
Lemma downscaled_sides lw lh :
  0 ≤ lw → 0 ≤ lh → 1024 < Z.max lw lh < 2 ^ 53 →
  let o := outputSize true lw lh in
  1023 ≤ Z.max (outputWidth o) (outputHeight o) ≤ 1024
  ∧ 0 ≤ outputWidth o ∧ 0 ≤ outputHeight o
  ∧ (lw ≤ lh → outputWidth o ≤ outputHeight o)
  ∧ (lh ≤ lw → outputHeight o ≤ outputWidth o).
Proof.
  intros Hw Hh Hm o. subst o. unfold outputSize. rewrite andb_true_l.
  destruct (Z.ltb_spec 1024 (Z.max lw lh)) as [_|]; [|lia].
  cbn [outputWidth outputHeight].
  destruct (ratio_bounds (Z.max lw lh) Hm) as [Hr [Hlo Hhi]].
  set (m := Z.max lw lh) in *. set (ratio := roundDouble (1024 / inject_Z m)) in *.
  assert (1023 ≤ Qfloor (roundDouble (inject_Z m * ratio)) ≤ 1024) as Hlong.
  { split.
    - assert (Qfloor (roundDouble (1024 - 1024 * 2 ^ (- 53))) = 1023) as <-
        by (vm_compute; reflexivity).
      by apply Qfloor_resp_le, roundDouble_mono.
    - assert (Qfloor (roundDouble (1024 + 1024 * 2 ^ (- 53))) = 1024) as <-
        by (vm_compute; reflexivity).
      by apply Qfloor_resp_le, roundDouble_mono. }
  assert (∀ s k, 0 ≤ s ≤ k →
            0 ≤ Qfloor (roundDouble (inject_Z s * ratio))
              ≤ Qfloor (roundDouble (inject_Z k * ratio))) as Hmono.
  { intros s k Hsk. split.
    - change 0 with (Qfloor 0). apply Qfloor_resp_le, roundDouble_nonneg.
      apply Qmult_le_0_compat; [|done].
      change 0%Q with (inject_Z 0). rewrite <- Zle_Qle. lia.
    - apply Qfloor_resp_le, roundDouble_mono, Qmult_le_compat_r; [|done].
      rewrite <- Zle_Qle. lia. }
  pose proof (Hmono lw m ltac:(lia)). pose proof (Hmono lh m ltac:(lia)).
  pose proof (Hmono lw lh). pose proof (Hmono lh lw).
  destruct (Z.max_spec lw lh) as [[Hlt E]|[Hle E]]; fold m in E; rewrite E in *; lia.
Qed.

(** C5.  With maxResolution1024 enabled a logical canvas of 2000x1000 has
    resizeRatio 0.512 (the double) and output size 1024x512, and one of
    800x600 has resizeRatio 1 and keeps its size.  In general the ratio is
    1024 over the larger logical side when the cap is enabled and that side
    exceeds 1024, each output side being the floor of the logical side
    times the ratio, all on doubles; otherwise the ratio is 1 and the size
    is unchanged.  Under the cap the longer output side is 1024 or 1023
    (1122x561 gives 1023x511) and the other side is no longer.  The encoder
    is created with the output size. *)
Theorem max_resolution_output :
  (resizeRatio (outputSize true 2000 1000) = roundDouble 0.512
   ∧ outputWidth (outputSize true 2000 1000) = 1024
   ∧ outputHeight (outputSize true 2000 1000) = 512)
  ∧ (resizeRatio (outputSize true 800 600) = 1%Q
     ∧ outputWidth (outputSize true 800 600) = 800
     ∧ outputHeight (outputSize true 800 600) = 600)
  ∧ (∀ enabled lw lh,
       let o := outputSize enabled lw lh in
       let maxSide := Z.max lw lh in
       (enabled = true → 1024 < maxSide →
          resizeRatio o = roundDouble (1024 / inject_Z maxSide)
          ∧ outputWidth o = Qfloor (roundDouble (inject_Z lw * resizeRatio o))
          ∧ outputHeight o = Qfloor (roundDouble (inject_Z lh * resizeRatio o)))
       ∧ (enabled = false ∨ maxSide ≤ 1024 →
          resizeRatio o = 1%Q ∧ outputWidth o = lw ∧ outputHeight o = lh))
  ∧ (∀ lw lh,
       0 ≤ lw → 0 ≤ lh → 1024 < Z.max lw lh < 2 ^ 53 →
       let o := outputSize true lw lh in
       1023 ≤ Z.max (outputWidth o) (outputHeight o) ≤ 1024
       ∧ 0 ≤ outputWidth o ∧ 0 ≤ outputHeight o
       ∧ (lw ≤ lh → outputWidth o ≤ outputHeight o)
       ∧ (lh ≤ lw → outputHeight o ≤ outputWidth o))
  ∧ (outputWidth (outputSize true 1122 561) = 1023
     ∧ outputHeight (outputSize true 1122 561) = 511)
  ∧ (∀ env cfg dims,
       rc_output (renderCtx env cfg (geometry cfg dims)
                    (analysis env cfg (geometry cfg dims) (keySetup cfg)
                       (validFrameCoordinates cfg)))
       = outputSize (maxResolution1024 cfg)
           (rc_logicalWidth (renderCtx env cfg (geometry cfg dims)
              (analysis env cfg (geometry cfg dims) (keySetup cfg)
                 (validFrameCoordinates cfg))))
           (rc_logicalHeight (renderCtx env cfg (geometry cfg dims)
              (analysis env cfg (geometry cfg dims) (keySetup cfg)
                 (validFrameCoordinates cfg)))))
  ∧ NewGif 1024 512 None
      ∈ fst (generateGif (blankBrowser 2000 1000) cfgCapped
               {| width := 2000; height := 1000 |}).
Proof.
  split; [split_and!; vm_compute; reflexivity|].
  split; [split_and!; vm_compute; reflexivity|].
  split; [|split; [apply downscaled_sides|
                   split; [split; vm_compute; reflexivity|split]]].
  - intros enabled lw lh o maxSide. subst o maxSide. unfold outputSize. split.
    + intros -> Hm. destruct (Z.ltb_spec 1024 (Z.max lw lh)); [done|lia].
    + intros H.
      assert (enabled && (1024 <? Z.max lw lh) = false) as ->.
      { destruct H as [->|H]; [done|]. apply andb_false_iff. right.
        by apply Z.ltb_ge. }
      done.
  - intros env cfg dims. unfold renderCtx. by destruct (finalSize _ _).
  - vm_compute. do 1 constructor. constructor.
Qed.

(** On a sheet 10 pixels wide cut in four columns the cells are 2.5 pixels
    wide and the bitmap read back is 2 pixels wide: for a fully transparent
    image the scan, which runs over the columns 0, 1 and 2, reads column 2
    outside of the bitmap and takes it for content.  Each frame gets a box
    of one pixel, the canvas is 3 by 3, and the frame is drawn. *)
Example fractional_crop_box :
  let dims := {| width := 10; height := 1 |} in
  let geo := geometry cfgFractional dims in
  frameBBox (blankBrowser 2 1) cfgFractional geo (keySetup cfgFractional)
            {| f_r := 0; f_c := 0; originalIndex := 0 |}
  = Some {| minX := 2; minY := 0; maxX := 2; maxY := 0; bb_width := 1; bb_height := 1 |}
  ∧ snd (generateGif (blankBrowser 2 1) cfgFractional dims) = Rendering
  ∧ NewGif 3 3 None ∈ fst (generateGif (blankBrowser 2 1) cfgFractional dims)
  ∧ length (filter (λ e, drawsOnBuffer e = true)
              (fst (generateGif (blankBrowser 2 1) cfgFractional dims))) = 4%nat.
Proof.
  cbv zeta. split_and!; try (vm_compute; reflexivity).
  vm_compute. do 13 constructor. constructor.
Qed.

(** A 4 by 4 sheet cut in 4 by 4 cells and exported at half size has a
    logical canvas of 0 by 0: with a colour keyed, the read-back of the
    first frame throws and the promise rejects, no frame submitted. *)
Example empty_canvas_rejected :
  snd (generateGif (blankBrowser 1 1) cfgHalf {| width := 4; height := 4 |})
  = Rejected IndexSizeError
  ∧ framesSubmitted
      (fst (generateGif (blankBrowser 1 1) cfgHalf {| width := 4; height := 4 |}))
    = 0%nat.
Proof. split; vm_compute; reflexivity. Qed.

(** *** Frames without content under auto-align *)






(** ** Statements about the chroma-key engine *)

Example ringBitmap_flood :
  fl_data <$> applyFloodFill ringBitmap 5 5 white magenta 0
  = Some (let K := [255; 0; 255; 255] in
          let W := [255; 255; 255; 255] in
          let R := [200; 30; 30; 255] in
          concat [ K; K; K; K; K;
                   K; R; R; R; K;
                   K; R; W; R; K;
                   K; R; R; R; K;
                   K; K; K; K; K ]).
Proof. vm_compute. reflexivity. Qed.

Example ringBitmap_global :
  applyGlobalKey ringBitmap white magenta 0
  = (let K := [255; 0; 255; 255] in
     let R := [200; 30; 30; 255] in
     concat [ K; K; K; K; K;
              K; R; R; R; K;
              K; R; K; R; K;
              K; R; R; R; K;
              K; K; K; K; K ]).
Proof. vm_compute. reflexivity. Qed.

Lemma applyFloodFill_spec data w h target key t :
  0 < w → 0 < h → Z.of_nat (length data) = 4 * w * h →
  ∃ st, applyFloodFill data w h target key t = Some st
    ∧ QueueInv w h st
    ∧ fl_head st = length (fl_queue st)
    ∧ length (fl_data st) = length data
    ∧ (∀ x y, 0 ≤ x < w → 0 ≤ y < h →
         (Reachable (λ x y, matches target t data ((y * w + x) * 4)) w h x y →
            pixelAt (fl_data st) (y * w + x) = keyPixel key)
         ∧ (¬ Reachable (λ x y, matches target t data ((y * w + x) * 4)) w h x y →
            pixelAt (fl_data st) (y * w + x) = pixelAt data (y * w + x))).
Proof.
  intros Hw Hh Hlen.
  destruct (floodFill_spec (matches target t) (λ d i, writeKey d i key) w h data Hw Hh)
    as (st & E & Hq & Hd & Hl & _ & Hpx).
  - intros. by apply matches_local.
  - intros. apply length_writeKey.
  - intros. by apply pixelAt_writeKey_other.
  - intros. by apply pixelAt_writeKey_local.
  - exists st. split_and!; try done.
    intros x y Hx Hy. destruct (Hpx x y Hx Hy) as [Hr Hn]. split; [|done].
    intros Hreach. rewrite (Hr Hreach).
    apply pixelAt_writeKey_inside; nia.
Qed.

Lemma Reachable_matches m w h x y : Reachable m w h x y → m x y = true.
Proof. by intros [|]. Qed.

Lemma adjacent_sym x y x' y' : adjacent x y x' y' → adjacent x' y' x y.
Proof. unfold adjacent. lia. Qed.

(** An enclosed region is out of reach of the border. *)
Lemma enclosed_unreachable m w h (region : Z → Z → Prop) :
  (∀ x y, region x y → 0 < x < w - 1 ∧ 0 < y < h - 1 ∧ m x y = true) →
  (∀ x y x' y', region x y → adjacent x y x' y' → region x' y' ∨ m x' y' = false) →
  ∀ x y, Reachable m w h x y → ¬ region x y.
Proof.
  intros Hin Hwall x y Hr.
  induction Hr as [x y Hx Hy Hb Hm|x y x' y' Hr IH Hx' Hy' Hadj Hm]; intros Hreg.
  - apply Hin in Hreg. lia.
  - destruct (Hwall x' y' x y Hreg (adjacent_sym _ _ _ _ Hadj)) as [?|Hf]; [done|].
    apply Reachable_matches in Hr. congruence.
Qed.

(** C3.  The flood-fill mode rewrites to the key colour exactly the pixels
    reachable from a matching border pixel through a chain of matching
    4-neighbours, and leaves every other pixel as it was; the global mode
    rewrites every matching pixel.  So a region of matching pixels that
    touches no border pixel and whose neighbours outside of it do not match
    is left unchanged by the flood fill and rewritten to the key colour by
    the global mode. *)
Theorem flood_fill_reaches data w h target key t :
  0 < w → 0 < h → Z.of_nat (length data) = 4 * w * h →
  let m := λ x y, matches target t data ((y * w + x) * 4) in
  ∃ st, applyFloodFill data w h target key t = Some st
    ∧ (∀ x y, 0 ≤ x < w → 0 ≤ y < h →
         (Reachable m w h x y → pixelAt (fl_data st) (y * w + x) = keyPixel key)
         ∧ (¬ Reachable m w h x y →
            pixelAt (fl_data st) (y * w + x) = pixelAt data (y * w + x)))
    ∧ (∀ x y, 0 ≤ x < w → 0 ≤ y < h →
         pixelAt (applyGlobalKey data target key t) (y * w + x)
         = if m x y then keyPixel key else pixelAt data (y * w + x))
    ∧ (∀ region : Z → Z → Prop,
         (∀ x y, region x y → 0 < x < w - 1 ∧ 0 < y < h - 1 ∧ m x y = true) →
         (∀ x y x' y', region x y → adjacent x y x' y' →
                       region x' y' ∨ m x' y' = false) →
         ∀ x y, region x y →
           pixelAt (fl_data st) (y * w + x) = pixelAt data (y * w + x)
           ∧ pixelAt (applyGlobalKey data target key t) (y * w + x) = keyPixel key).
Proof.
  intros Hw Hh Hlen m.
  destruct (applyFloodFill_spec data w h target key t Hw Hh Hlen)
    as (st & E & _ & _ & _ & Hpx).
  assert (∀ x y, 0 ≤ x < w → 0 ≤ y < h →
            pixelAt (applyGlobalKey data target key t) (y * w + x)
            = if m x y then keyPixel key else pixelAt data (y * w + x)) as Hglobal.
  { intros x y Hx Hy. apply (applyGlobalKey_pixel data target key t (w * h)); [lia|].
    by apply index_in_range. }
  exists st. split_and!; try done.
  intros region Hin Hwall x y Hreg.
  destruct (Hin x y Hreg) as (Hx & Hy & Hm). split.
  - apply Hpx; [lia..|]. intros Hr.
    by apply (enclosed_unreachable m w h region Hin Hwall x y Hr).
  - rewrite Hglobal by lia. by rewrite Hm.
Qed.

Lemma flood_fill_reaches_witness :
  ∃ st, applyFloodFill ringBitmap 5 5 white magenta 0 = Some st
    ∧ pixelAt (fl_data st) (2 * 5 + 2) = pixelAt ringBitmap (2 * 5 + 2)
    ∧ pixelAt (applyGlobalKey ringBitmap white magenta 0) (2 * 5 + 2) = keyPixel magenta.
Proof.
  destruct (flood_fill_reaches ringBitmap 5 5 white magenta 0)
    as (st & E & _ & _ & Hregion); [lia | lia | reflexivity |].
  assert (∀ x y, x = 2 ∧ y = 2 →
            0 < x < 5 - 1 ∧ 0 < y < 5 - 1
            ∧ matches white 0 ringBitmap ((y * 5 + x) * 4) = true) as Hin.
  { intros x y [-> ->]. split; [lia|]. split; [lia|]. reflexivity. }
  assert (∀ x y x' y', x = 2 ∧ y = 2 → adjacent x y x' y' →
            (x' = 2 ∧ y' = 2)
            ∨ matches white 0 ringBitmap ((y' * 5 + x') * 4) = false) as Hwall.
  { intros x y x' y' [-> ->] Hadj. right.
    destruct Hadj as [[-> ->]|[[-> ->]|[[-> ->]|[-> ->]]]]; reflexivity. }
  destruct (Hregion (λ x y, x = 2 ∧ y = 2) Hin Hwall 2 2 (conj eq_refl eq_refl))
    as [Hflood Hglobal].
  exists st. split; [exact E|]. split; [exact Hflood|exact Hglobal].
Defined.

(** C7.  In the export pipeline a pixel whose alpha is 0 is key in both
    modes, whatever its colour, the target and the threshold: the match
    predicate of the flood fill accepts it, so that it is queued when it is
    offered as a seed or as a neighbour, and the global mode rewrites it to
    the opaque key colour.  Where the flood fill reaches such a pixel, on
    the border or next to a reached pixel, both modes leave the same
    bytes. *)
Theorem zero_alpha_is_key data w h target key t x y r g b :
  0 < w → 0 < h → Z.of_nat (length data) = 4 * w * h →
  0 ≤ x < w → 0 ≤ y < h →
  pixelAt data (y * w + x) = [Some r; Some g; Some b; Some 0] →
  let m := λ x y, matches target t data ((y * w + x) * 4) in
  matches target t data ((y * w + x) * 4) = true
  ∧ pixelAt (applyGlobalKey data target key t) (y * w + x) = keyPixel key
  ∧ (∀ st, fl_data st = data → unvisited (fl_visited st) (y * w + x) = true →
       y * w + x ∈ fl_queue (enqueueIfMatch (matches target t) (y * w + x) st))
  ∧ ((x = 0 ∨ x = w - 1 ∨ y = 0 ∨ y = h - 1
      ∨ ∃ x0 y0, Reachable m w h x0 y0 ∧ adjacent x0 y0 x y) →
     ∃ st, applyFloodFill data w h target key t = Some st
       ∧ pixelAt (fl_data st) (y * w + x) = keyPixel key
       ∧ pixelAt (fl_data st) (y * w + x)
         = pixelAt (applyGlobalKey data target key t) (y * w + x)).
Proof.
  intros Hw Hh Hlen Hx Hy [= Hr Hg Hb Ha] m.
  assert (matches target t data ((y * w + x) * 4) = true) as Hm
    by (unfold matches; by rewrite Ha).
  assert (pixelAt (applyGlobalKey data target key t) (y * w + x) = keyPixel key) as Hglobal.
  { rewrite (applyGlobalKey_pixel data target key t (w * h)), Hm;
      [done|lia|by apply index_in_range]. }
  split_and!; try done.
  - intros st Hd Hu. unfold enqueueIfMatch. rewrite Hu, Hd, Hm. simpl.
    apply elem_of_app. right. by constructor.
  - intros Hreach.
    destruct (applyFloodFill_spec data w h target key t Hw Hh Hlen)
      as (st & E & _ & _ & _ & Hpx).
    assert (Reachable m w h x y) as Hr'.
    { assert (m x y = true) as Hm' by exact Hm.
      destruct Hreach as [?|[?|[?|[?|(x0 & y0 & Hr0 & Hadj)]]]];
        [apply Reachable_border; [done|done|tauto|done]..|].
      by eapply Reachable_step. }
    exists st. split; [done|].
    destruct (Hpx x y Hx Hy) as [Hk _]. rewrite Hglobal. split; by apply Hk.
Qed.

Lemma zero_alpha_is_key_witness :
  matches white 0 [10; 20; 30; 0] 0 = true
  ∧ pixelAt (applyGlobalKey [10; 20; 30; 0] white magenta 0) 0 = keyPixel magenta.
Proof.
  destruct (zero_alpha_is_key [10; 20; 30; 0] 1 1 white magenta 0 0 0 10 20 30)
    as (Hm & Hg & _); [lia | lia | reflexivity | lia | lia | reflexivity |].
  split; [exact Hm|exact Hg].
Defined.

Lemma FillBounded_of_queue w h data st :
  0 < w → 0 < h → Z.of_nat (length data) = 4 * w * h →
  QueueInv w h st → fl_head st = length (fl_queue st) →
  length (fl_data st) = length data →
  FillBounded w h data st.
Proof.
  intros Hw Hh Hlen Hq Hd Hl. pose proof (queue_bounded w h st Hq) as Hb.
  destruct Hq as [Hvl Hrange Hnd _ _ Htouched].
  unfold FillBounded. split_and!; try done; [nia|].
  eapply Forall_impl; [exact Htouched|]. intros v Hv. split; [done|].
  simpl in Hv. intros k Hk. apply aget_in_range. rewrite Hlen, <- Z.mul_assoc. lia.
Qed.

(** C10.  On a bitmap of width w > 0 and height h > 0 the flood fill
    terminates, in the export pipeline and in the preview player: run with
    w*h iterations allowed, the loop drains its queue.  No pixel index is
    queued twice, the queue never holds more than w*h entries, the loop
    runs once per entry, and every pixel it reads or writes lies inside the
    bitmap. *)
Theorem flood_fill_terminates data w h target key t :
  0 < w → 0 < h → Z.of_nat (length data) = 4 * w * h →
  (∃ st, applyFloodFill data w h target key t = Some st ∧ FillBounded w h data st)
  ∧ (∃ st, previewFloodFill data w h target t = Some st ∧ FillBounded w h data st).
Proof.
  intros Hw Hh Hlen. split.
  - destruct (applyFloodFill_spec data w h target key t Hw Hh Hlen)
      as (st & E & Hq & Hd & Hl & _).
    exists st. split; [done|]. by apply FillBounded_of_queue.
  - destruct (floodFill_spec (previewKeyed target t) (λ d i, aset d (i + 3) 0)
                w h data Hw Hh) as (st & E & Hq & Hd & Hl & _).
    + intros. by apply previewKeyed_local.
    + intros. apply length_aset.
    + intros. by apply pixelAt_alpha_other.
    + intros. by apply pixelAt_alpha_local.
    + exists st. split; [done|]. by apply FillBounded_of_queue.
Qed.

Lemma flood_fill_terminates_witness :
  ∃ st, applyFloodFill ringBitmap 5 5 white magenta 0 = Some st
        ∧ FillBounded 5 5 ringBitmap st.
Proof.
  destruct (flood_fill_terminates ringBitmap 5 5 white magenta 0) as [H _];
    [lia | lia | reflexivity |].
  exact H.
Defined.

(** * Further properties of the code *)

(** ** Sequencer, preview and overlay agree on the cells *)

Lemma elem_of_tempCoords order rows cols t :
  t ∈ tempCoords order rows cols
  ↔ 0 ≤ t_r t < rows ∧ 0 ≤ t_c t < cols
    ∧ t_index t = match order with
                  | RowMajor => t_r t * cols + t_c t
                  | ColumnMajor => t_c t * rows + t_r t
                  end.
Proof.
  unfold tempCoords. destruct order; split.
  - intros (r & Ht & Hr%elem_of_seqZ)%list_elem_of_bind.
    apply list_elem_of_bind in Ht as (c & Ht & Hc%elem_of_seqZ).
    apply list_elem_of_singleton in Ht as ->. simpl. lia.
  - intros (Hr & Hc & Hi). apply list_elem_of_bind. exists (t_r t).
    split; [|apply elem_of_seqZ; lia].
    apply list_elem_of_bind. exists (t_c t). split; [|apply elem_of_seqZ; lia].
    apply list_elem_of_singleton. destruct t; simpl in *. by subst.
  - intros (c & Ht & Hc%elem_of_seqZ)%list_elem_of_bind.
    apply list_elem_of_bind in Ht as (r & Ht & Hr%elem_of_seqZ).
    apply list_elem_of_singleton in Ht as ->. simpl. lia.
  - intros (Hr & Hc & Hi). apply list_elem_of_bind. exists (t_c t).
    split; [|apply elem_of_seqZ; lia].
    apply list_elem_of_bind. exists (t_r t). split; [|apply elem_of_seqZ; lia].
    apply list_elem_of_singleton. destruct t; simpl in *. by subst.
Qed.

Lemma elem_of_validFrameCoordinates cfg f :
  f ∈ validFrameCoordinates cfg
  ↔ 0 ≤ f_r f < rows cfg ∧ 0 ≤ f_c f < cols cfg
    ∧ originalIndex f = match readOrder cfg with
                        | RowMajor => f_r f * cols cfg + f_c f
                        | ColumnMajor => f_c f * rows cfg + f_r f
                        end
    ∧ originalIndex f < totalFrames cfg
    ∧ originalIndex f ∉ excludedFrames cfg.
Proof.
  unfold validFrameCoordinates. rewrite list_elem_of_fmap. split.
  - intros (t & -> & Ht). apply list_elem_of_filter in Ht as [Hk Ht].
    apply elem_of_tempCoords in Ht. apply keepIndex_true in Hk. simpl. tauto.
  - intros (Hr & Hc & Hi & Hlt & Hex).
    exists {| t_r := f_r f; t_c := f_c f; t_index := originalIndex f |}.
    split; [by destruct f|]. apply list_elem_of_filter. split.
    + apply keepIndex_true. simpl. done.
    + apply elem_of_tempCoords. simpl. done.
Qed.

(** X1.  For every frame the export sequencer emits, the preview player's
    reverse lookup of its index gives back the frame's row and column: the
    preview draws the cell the export draws. *)
Theorem preview_cell_roundtrip cfg f :
  f ∈ validFrameCoordinates cfg →
  previewCell cfg (originalIndex f) = (f_r f, f_c f).
Proof.
  intros (Hr & Hc & Hi & _)%elem_of_validFrameCoordinates.
  unfold previewCell. rewrite Hi. destruct (readOrder cfg).
  - destruct (index_coords (cols cfg) (f_c f) (f_r f)) as [-> ->]; [lia..|done].
  - destruct (index_coords (rows cfg) (f_r f) (f_c f)) as [-> ->]; [lia..|done].
Qed.

Lemma preview_cell_roundtrip_witness :
  previewCell (gridConfig ColumnMajor 2 3 6 []) 3 = (1, 1).
Proof.
  apply (preview_cell_roundtrip (gridConfig ColumnMajor 2 3 6 [])
           {| f_r := 1; f_c := 1; originalIndex := 3 |}).
  apply (list_elem_of_lookup_2 _ 3%nat). reflexivity.
Defined.

Lemma grid_position cols rows i :
  0 < cols → 0 ≤ i < rows * cols →
  0 ≤ i / cols < rows ∧ 0 ≤ Z.rem i cols < cols
  ∧ i = i / cols * cols + Z.rem i cols.
Proof.
  intros Hc Hi. rewrite Z.rem_mod_nonneg by lia.
  pose proof (Z.mod_pos_bound i cols Hc). pose proof (Z.div_mod i cols ltac:(lia)).
  split_and!; try lia.
  - apply Z.div_pos; lia.
  - apply Z.div_lt_upper_bound; lia.
Qed.

(** X2.  The grid overlay shows a cell as selectable and not excluded
    exactly when the export sequencer emits the frame of that cell with the
    index the overlay displays, and every emitted frame has its cell in the
    overlay; there is no overlay without an image or with a non-positive
    grid. *)
Theorem overlay_matches_export hasImage cfg :
  (renderGridOverlay hasImage cfg = None
   ↔ hasImage = false ∨ cols cfg ≤ 0 ∨ rows cfg ≤ 0)
  ∧ (∀ cells, renderGridOverlay hasImage cfg = Some cells →
       length cells = Z.to_nat (rows cfg * cols cfg)
       ∧ (∀ cell, cell ∈ cells →
            (oc_isExcluded cell = false ∧ oc_isOutOfRange cell = false)
            ↔ {| f_r := oc_r cell; f_c := oc_c cell;
                 originalIndex := oc_seqIndex cell |} ∈ validFrameCoordinates cfg)
       ∧ (∀ f, f ∈ validFrameCoordinates cfg →
            {| oc_r := f_r f; oc_c := f_c f; oc_seqIndex := originalIndex f;
               oc_isExcluded := false; oc_isOutOfRange := false |} ∈ cells)).
Proof.
  unfold renderGridOverlay.
  destruct hasImage, (Z.leb_spec (cols cfg) 0) as [Hc|Hc],
    (Z.leb_spec (rows cfg) 0) as [Hr|Hr]; simpl;
    try (split; [split; [auto|done]|done]).
  split; [split; [done|intros [?|[?|?]]; (done || lia)]|].
  intros cells [= <-]. split_and!.
  - by rewrite length_fmap, length_seqZ.
  - intros cell (i & -> & Hi%elem_of_seqZ)%list_elem_of_fmap. simpl.
    destruct (grid_position (cols cfg) (rows cfg) i) as (Hr' & Hc' & _); [lia..|].
    rewrite elem_of_validFrameCoordinates. simpl.
    rewrite bool_decide_eq_false, Z.leb_gt.
    destruct (readOrder cfg); intuition lia.
  - intros f (Hr' & Hc' & Hi & Hlt & Hex)%elem_of_validFrameCoordinates.
    apply list_elem_of_fmap. exists (f_r f * cols cfg + f_c f).
    destruct (index_coords (cols cfg) (f_c f) (f_r f)) as [E1 E2]; [lia..|].
    split; [|apply elem_of_seqZ; nia].
    rewrite E1, E2. f_equal.
    + destruct (readOrder cfg); lia.
    + symmetry. rewrite bool_decide_eq_false.
      replace (match readOrder cfg with
               | RowMajor => f_r f * cols cfg + f_c f
               | ColumnMajor => f_c f * rows cfg + f_r f
               end) with (originalIndex f); done.
    + symmetry. apply Z.leb_gt.
      replace (match readOrder cfg with
               | RowMajor => f_r f * cols cfg + f_c f
               | ColumnMajor => f_c f * rows cfg + f_r f
               end) with (originalIndex f); done.
Qed.

(** ** Excluding frames *)

Lemma elem_of_toggled index cfg i :
  i ∈ excludedFrames (handleToggleFrame index cfg)
  ↔ (i ≠ index ∧ i ∈ excludedFrames cfg)
    ∨ (i = index ∧ index ∉ excludedFrames cfg).
Proof.
  unfold handleToggleFrame. simpl.
  destruct (bool_decide_reflect (index ∈ excludedFrames cfg)) as [Hin|Hnin].
  - rewrite list_elem_of_filter. intuition congruence.
  - rewrite elem_of_app, list_elem_of_singleton.
    destruct (decide (i = index)) as [->|Hne]; intuition congruence.
Qed.

(** X3.  Toggling a frame flips whether that index is excluded and leaves
    every other index as it was; a list without repetition, or without
    negative entries, stays so when the toggled index is not negative. *)
Theorem toggle_flips_one index cfg :
  (index ∈ excludedFrames (handleToggleFrame index cfg)
   ↔ index ∉ excludedFrames cfg)
  ∧ (∀ i, i ≠ index →
       i ∈ excludedFrames (handleToggleFrame index cfg) ↔ i ∈ excludedFrames cfg)
  ∧ (NoDup (excludedFrames cfg) → NoDup (excludedFrames (handleToggleFrame index cfg)))
  ∧ (0 ≤ index → Forall (λ i, 0 ≤ i) (excludedFrames cfg) →
     Forall (λ i, 0 ≤ i) (excludedFrames (handleToggleFrame index cfg))).
Proof.
  split_and!.
  - rewrite elem_of_toggled. intuition congruence.
  - intros i Hne. rewrite elem_of_toggled. intuition congruence.
  - intros Hnd. unfold handleToggleFrame. simpl.
    destruct (bool_decide_reflect (index ∈ excludedFrames cfg)) as [Hin|Hnin].
    + by apply NoDup_filter.
    + apply NoDup_app. split_and!; [done| |apply NoDup_singleton].
      intros i Hi ->%list_elem_of_singleton. done.
  - intros Hi Hall. rewrite Forall_forall in Hall |- *.
    intros i [[_ Hin]|[-> _]]%elem_of_toggled; [by apply Hall|done].
Qed.

(** The sequence depends on the excluded list through membership only. *)
Lemma validFrameCoordinates_excluded_ext cfg1 cfg2 :
  rows cfg1 = rows cfg2 → cols cfg1 = cols cfg2 →
  totalFrames cfg1 = totalFrames cfg2 → readOrder cfg1 = readOrder cfg2 →
  (∀ i, i ∈ excludedFrames cfg1 ↔ i ∈ excludedFrames cfg2) →
  validFrameCoordinates cfg1 = validFrameCoordinates cfg2.
Proof.
  intros Hr Hc Ht Ho He. unfold validFrameCoordinates. rewrite Hr, Hc, Ht, Ho.
  f_equal. apply list_filter_iff. intros t. rewrite !keepIndex_true, He. done.
Qed.

Lemma filter_fmap_list {A B} (f : A → B) (P : B → Prop) `{∀ x, Decision (P x)}
    (l : list A) :
  filter P (f <$> l) = f <$> filter (λ x, P (f x)) l.
Proof.
  induction l as [|a l IH]; [done|].
  rewrite fmap_cons, !filter_cons, IH. by destruct (decide (P (f a))).
Qed.

(** X4.  Excluding a frame that is emitted removes exactly that frame from
    the export sequence and keeps the others in order; toggling the same
    index once more restores the sequence. *)
Theorem toggle_removes_frame index cfg :
  index ∉ excludedFrames cfg →
  validFrameCoordinates (handleToggleFrame index cfg)
  = filter (λ f, originalIndex f ≠ index) (validFrameCoordinates cfg)
  ∧ validFrameCoordinates (handleToggleFrame index (handleToggleFrame index cfg))
    = validFrameCoordinates cfg.
Proof.
  intros Hnin. split.
  - unfold validFrameCoordinates. rewrite filter_fmap_list. f_equal.
    change (rows (handleToggleFrame index cfg)) with (rows cfg).
    change (cols (handleToggleFrame index cfg)) with (cols cfg).
    change (readOrder (handleToggleFrame index cfg)) with (readOrder cfg).
    change (totalFrames (handleToggleFrame index cfg)) with (totalFrames cfg).
    rewrite list_filter_filter. apply list_filter_iff. intros t.
    cbv beta. cbn [originalIndex].
    rewrite !keepIndex_true, elem_of_toggled. intuition congruence.
  - apply validFrameCoordinates_excluded_ext; try done.
    intros i. rewrite !elem_of_toggled. destruct (decide (i = index)); intuition congruence.
Qed.

Lemma toggle_removes_frame_witness :
  originalIndex <$> validFrameCoordinates (handleToggleFrame 2 (gridConfig RowMajor 2 2 4 []))
  = [0; 1; 3].
Proof.
  destruct (toggle_removes_frame 2 (gridConfig RowMajor 2 2 4 [])) as [H _];
    [apply not_elem_of_nil|].
  rewrite H. reflexivity.
Defined.

(** X5.  With 0 <= totalFrames <= rows*cols and an excluded list without
    repetition and without negative entries (as toggling overlay cells
    produces), the frame count the settings panel displays is the number of
    frames the export emits. *)
Theorem displayed_count_is_emitted cfg :
  0 ≤ totalFrames cfg ≤ Z.max 0 (rows cfg) * Z.max 0 (cols cfg) →
  NoDup (excludedFrames cfg) →
  Forall (λ i, 0 ≤ i) (excludedFrames cfg) →
  displayedFrameCount cfg = Z.of_nat (length (validFrameCoordinates cfg)).
Proof.
  intros Ht Hnd Hpos. pose proof (emitted_count cfg Ht) as Hcount.
  assert (length (excludedInRange cfg)
          = length (filter (λ i, i < totalFrames cfg) (excludedFrames cfg))) as E.
  { unfold excludedInRange.
    rewrite (filter_ext_in (λ e, 0 ≤ e < totalFrames cfg) (λ i, i < totalFrames cfg))
      by (eapply Forall_impl; [exact Hpos|]; simpl; intros; lia).
    apply Permutation_length, NoDup_Permutation.
    - apply NoDup_remove_dups.
    - by apply NoDup_filter.
    - intros x. apply elem_of_remove_dups. }
  unfold displayedFrameCount. rewrite <- E. lia.
Qed.

Lemma displayed_count_is_emitted_witness :
  displayedFrameCount (gridConfig RowMajor 2 2 4 [2; 0])
  = Z.of_nat (length (validFrameCoordinates (gridConfig RowMajor 2 2 4 [2; 0]))).
Proof.
  apply displayed_count_is_emitted.
  - simpl. lia.
  - simpl. apply NoDup_cons. split; [|apply NoDup_singleton].
    intros H%list_elem_of_singleton. discriminate.
  - simpl. repeat constructor; lia.
Defined.

(** ** The export pipeline: failure and emission *)







(** ** The analyzer's box and the auto-align placement *)

Lemma getContentBoundingBox_bounds data w h tRGB t b :
  getContentBoundingBox data w h tRGB t = Some b →
  0 ≤ minX b ≤ maxX b ∧ maxX b < w
  ∧ 0 ≤ minY b ≤ maxY b ∧ maxY b < h
  ∧ 1 ≤ bb_width b ≤ w ∧ 1 ≤ bb_height b ≤ h.
Proof.
  intros E.
  destruct (getContentBoundingBox_Some data w h tRGB t b E)
    as (Hin & (y1 & H1) & (y2 & H2) & (x3 & H3) & (x4 & H4) & Hw & Hh).
  pose proof (Hin _ _ H1). pose proof (Hin _ _ H3).
  destruct H1 as (? & ? & _), H2 as (? & ? & _), H3 as (? & ? & _), H4 as (? & ? & _).
  lia.
Qed.

(** X15.  A box the analyzer returns lies inside the bitmap it scanned:
    0 <= minX <= maxX < width, 0 <= minY <= maxY < height, so its width and
    height are at least 1 and at most those of the bitmap. *)
Theorem bounding_box_within data w h tRGB t b :
  getContentBoundingBox data w h tRGB t = Some b →
  0 ≤ minX b ≤ maxX b ∧ maxX b < w
  ∧ 0 ≤ minY b ≤ maxY b ∧ maxY b < h
  ∧ 1 ≤ bb_width b ≤ w ∧ 1 ≤ bb_height b ≤ h.
Proof. apply getContentBoundingBox_bounds. Qed.

Lemma bounding_box_within_witness :
  0 ≤ 5 ≤ 5 ∧ 5 < 6 ∧ 0 ≤ 5 ≤ 5 ∧ 5 < 6 ∧ 1 ≤ 1 ≤ 6 ∧ 1 ≤ 1 ≤ 6.
Proof.
  assert (getContentBoundingBox onePixelBitmap 6 6 None 0
          = Some {| minX := 5; minY := 5; maxX := 5; maxY := 5;
                    bb_width := 1; bb_height := 1 |}) as E
    by (vm_compute; reflexivity).
  exact (bounding_box_within onePixelBitmap 6 6 None 0 _ E).
Defined.

Lemma analysis_fold_max env cfg geo ks frames : ∀ a0,
  maxW a0 ≤ maxW (foldl (analyseFrame env cfg geo ks) a0 frames)
  ∧ maxH a0 ≤ maxH (foldl (analyseFrame env cfg geo ks) a0 frames)
  ∧ ∀ f b, f ∈ frames → frameBBox env cfg geo ks f = Some b →
      bb_width b ≤ maxW (foldl (analyseFrame env cfg geo ks) a0 frames)
      ∧ bb_height b ≤ maxH (foldl (analyseFrame env cfg geo ks) a0 frames).
Proof.
  induction frames as [|g gs IH]; intros a0.
  - simpl. split_and!; try lia. intros f b Hf. inv Hf.
  - simpl. destruct (IH (analyseFrame env cfg geo ks a0 g)) as (Hw & Hh & Hall).
    assert (maxW a0 ≤ maxW (analyseFrame env cfg geo ks a0 g)
            ∧ maxH a0 ≤ maxH (analyseFrame env cfg geo ks a0 g)) as [Hw0 Hh0].
    { unfold analyseFrame. simpl. destruct (frameBBox env cfg geo ks g); lia. }
    split_and!; try lia.
    intros f b [->|Hf]%elem_of_cons Hb; [|by apply (Hall f b)].
    assert (bb_width b ≤ maxW (analyseFrame env cfg geo ks a0 g)
            ∧ bb_height b ≤ maxH (analyseFrame env cfg geo ks a0 g)) as [? ?].
    { unfold analyseFrame. simpl. rewrite Hb. lia. }
    lia.
Qed.

Lemma Qfloor_half (n : Z) : Qfloor (inject_Z n / 2) = n / 2.
Proof. by rewrite Zdiv_Qdiv. Qed.

(** The drawing of a frame that has a box, under auto-align. *)
Lemma aligned_draw env cfg dims f b :
  autoAlign cfg = true → analysisCtx env = true → (0 <= scale cfg)%Q →
  f ∈ validFrameCoordinates cfg →
  frameBBox env cfg (geometry cfg dims) (keySetup cfg) f = Some b →
  let geo := geometry cfg dims in
  let ks := keySetup cfg in
  let a := analysis env cfg geo ks (validFrameCoordinates cfg) in
  let rc := renderCtx env cfg geo a in
  let dw := Qfloor (inject_Z (bb_width b) * scale cfg) in
  let dh := Qfloor (inject_Z (bb_height b) * scale cfg) in
  let dx := (rc_logicalWidth rc - dw) / 2 in
  let dy := match alignMode cfg with
            | AlignBottom => rc_logicalHeight rc - dh
            | AlignCenter => (rc_logicalHeight rc - dh) / 2
            end in
  DrawImage BufferCanvas
    (inject_Z (f_c f) * frameWidthRaw geo + left (crop cfg) + inject_Z (minX b))
    (inject_Z (f_r f) * frameHeightRaw geo + top (crop cfg) + inject_Z (minY b))
    (inject_Z (bb_width b)) (inject_Z (bb_height b))
    (inject_Z dx) (inject_Z dy) (inject_Z dw) (inject_Z dh)
    ∈ renderFrame cfg geo ks a rc f
  ∧ 0 ≤ dw ≤ rc_logicalWidth rc ∧ 0 ≤ dh ≤ rc_logicalHeight rc.
Proof.
  intros Ha Hctx Hs Hf Hb geo ks a rc dw dh dx dy.
  assert (frameBBoxes a !! originalIndex f = Some (Some b)) as Hget.
  { subst a. rewrite frameBBoxes_get by done. rewrite Ha, Hctx. cbn [andb].
    f_equal. exact Hb. }
  split.
  - unfold renderFrame. rewrite Ha, Hget. rewrite !elem_of_app.
    right. right. left. apply list_elem_of_singleton.
    subst dx dy dw dh. rewrite !Qfloor_half. by destruct (alignMode cfg).
  - destruct (getContentBoundingBoxD_bounds _ _ _ _ _ b Hb) as (_ & _ & _ & _ & Hbw & Hbh).
    assert (bb_width b ≤ maxW a ∧ bb_height b ≤ maxH a) as [Hmw Hmh].
    { subst a. unfold analysis. rewrite Ha, Hctx. cbn [andb].
      match goal with
      | |- context [foldl _ ?a0 _] =>
          destruct (analysis_fold_max env cfg geo ks (validFrameCoordinates cfg) a0)
            as (_ & _ & Hall)
      end.
      by apply (Hall f b). }
    assert (rc_logicalWidth rc = Qfloor (inject_Z (maxW a + 2) * scale cfg)
            ∧ rc_logicalHeight rc = Qfloor (inject_Z (maxH a + 2) * scale cfg)) as [-> ->].
    { subst rc. unfold renderCtx, finalSize.
      destruct (Z.ltb_spec 0 (maxW a)); [|lia].
      destruct (Z.ltb_spec 0 (maxH a)); [|lia]. done. }
    assert (∀ n k : Z, 0 ≤ n ≤ k →
              0 ≤ Qfloor (inject_Z n * scale cfg) ≤ Qfloor (inject_Z k * scale cfg))
      as Hmono.
    { intros n k Hnk. split.
      - rewrite <- (Qfloor_Z 0). apply Qfloor_resp_le.
        apply Qmult_le_0_compat; [|done].
        change (inject_Z 0 <= inject_Z n)%Q. rewrite <- Zle_Qle. lia.
      - apply Qfloor_resp_le, Qmult_le_compat_r; [|done]. rewrite <- Zle_Qle. lia. }
    subst dw dh. split; apply Hmono; lia.
Qed.

(** X8.  Under auto-align with a non-negative scale, a frame that has a
    box is drawn from exactly that box of its cell, scaled by [scale], and
    the scaled box fits in the logical canvas: it is placed at
    non-negative coordinates and ends within the canvas in both axes. *)
Theorem aligned_box_fits env cfg dims f b :
  autoAlign cfg = true → analysisCtx env = true → (0 <= scale cfg)%Q →
  f ∈ validFrameCoordinates cfg →
  frameBBox env cfg (geometry cfg dims) (keySetup cfg) f = Some b →
  let geo := geometry cfg dims in
  let ks := keySetup cfg in
  let a := analysis env cfg geo ks (validFrameCoordinates cfg) in
  let rc := renderCtx env cfg geo a in
  ∃ dx dy dw dh,
    DrawImage BufferCanvas
      (inject_Z (f_c f) * frameWidthRaw geo + left (crop cfg) + inject_Z (minX b))
      (inject_Z (f_r f) * frameHeightRaw geo + top (crop cfg) + inject_Z (minY b))
      (inject_Z (bb_width b)) (inject_Z (bb_height b))
      (inject_Z dx) (inject_Z dy) (inject_Z dw) (inject_Z dh)
      ∈ renderFrame cfg geo ks a rc f
    ∧ dw = Qfloor (inject_Z (bb_width b) * scale cfg)
    ∧ dh = Qfloor (inject_Z (bb_height b) * scale cfg)
    ∧ 0 ≤ dx ∧ 0 ≤ dw ∧ dx + dw ≤ rc_logicalWidth rc
    ∧ 0 ≤ dy ∧ 0 ≤ dh ∧ dy + dh ≤ rc_logicalHeight rc.
Proof.
  intros Ha Hctx Hs Hf Hb geo ks a rc.
  destruct (aligned_draw env cfg dims f b Ha Hctx Hs Hf Hb) as (Hin & Hdw & Hdh).
  fold geo ks a rc in Hin, Hdw, Hdh.
  eexists _, _, _, _. split; [exact Hin|].
  split; [done|]. split; [done|].
  set (dw := Qfloor (inject_Z (bb_width b) * scale cfg)) in *.
  set (dh := Qfloor (inject_Z (bb_height b) * scale cfg)) in *.
  pose proof (Z.div_mod (rc_logicalWidth rc - dw) 2 ltac:(lia)).
  pose proof (Z.mod_pos_bound (rc_logicalWidth rc - dw) 2 ltac:(lia)).
  pose proof (Z.div_mod (rc_logicalHeight rc - dh) 2 ltac:(lia)).
  pose proof (Z.mod_pos_bound (rc_logicalHeight rc - dh) 2 ltac:(lia)).
  destruct (alignMode cfg); lia.
Qed.

Lemma onePixel_box :
  frameBBox onePixelBrowser cfgAligned (geometry cfgAligned {| width := 6; height := 6 |})
            (keySetup cfgAligned) {| f_r := 0; f_c := 0; originalIndex := 0 |}
  = Some {| minX := 5; minY := 5; maxX := 5; maxY := 5; bb_width := 1; bb_height := 1 |}.
Proof. vm_compute. reflexivity. Qed.

Lemma aligned_box_fits_witness :
  ∃ dx dy dw dh,
    DrawImage BufferCanvas (0 * (6 / 1) + 0 + 5) (0 * (6 / 1) + 0 + 5) 1 1
      (inject_Z dx) (inject_Z dy) (inject_Z dw) (inject_Z dh)
      ∈ renderFrame cfgAligned (geometry cfgAligned {| width := 6; height := 6 |})
          (keySetup cfgAligned)
          (analysis onePixelBrowser cfgAligned
             (geometry cfgAligned {| width := 6; height := 6 |}) (keySetup cfgAligned)
             (validFrameCoordinates cfgAligned))
          (renderCtx onePixelBrowser cfgAligned
             (geometry cfgAligned {| width := 6; height := 6 |})
             (analysis onePixelBrowser cfgAligned
                (geometry cfgAligned {| width := 6; height := 6 |}) (keySetup cfgAligned)
                (validFrameCoordinates cfgAligned)))
          {| f_r := 0; f_c := 0; originalIndex := 0 |}
    ∧ 0 ≤ dx ∧ 0 ≤ dy.
Proof.
  destruct (aligned_box_fits onePixelBrowser cfgAligned {| width := 6; height := 6 |}
              {| f_r := 0; f_c := 0; originalIndex := 0 |}
              {| minX := 5; minY := 5; maxX := 5; maxY := 5;
                 bb_width := 1; bb_height := 1 |})
    as (dx & dy & dw & dh & Hin & _ & _ & Hx & _ & _ & Hy & _).
  - reflexivity.
  - reflexivity.
  - vm_compute. discriminate.
  - apply (list_elem_of_lookup_2 _ 0%nat). reflexivity.
  - exact onePixel_box.
  - exists dx, dy, dw, dh. split; [exact Hin|]. split; [exact Hx|exact Hy].
Defined.

(** X9.  Under auto-align the scaled box is centred horizontally, the left
    margin being the smaller one when the free width is odd; vertically it
    is centred in the same way in center mode, and in bottom mode its lower
    edge is the lower edge of the canvas, for every frame alike. *)
Theorem aligned_box_placement env cfg dims f b :
  autoAlign cfg = true → analysisCtx env = true → (0 <= scale cfg)%Q →
  f ∈ validFrameCoordinates cfg →
  frameBBox env cfg (geometry cfg dims) (keySetup cfg) f = Some b →
  let geo := geometry cfg dims in
  let ks := keySetup cfg in
  let a := analysis env cfg geo ks (validFrameCoordinates cfg) in
  let rc := renderCtx env cfg geo a in
  ∃ sx sy dx dy dw dh,
    DrawImage BufferCanvas sx sy (inject_Z (bb_width b)) (inject_Z (bb_height b))
      (inject_Z dx) (inject_Z dy) (inject_Z dw) (inject_Z dh)
      ∈ renderFrame cfg geo ks a rc f
    ∧ 0 ≤ (rc_logicalWidth rc - dw - dx) - dx ≤ 1
    ∧ match alignMode cfg with
      | AlignBottom => dy + dh = rc_logicalHeight rc
      | AlignCenter => 0 ≤ (rc_logicalHeight rc - dh - dy) - dy ≤ 1
      end.
Proof.
  intros Ha Hctx Hs Hf Hb geo ks a rc.
  destruct (aligned_draw env cfg dims f b Ha Hctx Hs Hf Hb) as (Hin & Hdw & Hdh).
  fold geo ks a rc in Hin, Hdw, Hdh.
  eexists _, _, _, _, _, _. split; [exact Hin|].
  set (dw := Qfloor (inject_Z (bb_width b) * scale cfg)) in *.
  set (dh := Qfloor (inject_Z (bb_height b) * scale cfg)) in *.
  pose proof (Z.div_mod (rc_logicalWidth rc - dw) 2 ltac:(lia)).
  pose proof (Z.mod_pos_bound (rc_logicalWidth rc - dw) 2 ltac:(lia)).
  pose proof (Z.div_mod (rc_logicalHeight rc - dh) 2 ltac:(lia)).
  pose proof (Z.mod_pos_bound (rc_logicalHeight rc - dh) 2 ltac:(lia)).
  destruct (alignMode cfg); lia.
Qed.

Lemma aligned_box_placement_witness :
  ∃ sx sy dx dy dw dh,
    DrawImage BufferCanvas sx sy 1 1
      (inject_Z dx) (inject_Z dy) (inject_Z dw) (inject_Z dh)
      ∈ renderFrame cfgAligned (geometry cfgAligned {| width := 6; height := 6 |})
          (keySetup cfgAligned)
          (analysis onePixelBrowser cfgAligned
             (geometry cfgAligned {| width := 6; height := 6 |}) (keySetup cfgAligned)
             (validFrameCoordinates cfgAligned))
          (renderCtx onePixelBrowser cfgAligned
             (geometry cfgAligned {| width := 6; height := 6 |})
             (analysis onePixelBrowser cfgAligned
                (geometry cfgAligned {| width := 6; height := 6 |}) (keySetup cfgAligned)
                (validFrameCoordinates cfgAligned)))
          {| f_r := 0; f_c := 0; originalIndex := 0 |}.
Proof.
  destruct (aligned_box_placement onePixelBrowser cfgAligned {| width := 6; height := 6 |}
              {| f_r := 0; f_c := 0; originalIndex := 0 |}
              {| minX := 5; minY := 5; maxX := 5; maxY := 5;
                 bb_width := 1; bb_height := 1 |})
    as (sx & sy & dx & dy & dw & dh & Hin & _).
  - reflexivity.
  - reflexivity.
  - vm_compute. discriminate.
  - apply (list_elem_of_lookup_2 _ 0%nat). reflexivity.
  - exact onePixel_box.
  - exists sx, sy, dx, dy, dw, dh. exact Hin.
Defined.

(** ** Colours *)

Lemma hexDigit_range ch v : hexDigit ch = Some v → 0 ≤ v ≤ 15.
Proof.
  unfold hexDigit. set (n := Z.of_N (N_of_ascii ch)).
  destruct (Z.leb_spec 48 n), (Z.leb_spec n 57); simpl; try (intros [= <-]; lia);
    destruct (Z.leb_spec 97 n), (Z.leb_spec n 102); simpl; try (intros [= <-]; lia);
    destruct (Z.leb_spec 65 n), (Z.leb_spec n 70); simpl; try (intros [= <-]; lia);
    discriminate.
Qed.

Lemma hexByte_range hi lo v : hexByte hi lo = Some v → 0 ≤ v ≤ 255.
Proof.
  unfold hexByte. destruct (hexDigit hi) as [h|] eqn:Hh; [|discriminate].
  destruct (hexDigit lo) as [l|] eqn:Hl; [|discriminate]. simpl. intros [= <-].
  apply hexDigit_range in Hh, Hl. lia.
Qed.

(** X11.  [hexToRgb] accepts exactly six hexadecimal digits after an
    optional [#]: on success the three components are bytes, each being 16
    times its first digit plus its second, and the string has six
    characters, or seven of which the first is [#]; the [#] changes
    nothing. *)
Theorem hexToRgb_parses hex c :
  hexToRgb hex = Some c →
  (0 ≤ rgb_r c ≤ 255 ∧ 0 ≤ rgb_g c ≤ 255 ∧ 0 ≤ rgb_b c ≤ 255)
  ∧ ∃ r1 r2 g1 g2 b1 b2,
      let digits := String r1 (String r2 (String g1 (String g2 (String b1
                      (String b2 EmptyString))))) in
      (hex = digits ∨ hex = String "#" digits)
      ∧ hexByte r1 r2 = Some (rgb_r c) ∧ hexByte g1 g2 = Some (rgb_g c)
      ∧ hexByte b1 b2 = Some (rgb_b c)
      ∧ hexToRgb digits = Some c ∧ hexToRgb (String "#" digits) = Some c.
Proof.
  assert (∀ s, (match list_ascii_of_string s with
                | [r1; r2; g1; g2; b1; b2] =>
                    r ← hexByte r1 r2; g ← hexByte g1 g2; b ← hexByte b1 b2;
                    Some {| rgb_r := r; rgb_g := g; rgb_b := b |}
                | _ => None
                end = Some c) →
          ∃ r1 r2 g1 g2 b1 b2,
            s = String r1 (String r2 (String g1 (String g2 (String b1
                  (String b2 EmptyString)))))
            ∧ hexByte r1 r2 = Some (rgb_r c) ∧ hexByte g1 g2 = Some (rgb_g c)
            ∧ hexByte b1 b2 = Some (rgb_b c)) as Hdigits.
  { intros s.
    destruct s as [|r1 [|r2 [|g1 [|g2 [|b1 [|b2 [|? ?]]]]]]]; simpl; try discriminate.
    destruct (hexByte r1 r2) as [r|] eqn:Hr; [|discriminate].
    destruct (hexByte g1 g2) as [g|] eqn:Hg; [|discriminate].
    destruct (hexByte b1 b2) as [b|] eqn:Hb; [|discriminate].
    simpl. intros [= <-]. by exists r1, r2, g1, g2, b1, b2. }
  assert (∀ r1 rest v, hexByte r1 rest = Some v → r1 ≠ "#"%char) as Hnothash.
  { intros r1 rest v Hv ->. discriminate. }
  assert (∀ r1 s, r1 ≠ "#"%char →
            hexToRgb (String r1 s)
            = match list_ascii_of_string (String r1 s) with
              | [r1; r2; g1; g2; b1; b2] =>
                  r ← hexByte r1 r2; g ← hexByte g1 g2; b ← hexByte b1 b2;
                  Some {| rgb_r := r; rgb_g := g; rgb_b := b |}
              | _ => None
              end) as Hplain.
  { intros r1 s Hne. unfold hexToRgb.
    destruct r1 as [[] [] [] [] [] [] [] []]; try reflexivity. by destruct Hne. }
  intros Hc.
  assert (∃ r1 r2 g1 g2 b1 b2,
            (hex = String r1 (String r2 (String g1 (String g2 (String b1
                     (String b2 EmptyString)))))
             ∨ hex = String "#" (String r1 (String r2 (String g1 (String g2 (String b1
                       (String b2 EmptyString)))))))
            ∧ hexByte r1 r2 = Some (rgb_r c) ∧ hexByte g1 g2 = Some (rgb_g c)
            ∧ hexByte b1 b2 = Some (rgb_b c))
    as (r1 & r2 & g1 & g2 & b1 & b2 & Hshape & Hr & Hg & Hb).
  { destruct hex as [|ch rest]; [discriminate|].
    destruct (Ascii.ascii_dec ch "#"%char) as [->|Hne].
    - change (hexToRgb (String "#" rest))
        with (match list_ascii_of_string rest with
              | [r1; r2; g1; g2; b1; b2] =>
                  r ← hexByte r1 r2; g ← hexByte g1 g2; b ← hexByte b1 b2;
                  Some {| rgb_r := r; rgb_g := g; rgb_b := b |}
              | _ => None
              end) in Hc.
      destruct (Hdigits rest Hc) as (r1 & r2 & g1 & g2 & b1 & b2 & -> & ?).
      exists r1, r2, g1, g2, b1, b2. auto.
    - rewrite Hplain in Hc by done.
      destruct (Hdigits (String ch rest) Hc)
        as (r1 & r2 & g1 & g2 & b1 & b2 & E & ?).
      rewrite E.
      exists r1, r2, g1, g2, b1, b2. auto. }
  split.
  - apply hexByte_range in Hr as ?, Hg as ?, Hb as ?. done.
  - exists r1, r2, g1, g2, b1, b2. cbv zeta. split_and!; try done.
    + rewrite Hplain by (by eapply Hnothash). simpl. rewrite Hr, Hg, Hb. simpl.
      by destruct c.
    + change (hexToRgb (String "#" ?d))
        with (match list_ascii_of_string d with
              | [r1; r2; g1; g2; b1; b2] =>
                  r ← hexByte r1 r2; g ← hexByte g1 g2; b ← hexByte b1 b2;
                  Some {| rgb_r := r; rgb_g := g; rgb_b := b |}
              | _ => None
              end).
      simpl. rewrite Hr, Hg, Hb. simpl. by destruct c.
Qed.

Lemma hexToRgb_parses_witness :
  hexToRgb "#FF00fe" = Some {| rgb_r := 255; rgb_g := 0; rgb_b := 254 |}
  ∧ hexToRgb "FF00fe" = Some {| rgb_r := 255; rgb_g := 0; rgb_b := 254 |}.
Proof.
  destruct (hexToRgb_parses "FF00fe" {| rgb_r := 255; rgb_g := 0; rgb_b := 254 |}
              eq_refl) as (_ & r1 & r2 & g1 & g2 & b1 & b2 & [E|E] & _ & _ & _ & H1 & H2);
    [|discriminate].
  injection E as <- <- <- <- <- <-. split; [exact H2|exact H1].
Defined.

Lemma far_from_magenta_or_green (r g b : Z) :
  (r - 255) * (r - 255) + (g - 0) * (g - 0) + (b - 255) * (b - 255) < 10000 →
  10000 ≤ (0 - r) * (0 - r) + (255 - g) * (255 - g) + (0 - b) * (0 - b).
Proof.
  intros Hlt.
  pose proof (Z.square_nonneg (g - 0)). pose proof (Z.square_nonneg (b - 255)).
  pose proof (Z.square_nonneg (255 - g)). pose proof (Z.square_nonneg (0 - b)).
  assert (155 < r).
  { destruct (Z.le_gt_cases r 155) as [Hle|?]; [|lia].
    assert (100 * 100 ≤ (255 - r) * (255 - r))
      by (apply Z.mul_le_mono_nonneg; lia).
    replace ((r - 255) * (r - 255)) with ((255 - r) * (255 - r)) in Hlt by ring.
    lia. }
  assert (155 * 155 ≤ r * r) by (apply Z.mul_le_mono_nonneg; lia).
  replace ((0 - r) * (0 - r)) with (r * r) by ring. lia.
Qed.

Lemma keyColorFor_cases t :
  keyColorFor t = {| rgb_r := 0; rgb_g := 255; rgb_b := 0 |}
  ∨ keyColorFor t = {| rgb_r := 255; rgb_g := 0; rgb_b := 255 |}.
Proof. unfold keyColorFor. destruct (_ <? _); auto. Qed.

(** X12.  The key colour chosen for a target is green or magenta and never
    within 100 of the target: its squared distance to the target is at
    least 10000. *)
Theorem key_colour_far_from_target t :
  (keyColorFor t = {| rgb_r := 0; rgb_g := 255; rgb_b := 0 |}
   ∨ keyColorFor t = {| rgb_r := 255; rgb_g := 0; rgb_b := 255 |})
  ∧ 10000 ≤ distSq (rgb_r (keyColorFor t)) (rgb_g (keyColorFor t))
                   (rgb_b (keyColorFor t)) t.
Proof.
  unfold keyColorFor, distSq. cbn [rgb_r rgb_g rgb_b].
  destruct (Z.ltb_spec ((rgb_r t - 255) * (rgb_r t - 255)
                        + (rgb_g t - 0) * (rgb_g t - 0)
                        + (rgb_b t - 255) * (rgb_b t - 255)) 10000) as [Hlt|Hge];
    cbn [rgb_r rgb_g rgb_b]; (split; [auto|]).
  - by apply far_from_magenta_or_green.
  - replace ((255 - rgb_r t) * (255 - rgb_r t))
      with ((rgb_r t - 255) * (rgb_r t - 255)) by ring.
    replace ((0 - rgb_g t) * (0 - rgb_g t))
      with ((rgb_g t - 0) * (rgb_g t - 0)) by ring.
    replace ((255 - rgb_b t) * (255 - rgb_b t))
      with ((rgb_b t - 255) * (rgb_b t - 255)) by ring.
    lia.
Qed.

Lemma renderFrame_KeyPixels cfg geo ks a rc f fl t k q w h :
  KeyPixels fl t k q w h ∈ renderFrame cfg geo ks a rc f
  ↔ transparentRGB ks = Some t ∧ keyColor ks = Some k ∧ fl = useFloodFill cfg
    ∧ q = thresholdSq ks ∧ w = rc_logicalWidth rc ∧ h = rc_logicalHeight rc.
Proof.
  unfold renderFrame. rewrite !elem_of_app. split.
  - intros [H|[H|[H|[H|H]]]].
    + apply list_elem_of_singleton in H. discriminate.
    + destruct (hasTransparent cfg); [inv H|].
      apply list_elem_of_singleton in H. discriminate.
    + destruct (autoAlign cfg); [destruct (frameBBoxes a !! originalIndex f) as [[?|]|]|];
        try (by inv H); apply list_elem_of_singleton in H; discriminate.
    + destruct (transparentRGB ks), (keyColor ks); try (by inv H).
      rewrite !elem_of_cons, elem_of_nil in H.
      destruct H as [?|[H|[?|?]]]; try done. by injection H as -> -> -> -> -> ->.
    + destruct (rc_resized rc).
      * rewrite !elem_of_app, !elem_of_cons, elem_of_nil in H.
        destruct H as [[H|H]|[H|[H|[H|H]]]]; try done.
        destruct (hasTransparent cfg); [by inv H|].
        apply list_elem_of_singleton in H. discriminate.
      * apply list_elem_of_singleton in H. discriminate.
  - intros (-> & -> & -> & -> & -> & ->). right. right. right. left.
    rewrite !elem_of_cons. auto.
Qed.

Lemma renderFrame_FillWhite cfg geo ks a rc f w h :
  FillWhite BufferCanvas w h ∈ renderFrame cfg geo ks a rc f
  ↔ hasTransparent cfg = false
    ∧ w = inject_Z (rc_logicalWidth rc) ∧ h = inject_Z (rc_logicalHeight rc).
Proof.
  unfold renderFrame. rewrite !elem_of_app. split.
  - intros [H|[H|[H|[H|H]]]].
    + apply list_elem_of_singleton in H. discriminate.
    + destruct (hasTransparent cfg); [inv H|].
      apply list_elem_of_singleton in H. by injection H as -> ->.
    + destruct (autoAlign cfg); [destruct (frameBBoxes a !! originalIndex f) as [[?|]|]|];
        try (by inv H); apply list_elem_of_singleton in H; discriminate.
    + destruct (transparentRGB ks), (keyColor ks); try (by inv H).
      rewrite !elem_of_cons, elem_of_nil in H. by destruct H as [?|[?|[?|?]]].
    + destruct (rc_resized rc).
      * rewrite !elem_of_app, !elem_of_cons, elem_of_nil in H.
        destruct H as [[H|H]|[H|[H|[H|H]]]]; try done.
        destruct (hasTransparent cfg); [by inv H|].
        apply list_elem_of_singleton in H. discriminate.
      * apply list_elem_of_singleton in H. discriminate.
  - intros (Hf & -> & ->). right. left. rewrite Hf. by constructor.
Qed.

(** X10.  A frame is keyed exactly when [transparent] parses as a hex
    colour, with the flood or global mode as configured, the key colour
    chosen for that colour and the threshold of the tolerance; it is filled
    white exactly when [transparent] is null or empty.  A non-empty string
    that does not parse thus yields frames neither filled nor keyed, and an
    encoder without a transparent colour. *)
Theorem keying_follows_transparent cfg geo a rc f :
  let ks := keySetup cfg in
  (∀ fl t k q w h,
     KeyPixels fl t k q w h ∈ renderFrame cfg geo ks a rc f
     ↔ (∃ hex, transparent cfg = Some hex ∧ hexToRgb hex = Some t)
       ∧ k = keyColorFor t ∧ fl = useFloodFill cfg
       ∧ q = thresholdSqOf (tolerance cfg)
       ∧ w = rc_logicalWidth rc ∧ h = rc_logicalHeight rc)
  ∧ (FillWhite BufferCanvas (inject_Z (rc_logicalWidth rc))
       (inject_Z (rc_logicalHeight rc)) ∈ renderFrame cfg geo ks a rc f
     ↔ transparent cfg = None ∨ transparent cfg = Some EmptyString)
  ∧ (is_Some (gifTransparent cfg ks)
     ↔ ∃ hex t, transparent cfg = Some hex ∧ hexToRgb hex = Some t)
  ∧ (∀ v, gifTransparent cfg ks = Some v → v = 0xFF00FF ∨ v = 0x00FF00).
Proof.
  intros ks.
  assert (∀ t k q,
            (transparentRGB ks = Some t ∧ keyColor ks = Some k ∧ q = thresholdSq ks)
            ↔ ((∃ hex, transparent cfg = Some hex ∧ hexToRgb hex = Some t)
               ∧ k = keyColorFor t ∧ q = thresholdSqOf (tolerance cfg))) as Hks.
  { intros t k q. subst ks. unfold keySetup.
    destruct (transparent cfg) as [[|ch rest]|] eqn:Et; simpl.
    - split; [by intros [? _]|]. intros [(hex & [= <-] & Hh) _]. discriminate.
    - destruct (hexToRgb (String ch rest)) as [t'|] eqn:Eh; simpl.
      + split.
        * intros ([= <-] & [= <-] & ->). split; [|done]. by exists (String ch rest).
        * intros ((hex & [= <-] & Hh) & -> & ->). rewrite Eh in Hh.
          by injection Hh as ->.
      + split; [by intros [? _]|]. intros [(hex & [= <-] & Hh) _]. congruence.
    - split; [by intros [? _]|]. by intros [(hex & ? & _) _]. }
  split_and!.
  - intros fl t k q w h. rewrite renderFrame_KeyPixels.
    specialize (Hks t k q). tauto.
  - rewrite renderFrame_FillWhite. unfold hasTransparent.
    destruct (transparent cfg) as [[|ch rest]|].
    + split; [intros _; by right|done].
    + split; [by intros [? _]|intros [?|?]; done].
    + split; [intros _; by left|done].
  - unfold gifTransparent, hasTransparent. subst ks. unfold keySetup.
    destruct (transparent cfg) as [[|ch rest]|] eqn:Et; simpl.
    + split; [by intros [? ?]|]. intros (hex & t & [= <-] & Hh). discriminate.
    + destruct (hexToRgb (String ch rest)) as [t'|] eqn:Eh; simpl.
      * split; [|done]. intros _. by exists (String ch rest), t'.
      * split; [by intros [? ?]|]. intros (hex & t & [= <-] & Hh). congruence.
    + split; [by intros [? ?]|]. by intros (hex & t & ? & _).
  - intros v. unfold gifTransparent, hasTransparent. subst ks. unfold keySetup.
    destruct (transparent cfg) as [[|ch rest]|]; simpl; try discriminate.
    destruct (hexToRgb (String ch rest)) as [t'|]; simpl; [|discriminate].
    destruct (keyColorFor_cases t') as [-> | ->]; intros [= <-]; auto.
Qed.

(** ** Keying: what the two modes leave behind *)

Lemma bitmap_ext d1 d2 n :
  wellFormed d1 n → wellFormed d2 n →
  (∀ q, 0 ≤ q < n → pixelAt d1 q = pixelAt d2 q) → d1 = d2.
Proof.
  unfold wellFormed. intros H1 H2 Hpx. apply list_eq. intros i.
  destruct (decide (Z.of_nat i < 4 * n)) as [Hi|Hi].
  - assert (∀ d, d !! i = aget d (Z.of_nat i)) as Hget.
    { intros d. unfold aget. destruct (Z.leb_spec 0 (Z.of_nat i)); [|lia].
      by rewrite Nat2Z.id. }
    rewrite !Hget.
    pose proof (Z.div_mod (Z.of_nat i) 4 ltac:(lia)) as Hdm.
    pose proof (Z.mod_pos_bound (Z.of_nat i) 4 ltac:(lia)) as Hm.
    assert (0 ≤ Z.of_nat i / 4 < n) as Hq
      by (split; [apply Z.div_pos; lia|apply Z.div_lt_upper_bound; lia]).
    specialize (Hpx _ Hq). injection Hpx as E0 E1 E2 E3.
    assert (Z.of_nat i = Z.of_nat i / 4 * 4 ∨ Z.of_nat i = Z.of_nat i / 4 * 4 + 1
            ∨ Z.of_nat i = Z.of_nat i / 4 * 4 + 2 ∨ Z.of_nat i = Z.of_nat i / 4 * 4 + 3)
      as [E|[E|[E|E]]] by lia; rewrite E; done.
  - rewrite !lookup_ge_None_2; [done|lia..].
Qed.

Lemma foldl_length_preserved {B} (f : list Z → B → list Z) (l : list B) :
  (∀ d x, length (f d x) = length d) → ∀ d, length (foldl f d l) = length d.
Proof.
  intros Hf. induction l as [|x l IH]; intros d; simpl; [done|]. by rewrite IH, Hf.
Qed.

Lemma length_applyGlobalKey data target key t :
  length (applyGlobalKey data target key t) = length data.
Proof.
  unfold applyGlobalKey. apply foldl_length_preserved. intros d p.
  rewrite globalKeyPixel_alt. destruct (matches target t d p); [|done].
  apply length_writeKey.
Qed.

Lemma pixelAt_defined data n q :
  wellFormed data n → 0 ≤ q < n →
  ∃ r g b a, pixelAt data q = [Some r; Some g; Some b; Some a].
Proof.
  unfold wellFormed. intros Hlen Hq. unfold pixelAt.
  destruct (aget_in_range data (q * 4)) as [r ->]; [lia|].
  destruct (aget_in_range data (q * 4 + 1)) as [g ->]; [lia|].
  destruct (aget_in_range data (q * 4 + 2)) as [b ->]; [lia|].
  destruct (aget_in_range data (q * 4 + 3)) as [a ->]; [lia|].
  by exists r, g, b, a.
Qed.

(** X13.  The global mode is idempotent and leaves no pixel of alpha 0:
    keying an already keyed bitmap changes nothing, every pixel of the
    result has a non-zero alpha, and the bitmap keeps its length. *)
Theorem global_key_idempotent data target key t n :
  wellFormed data n →
  let keyed := applyGlobalKey data target key t in
  applyGlobalKey keyed target key t = keyed
  ∧ length keyed = length data
  ∧ ∀ q, 0 ≤ q < n →
      ∃ r g b a, pixelAt keyed q = [Some r; Some g; Some b; Some a] ∧ a ≠ 0.
Proof.
  intros Hwf keyed.
  assert (wellFormed keyed n) as Hwf'
    by (unfold wellFormed, keyed; by rewrite length_applyGlobalKey).
  assert (∀ q, 0 ≤ q < n →
            pixelAt keyed q
            = if matches target t data (q * 4) then keyPixel key else pixelAt data q)
    as Hpx by (intros q Hq; by apply (applyGlobalKey_pixel data target key t n)).
  split_and!.
  - apply (bitmap_ext _ _ n); [|done|].
    + unfold wellFormed. by rewrite length_applyGlobalKey.
    + intros q Hq. rewrite (applyGlobalKey_pixel keyed target key t n) by done.
      destruct (matches target t keyed (q * 4)) eqn:Hm2; [|done].
      rewrite Hpx by done.
      destruct (matches target t data (q * 4)) eqn:Hm1; [done|].
      assert (pixelAt keyed q = pixelAt data q) as E by (by rewrite Hpx, Hm1).
      rewrite (matches_local target t keyed data q E) in Hm2. congruence.
  - apply length_applyGlobalKey.
  - intros q Hq. rewrite Hpx by done.
    destruct (matches target t data (q * 4)) eqn:Hm.
    + eexists _, _, _, 255. split; [reflexivity|lia].
    + destruct (pixelAt_defined data n q Hwf Hq) as (r & g & b & a & E).
      exists r, g, b, a. split; [done|]. intros ->.
      injection E as _ _ _ Ha. unfold matches in Hm. by rewrite Ha in Hm.
Qed.

Lemma global_key_idempotent_witness :
  applyGlobalKey (applyGlobalKey ringBitmap white magenta 0) white magenta 0
  = applyGlobalKey ringBitmap white magenta 0.
Proof.
  exact (proj1 (global_key_idempotent ringBitmap white magenta 0 25 eq_refl)).
Defined.

Lemma Reachable_sub (m1 m2 : Z → Z → bool) w h :
  (∀ x y, 0 ≤ x < w → 0 ≤ y < h → m1 x y = true →
          Reachable m2 w h x y ∨ m2 x y = true) →
  ∀ x y, Reachable m1 w h x y → Reachable m2 w h x y.
Proof.
  intros Hsub x y Hr.
  induction Hr as [x y Hx Hy Hb Hm|x y x' y' Hr IH Hx' Hy' Hadj Hm].
  - destruct (Hsub x y Hx Hy Hm) as [?|Hm2]; [done|]. by apply Reachable_border.
  - destruct (Hsub x' y' Hx' Hy' Hm) as [?|Hm2]; [done|].
    by apply (Reachable_step m2 w h x y).
Qed.

(** The export's flood fill with the queue it leaves: the queue holds the
    reachable pixels, so reachability can be decided from it. *)
Lemma applyFloodFill_reach data w h target key t :
  0 < w → 0 < h → Z.of_nat (length data) = 4 * w * h →
  let m := λ x y, matches target t data ((y * w + x) * 4) in
  ∃ st, applyFloodFill data w h target key t = Some st
    ∧ length (fl_data st) = length data
    ∧ (∀ x y, Reachable m w h x y ∨ ¬ Reachable m w h x y)
    ∧ (∀ x y, Reachable m w h x y → pixelAt (fl_data st) (y * w + x) = keyPixel key)
    ∧ (∀ x y, 0 ≤ x < w → 0 ≤ y < h → ¬ Reachable m w h x y →
         pixelAt (fl_data st) (y * w + x) = pixelAt data (y * w + x)).
Proof.
  intros Hw Hh Hlen m.
  destruct (floodFill_spec (matches target t) (λ d i, writeKey d i key) w h data Hw Hh)
    as (st & E & _ & _ & Hl & Hqueue & Hpx).
  - intros. by apply matches_local.
  - intros. apply length_writeKey.
  - intros. by apply pixelAt_writeKey_other.
  - intros. by apply pixelAt_writeKey_local.
  - exists st. split_and!; [done|done|..].
    + intros x y.
      destruct (decide (0 ≤ x < w ∧ 0 ≤ y < h)) as [[Hx Hy]|Hout].
      * destruct (decide (y * w + x ∈ fl_queue st)) as [Hin|Hnin].
        -- left. apply Hqueue in Hin as (x' & y' & Hx' & Hy' & Eidx & Hr).
           destruct (index_inj w x y x' y' Hx Hx' Eidx) as [-> ->]. exact Hr.
        -- right. intros Hr. apply Hnin, Hqueue. by exists x, y.
      * right. intros Hr. apply Reachable_in_range in Hr. tauto.
    + intros x y Hr. destruct (Reachable_in_range _ _ _ _ _ Hr) as [Hx Hy].
      destruct (Hpx x y Hx Hy) as [Hin _]. rewrite (Hin Hr).
      apply pixelAt_writeKey_inside; nia.
    + intros x y Hx Hy Hn. by apply (Hpx x y Hx Hy).
Qed.

(** X14.  The flood fill never does more than the global mode: a pixel it
    changes is a matching pixel and ends with the bytes the global mode
    gives it, and a pixel that does not match is left as it was by both. *)
Theorem flood_within_global data w h target key t :
  0 < w → 0 < h → Z.of_nat (length data) = 4 * w * h →
  let m := λ x y, matches target t data ((y * w + x) * 4) in
  ∃ st, applyFloodFill data w h target key t = Some st
    ∧ ∀ x y, 0 ≤ x < w → 0 ≤ y < h →
        (pixelAt (fl_data st) (y * w + x) ≠ pixelAt data (y * w + x) →
           m x y = true
           ∧ pixelAt (fl_data st) (y * w + x)
             = pixelAt (applyGlobalKey data target key t) (y * w + x))
        ∧ (m x y = false →
           pixelAt (fl_data st) (y * w + x) = pixelAt data (y * w + x)
           ∧ pixelAt (applyGlobalKey data target key t) (y * w + x)
             = pixelAt data (y * w + x)).
Proof.
  intros Hw Hh Hlen m.
  destruct (applyFloodFill_reach data w h target key t Hw Hh Hlen)
    as (st & E & _ & Hdec & Hin & Hout).
  exists st. split; [done|]. intros x y Hx Hy.
  assert (pixelAt (applyGlobalKey data target key t) (y * w + x)
          = if m x y then keyPixel key else pixelAt data (y * w + x)) as Hg.
  { apply (applyGlobalKey_pixel data target key t (w * h)); [lia|].
    by apply index_in_range. }
  split.
  - intros Hne. destruct (Hdec x y) as [Hr|Hn].
    + pose proof (Reachable_matches _ _ _ _ _ Hr) as Hm. split; [done|].
      rewrite Hg. change (m x y = true) in Hm. rewrite Hm. by apply Hin.
    + destruct Hne. by apply Hout.
  - intros Hm. split.
    + apply Hout; [done..|]. intros Hr. apply Reachable_matches in Hr.
      change (m x y = true) in Hr. congruence.
    + rewrite Hg. by rewrite Hm.
Qed.

Lemma flood_within_global_witness :
  ∃ st, applyFloodFill ringBitmap 5 5 white magenta 0 = Some st
    ∧ pixelAt (fl_data st) 6 = pixelAt ringBitmap 6.
Proof.
  destruct (flood_within_global ringBitmap 5 5 white magenta 0)
    as (st & E & H); [lia|lia|reflexivity|].
  exists st. split; [exact E|].
  destruct (H 1 1) as [_ Hrest]; [lia|lia|]. apply Hrest. reflexivity.
Defined.

(** X21.  When every matching pixel can be reached from the border, the two
    modes give the same bitmap. *)
Theorem modes_coincide data w h target key t :
  0 < w → 0 < h → Z.of_nat (length data) = 4 * w * h →
  (∀ x y, 0 ≤ x < w → 0 ≤ y < h →
     matches target t data ((y * w + x) * 4) = true →
     Reachable (λ x y, matches target t data ((y * w + x) * 4)) w h x y) →
  fl_data <$> applyFloodFill data w h target key t
  = Some (applyGlobalKey data target key t).
Proof.
  intros Hw Hh Hlen Hall.
  destruct (applyFloodFill_reach data w h target key t Hw Hh Hlen)
    as (st & E & Hl & _ & Hin & Hout).
  rewrite E. simpl. f_equal. apply (bitmap_ext _ _ (w * h)).
  - unfold wellFormed. rewrite Hl. lia.
  - unfold wellFormed. rewrite length_applyGlobalKey. lia.
  - intros q Hq.
    assert (0 ≤ Z.rem q w < w ∧ 0 ≤ q / w < h ∧ q = q / w * w + Z.rem q w)
      as (Hx & Hy & Eq).
    { rewrite Z.rem_mod_nonneg by lia.
      pose proof (Z.mod_pos_bound q w Hw). pose proof (Z.div_mod q w ltac:(lia)).
      split; [lia|]. split; [|lia].
      split; [apply Z.div_pos; lia|apply Z.div_lt_upper_bound; lia]. }
    rewrite (applyGlobalKey_pixel data target key t (w * h)) by (done || lia).
    rewrite Eq.
    destruct (matches target t data ((q / w * w + Z.rem q w) * 4)) eqn:Hm.
    + apply Hin. by apply Hall.
    + apply Hout; [done..|]. intros Hr. apply Reachable_matches in Hr. congruence.
Qed.

Lemma modes_coincide_witness :
  fl_data <$> applyFloodFill [255; 255; 255; 255; 200; 30; 30; 255] 2 1 white magenta 0
  = Some (applyGlobalKey [255; 255; 255; 255; 200; 30; 30; 255] white magenta 0).
Proof.
  apply modes_coincide; [lia|lia|reflexivity|].
  intros x y Hx Hy Hm. apply Reachable_border; [done|done|lia|exact Hm].
Defined.

(** X22.  The flood fill is idempotent: run again on the bitmap it left,
    it leaves the same bitmap. *)
Theorem flood_fill_idempotent data w h target key t :
  0 < w → 0 < h → Z.of_nat (length data) = 4 * w * h →
  ∃ st, applyFloodFill data w h target key t = Some st
    ∧ fl_data <$> applyFloodFill (fl_data st) w h target key t = Some (fl_data st).
Proof.
  intros Hw Hh Hlen.
  destruct (applyFloodFill_reach data w h target key t Hw Hh Hlen)
    as (st & E & Hl & Hdec & Hin & Hout).
  assert (Z.of_nat (length (fl_data st)) = 4 * w * h) as Hlen1 by (by rewrite Hl).
  destruct (applyFloodFill_reach (fl_data st) w h target key t Hw Hh Hlen1)
    as (st2 & E2 & Hl2 & Hdec2 & Hin2 & Hout2).
  exists st. split; [done|]. rewrite E2. simpl. f_equal.
  apply (bitmap_ext _ _ (w * h)).
  - unfold wellFormed. rewrite Hl2. lia.
  - unfold wellFormed. lia.
  - intros q Hq.
    assert (0 ≤ Z.rem q w < w ∧ 0 ≤ q / w < h ∧ q = q / w * w + Z.rem q w)
      as (Hx & Hy & Eq).
    { rewrite Z.rem_mod_nonneg by lia.
      pose proof (Z.mod_pos_bound q w Hw). pose proof (Z.div_mod q w ltac:(lia)).
      split; [lia|]. split; [|lia].
      split; [apply Z.div_pos; lia|apply Z.div_lt_upper_bound; lia]. }
    rewrite Eq. set (x := Z.rem q w) in *. set (y := q / w) in *.
    set (m1 := λ x y, matches target t (fl_data st) ((y * w + x) * 4)) in *.
    set (m0 := λ x y, matches target t data ((y * w + x) * 4)) in *.
    assert (∀ x y, Reachable m1 w h x y → Reachable m0 w h x y) as Hsub.
    { apply Reachable_sub. intros x' y' Hx' Hy' Hm.
      destruct (Hdec x' y') as [?|Hn]; [by left|right].
      unfold m1 in Hm. unfold m0.
      by rewrite <- (matches_local target t _ _ _ (Hout x' y' Hx' Hy' Hn)). }
    destruct (Hdec2 x y) as [Hr|Hn].
    + rewrite (Hin2 x y Hr). symmetry. by apply Hin, Hsub.
    + by apply Hout2.
Qed.

Lemma flood_fill_idempotent_witness :
  ∃ st, applyFloodFill ringBitmap 5 5 white magenta 0 = Some st
    ∧ fl_data <$> applyFloodFill (fl_data st) 5 5 white magenta 0 = Some (fl_data st).
Proof. apply flood_fill_idempotent; [lia|lia|reflexivity]. Defined.

(** ** The preview's keying and its bounding box *)

(** The two scans agree as soon as their tests of a pixel do. *)
Lemma alpha_box_agrees dA dB w h tRGB t :
  (∀ x y, 0 ≤ x < w → 0 ≤ y < h →
     alphaContent dA ((y * w + x) * 4) = isContent dB tRGB t ((y * w + x) * 4)) →
  getAlphaBoundingBox dA w h = alphaBoxOf <$> getContentBoundingBox dB w h tRGB t.
Proof.
  intros Hpx. unfold getAlphaBoundingBox, getContentBoundingBox.
  rewrite (foldl_ext_in _ (scanRow dB w tRGB t)).
  - by destruct (s_found _).
  - intros s y Hy%elem_of_seqZ. unfold scanRow. apply foldl_ext_in.
    intros s' x Hx%elem_of_seqZ. unfold alphaScanPixel, scanPixel.
    rewrite Hpx by lia. done.
Qed.

Lemma aget_byte data i v :
  Forall (λ v, 0 ≤ v ≤ 255) data → aget data i = Some v → 0 ≤ v ≤ 255.
Proof.
  intros Hb E. unfold aget in E. destruct (0 <=? i); [|done].
  by apply (Forall_lookup_1 _ _ _ _ Hb E).
Qed.

(** X16.  With no transparent colour configured, the preview's alpha box
    and the export's content box of a bitmap are the same box. *)
Theorem alpha_box_is_content_box data w h t :
  wellFormed data (w * h) → Forall (λ v, 0 ≤ v ≤ 255) data →
  getAlphaBoundingBox data w h = alphaBoxOf <$> getContentBoundingBox data w h None t.
Proof.
  intros Hwf Hb. apply alpha_box_agrees. intros x y Hx Hy.
  unfold wellFormed in Hwf. unfold alphaContent, isContent.
  destruct (aget_in_range data ((y * w + x) * 4 + 3)) as [a E]; [nia|].
  rewrite E. pose proof (aget_byte _ _ _ Hb E) as Ha.
  destruct a as [|a|a]; [done|done|lia].
Qed.

Lemma alpha_box_is_content_box_witness :
  getAlphaBoundingBox ringBitmap 5 5
  = alphaBoxOf <$> getContentBoundingBox ringBitmap 5 5 None 0.
Proof.
  apply alpha_box_is_content_box; [reflexivity|].
  apply Forall_forall. intros v Hv. vm_compute in Hv.
  repeat (apply elem_of_cons in Hv as [->|Hv]; [lia|]). inv Hv.
Defined.

Lemma previewGlobalKey_pixel data target t n q :
  Z.of_nat (length data) = 4 * n → 0 ≤ q < n →
  pixelAt (previewGlobalKey data target t) q
  = if previewKeyed target t data (q * 4)
    then pixelAt (aset data (q * 4 + 3) 0) q else pixelAt data q.
Proof.
  intros Hlen Hq. unfold previewGlobalKey, pixelOffsets.
  rewrite foldl_fmap.
  rewrite (pixel_fold (previewKeyed target t) (λ d i, aset d (i + 3) 0)).
  - destruct (decide (q ∈ _)) as [_|Hn]; [done|].
    destruct Hn. apply elem_of_seqZ. rewrite Hlen.
    replace ((4 * n + 3) / 4) with n; [lia|].
    apply Z.div_unique with (r := 3); lia.
  - intros. by apply previewKeyed_local.
  - intros. by apply pixelAt_alpha_other.
  - intros. by apply pixelAt_alpha_local.
  - apply NoDup_seqZ.
Qed.

(** X17.  In the global mode the preview and the export align on the same
    box: the alpha box of the bitmap the preview has keyed is the content
    box the export's analysis finds on the bitmap as it was. *)
Theorem preview_box_is_export_box data w h target t :
  wellFormed data (w * h) → Forall (λ v, 0 ≤ v ≤ 255) data →
  ∃ keyed, processTransparency data w h target t false = Some keyed
    ∧ getAlphaBoundingBox keyed w h
      = alphaBoxOf <$> getContentBoundingBox data w h (Some target) t.
Proof.
  intros Hwf Hb. exists (previewGlobalKey data target t). split; [done|].
  apply alpha_box_agrees. intros x y Hx Hy. unfold wellFormed in Hwf.
  assert (0 ≤ y * w + x < w * h) as Hq by (by apply index_in_range).
  pose proof (previewGlobalKey_pixel data target t (w * h) (y * w + x) Hwf Hq) as Hpx.
  set (q := y * w + x) in *.
  destruct (aget_in_range data (q * 4)) as [r Er]; [lia|].
  destruct (aget_in_range data (q * 4 + 1)) as [g Eg]; [lia|].
  destruct (aget_in_range data (q * 4 + 2)) as [b Eb]; [lia|].
  destruct (aget_in_range data (q * 4 + 3)) as [a Ea]; [lia|].
  pose proof (aget_byte _ _ _ Hb Ea) as Ha.
  unfold alphaContent, isContent. rewrite Er, Eg, Eb, Ea.
  unfold previewKeyed, previewMatches in Hpx. rewrite Er, Eg, Eb, Ea in Hpx.
  destruct (Qle_bool (inject_Z (distSq r g b target)) t) eqn:Hd.
  - destruct (Z.ltb_spec 0 a) as [Hpos|Hzero]; simpl in Hpx.
    + injection Hpx as _ _ _ E3. rewrite E3, aget_aset.
      destruct (decide _) as [_|?]; [|done]. rewrite Ea. simpl.
      by destruct a.
    + injection Hpx as _ _ _ E3. rewrite E3, Ea.
      assert (a = 0) as -> by lia. done.
  - rewrite andb_false_r in Hpx. injection Hpx as _ _ _ E3. rewrite E3, Ea.
    destruct a as [|a|a]; [done|done|lia].
Qed.

Lemma preview_box_is_export_box_witness :
  ∃ keyed, processTransparency ringBitmap 5 5 white 0 false = Some keyed
    ∧ getAlphaBoundingBox keyed 5 5
      = alphaBoxOf <$> getContentBoundingBox ringBitmap 5 5 (Some white) 0.
Proof.
  apply preview_box_is_export_box; [reflexivity|].
  apply Forall_forall. intros v Hv. vm_compute in Hv.
  repeat (apply elem_of_cons in Hv as [->|Hv]; [lia|]). inv Hv.
Defined.

(** The preview's flood fill with the queue it leaves. *)
Lemma previewFloodFill_reach data w h target t :
  0 < w → 0 < h → Z.of_nat (length data) = 4 * w * h →
  let m := λ x y, previewKeyed target t data ((y * w + x) * 4) in
  ∃ st, previewFloodFill data w h target t = Some st
    ∧ length (fl_data st) = length data
    ∧ (∀ x y, Reachable m w h x y ∨ ¬ Reachable m w h x y)
    ∧ (∀ x y, Reachable m w h x y →
         pixelAt (fl_data st) (y * w + x)
         = [ aget data ((y * w + x) * 4); aget data ((y * w + x) * 4 + 1);
             aget data ((y * w + x) * 4 + 2); Some 0 ])
    ∧ (∀ x y, 0 ≤ x < w → 0 ≤ y < h → ¬ Reachable m w h x y →
         pixelAt (fl_data st) (y * w + x) = pixelAt data (y * w + x)).
Proof.
  intros Hw Hh Hlen m.
  destruct (floodFill_spec (previewKeyed target t) (λ d i, aset d (i + 3) 0)
              w h data Hw Hh) as (st & E & _ & _ & Hl & Hqueue & Hpx).
  - intros. by apply previewKeyed_local.
  - intros. apply length_aset.
  - intros. by apply pixelAt_alpha_other.
  - intros. by apply pixelAt_alpha_local.
  - exists st. split_and!; [done|done|..].
    + intros x y.
      destruct (decide (0 ≤ x < w ∧ 0 ≤ y < h)) as [[Hx Hy]|Hout].
      * destruct (decide (y * w + x ∈ fl_queue st)) as [Hin|Hnin].
        -- left. apply Hqueue in Hin as (x' & y' & Hx' & Hy' & Eidx & Hr).
           destruct (index_inj w x y x' y' Hx Hx' Eidx) as [-> ->]. exact Hr.
        -- right. intros Hr. apply Hnin, Hqueue. by exists x, y.
      * right. intros Hr. apply Reachable_in_range in Hr. tauto.
    + intros x y Hr. destruct (Reachable_in_range _ _ _ _ _ Hr) as [Hx Hy].
      destruct (Hpx x y Hx Hy) as [Hin _]. rewrite (Hin Hr).
      pose proof (index_in_range w h x y Hx Hy) as Hq.
      unfold pixelAt. rewrite !aget_aset.
      repeat case_decide; try lia.
      destruct (aget_in_range data ((y * w + x) * 4 + 3)) as [a ->]; [lia|]. done.
    + intros x y Hx Hy Hn. by apply (Hpx x y Hx Hy).
Qed.

(** X18.  The preview's flood fill sets the alpha of exactly the pixels
    reachable from the border through pixels that are not yet transparent
    and match the target colour; it keeps their colour bytes, and leaves
    every other pixel as it was. *)
Theorem preview_flood_fill_reaches data w h target t :
  0 < w → 0 < h → Z.of_nat (length data) = 4 * w * h →
  let m := λ x y, previewKeyed target t data ((y * w + x) * 4) in
  ∃ keyed, processTransparency data w h target t true = Some keyed
    ∧ length keyed = length data
    ∧ ∀ x y, 0 ≤ x < w → 0 ≤ y < h →
        (Reachable m w h x y →
           pixelAt keyed (y * w + x)
           = [ aget data ((y * w + x) * 4); aget data ((y * w + x) * 4 + 1);
               aget data ((y * w + x) * 4 + 2); Some 0 ])
        ∧ (¬ Reachable m w h x y →
           pixelAt keyed (y * w + x) = pixelAt data (y * w + x)).
Proof.
  intros Hw Hh Hlen m.
  destruct (previewFloodFill_reach data w h target t Hw Hh Hlen)
    as (st & E & Hl & _ & Hin & Hout).
  exists (fl_data st). unfold processTransparency. rewrite E.
  split; [done|]. split; [done|]. intros x y Hx Hy.
  split; [apply Hin|by apply Hout].
Qed.

Lemma preview_flood_fill_reaches_witness :
  ∃ keyed, processTransparency ringBitmap 5 5 white 0 true = Some keyed
    ∧ pixelAt keyed 12 = pixelAt ringBitmap 12
    ∧ pixelAt keyed 0 = [Some 255; Some 255; Some 255; Some 0].
Proof.
  destruct (preview_flood_fill_reaches ringBitmap 5 5 white 0)
    as (keyed & E & _ & H); [lia|lia|reflexivity|].
  exists keyed. split; [exact E|]. split.
  - destruct (H 2 2) as [_ Hrest]; [lia|lia|]. apply Hrest. intros Hr.
    assert (∀ x y, x = 2 ∧ y = 2 →
              0 < x < 5 - 1 ∧ 0 < y < 5 - 1
              ∧ previewKeyed white 0 ringBitmap ((y * 5 + x) * 4) = true) as Hin.
    { intros x y [-> ->]. split; [lia|]. split; [lia|reflexivity]. }
    assert (∀ x y x' y', x = 2 ∧ y = 2 → adjacent x y x' y' →
              (x' = 2 ∧ y' = 2)
              ∨ previewKeyed white 0 ringBitmap ((y' * 5 + x') * 4) = false) as Hwall.
    { intros x y x' y' [-> ->] Hadj. right.
      destruct Hadj as [[-> ->]|[[-> ->]|[[-> ->]|[-> ->]]]]; reflexivity. }
    exact (enclosed_unreachable _ 5 5 (λ x y, x = 2 ∧ y = 2) Hin Hwall 2 2 Hr
             (conj eq_refl eq_refl)).
  - destruct (H 0 0) as [Hreach _]; [lia|lia|]. apply Hreach.
    apply Reachable_border; [lia|lia|lia|reflexivity].
Defined.

Lemma Reachable_ext (m1 m2 : Z → Z → bool) w h :
  (∀ x y, 0 ≤ x < w → 0 ≤ y < h → m1 x y = m2 x y) →
  ∀ x y, Reachable m1 w h x y ↔ Reachable m2 w h x y.
Proof.
  intros E x y. split; apply Reachable_sub; intros x' y' Hx' Hy' Hm; right.
  - by rewrite <- E.
  - by rewrite E.
Qed.

(** X19.  On a bitmap with no fully transparent pixel the preview and the
    export flood the same region: a pixel the export rewrites to the key
    colour is a pixel whose alpha the preview sets to 0, and a pixel the
    one leaves as it was the other leaves too. *)
Theorem preview_export_flood_agree data w h target key t :
  0 < w → 0 < h → Z.of_nat (length data) = 4 * w * h →
  (∀ q a, 0 ≤ q < w * h → aget data (q * 4 + 3) = Some a → 0 < a) →
  ∃ exported previewed,
    fl_data <$> applyFloodFill data w h target key t = Some exported
    ∧ processTransparency data w h target t true = Some previewed
    ∧ ∀ q, 0 ≤ q < w * h →
        (pixelAt exported q = keyPixel key
         ∧ pixelAt previewed q
           = [ aget data (q * 4); aget data (q * 4 + 1); aget data (q * 4 + 2); Some 0 ])
        ∨ (pixelAt exported q = pixelAt data q ∧ pixelAt previewed q = pixelAt data q).
Proof.
  intros Hw Hh Hlen Halpha.
  destruct (applyFloodFill_reach data w h target key t Hw Hh Hlen)
    as (stE & EE & _ & Hdec & HinE & HoutE).
  destruct (previewFloodFill_reach data w h target t Hw Hh Hlen)
    as (stP & EP & _ & _ & HinP & HoutP).
  exists (fl_data stE), (fl_data stP). unfold processTransparency.
  rewrite EE, EP. split; [done|]. split; [done|]. intros q Hq.
  assert (0 ≤ Z.rem q w < w ∧ 0 ≤ q / w < h ∧ q = q / w * w + Z.rem q w)
    as (Hx & Hy & Eq).
  { rewrite Z.rem_mod_nonneg by lia.
    pose proof (Z.mod_pos_bound q w Hw). pose proof (Z.div_mod q w ltac:(lia)).
    split; [lia|]. split; [|lia].
    split; [apply Z.div_pos; lia|apply Z.div_lt_upper_bound; lia]. }
  rewrite Eq.
  assert (∀ x y, Reachable (λ x y, matches target t data ((y * w + x) * 4)) w h x y
               ↔ Reachable (λ x y, previewKeyed target t data ((y * w + x) * 4)) w h x y)
    as Hsame.
  { apply Reachable_ext. intros x y Hx' Hy'.
    pose proof (index_in_range w h x y Hx' Hy') as Hq'.
    unfold matches, previewKeyed, previewMatches.
    destruct (aget_in_range data ((y * w + x) * 4 + 3)) as [a Ea]; [lia|].
    rewrite Ea. pose proof (Halpha _ _ Hq' Ea) as Ha.
    destruct (Z.ltb_spec 0 a); [|lia]. destruct a; [lia|done|lia]. }
  destruct (Hdec (Z.rem q w) (q / w)) as [Hr|Hn].
  - left. split; [by apply HinE|]. by apply HinP, Hsame.
  - right. split; [by apply HoutE|]. apply HoutP; [done..|]. intros Hr.
    by apply Hn, Hsame.
Qed.

Lemma preview_export_flood_agree_witness :
  ∃ exported previewed,
    fl_data <$> applyFloodFill ringBitmap 5 5 white magenta 0 = Some exported
    ∧ processTransparency ringBitmap 5 5 white 0 true = Some previewed
    ∧ ((pixelAt exported 0 = keyPixel magenta
        ∧ pixelAt previewed 0
          = [ aget ringBitmap 0; aget ringBitmap 1; aget ringBitmap 2; Some 0 ])
       ∨ (pixelAt exported 0 = pixelAt ringBitmap 0
          ∧ pixelAt previewed 0 = pixelAt ringBitmap 0)).
Proof.
  destruct (preview_export_flood_agree ringBitmap 5 5 white magenta 0)
    as (e & p & Ee & Ep & H); [lia|lia|reflexivity| |].
  - intros q a Hq Ea.
    assert (q ∈ seqZ 0 25) as Hin by (apply elem_of_seqZ; lia).
    vm_compute in Hin.
    repeat (apply elem_of_cons in Hin as [->|Hin];
            [vm_compute in Ea; injection Ea as <-; lia|]).
    inv Hin.
  - exists e, p. split; [exact Ee|]. split; [exact Ep|]. apply (H 0). lia.
Defined.

(** ** The preview's clock *)

(** X20.  At any time from 0 on, with a positive frame rate and at least
    one frame to play, the preview shows a frame of its sequence: the
    position it computes lies inside the list of valid indices, and the
    frame read there is below the cutoff and not excluded. *)
Theorem preview_shows_valid_frame cfg time :
  (0 <= time)%Q → (0 < fps cfg)%Q → getValidFrameIndices cfg ≠ [] →
  ∃ i v, frameAtTime cfg time = Some (i, Some v)
    ∧ 0 ≤ i < Z.of_nat (length (getValidFrameIndices cfg))
    ∧ v ∈ getValidFrameIndices cfg
    ∧ v < totalFrames cfg ∧ (v ∉ excludedFrames cfg).
Proof.
  intros Ht Hfps Hne. unfold frameAtTime.
  destruct (getValidFrameIndices cfg) as [|v0 l] eqn:E; [done|].
  rewrite <- E.
  set (n := Z.of_nat (length (getValidFrameIndices cfg))).
  assert (0 < n) as Hn by (unfold n; rewrite E; simpl; lia).
  set (tick := Qfloor (time / (1000 / fps cfg))).
  assert (0 ≤ tick) as Htick.
  { unfold tick. change 0 with (Qfloor 0). apply Qfloor_resp_le.
    apply Qle_shift_div_l.
    - apply Qlt_shift_div_l; [done|]. rewrite Qmult_0_l. reflexivity.
    - by rewrite Qmult_0_l. }
  assert (0 ≤ Z.rem tick n < n) as Hi
    by (rewrite Z.rem_mod_nonneg by lia; apply Z.mod_pos_bound; lia).
  destruct (aget_in_range (getValidFrameIndices cfg) (Z.rem tick n)) as [v Ev];
    [done|].
  exists (Z.rem tick n), v. split; [by rewrite Ev|]. split; [done|].
  assert (v ∈ getValidFrameIndices cfg) as Hin.
  { unfold aget in Ev. destruct (0 <=? Z.rem tick n); [|done].
    by apply list_elem_of_lookup_2 in Ev. }
  split; [done|].
  rewrite getValidFrameIndices_indices in Hin.
  apply list_elem_of_filter in Hin as [Hk _]. by apply keepIndex_true in Hk.
Qed.

Lemma preview_shows_valid_frame_witness :
  ∃ i v, frameAtTime (gridConfig RowMajor 2 3 6 [1]) 450 = Some (i, Some v)
    ∧ v < 6 ∧ (v ∉ [1]).
Proof.
  destruct (preview_shows_valid_frame (gridConfig RowMajor 2 3 6 [1]) 450)
    as (i & v & E & _ & _ & Hlt & Hex); [done|done|done|].
  exists i, v. split; [exact E|]. split; [exact Hlt|exact Hex].
Defined.

(** ** Editing the grid *)

(** X23.  Editing keeps a full grid full: when the frame count of a
    configuration is rows * cols, it still is after any update other than
    one of the frame count itself; and when the rows or the columns of such
    a grid with nothing excluded are set to a positive number, the export
    emits every cell of the new grid, in index order. *)
Theorem update_keeps_full_grid cfg :
  totalFrames cfg = rows cfg * cols cfg →
  (∀ u, (∀ v, u ≠ SetTotalFrames v) →
        totalFrames (updateConfig u cfg)
        = rows (updateConfig u cfg) * cols (updateConfig u cfg))
  ∧ (excludedFrames cfg = [] →
     (∀ v, 0 < v → 0 < cols cfg →
        originalIndex <$> validFrameCoordinates (updateConfig (SetRows v) cfg)
        = seqZ 0 (v * cols cfg))
     ∧ (∀ v, 0 < v → 0 < rows cfg →
        originalIndex <$> validFrameCoordinates (updateConfig (SetCols v) cfg)
        = seqZ 0 (rows cfg * v))).
Proof.
  intros Hfull. split.
  - intros u Hu. unfold updateConfig.
    destruct u; try (by destruct (Hu v)); cbn [setField rows cols totalFrames];
      try done.
    + apply Z.eqb_eq in Hfull. by rewrite Hfull.
    + apply Z.eqb_eq in Hfull. by rewrite Hfull.
  - intros Hex. apply Z.eqb_eq in Hfull. split; intros v Hv Hother.
    + rewrite full_grid_indices; unfold updateConfig; rewrite Hfull;
        cbn [setField withTotalFrames rows cols totalFrames excludedFrames];
        done || lia.
    + rewrite full_grid_indices; unfold updateConfig; rewrite Hfull;
        cbn [setField withTotalFrames rows cols totalFrames excludedFrames];
        done || lia.
Qed.

Lemma update_keeps_full_grid_witness :
  originalIndex <$> validFrameCoordinates
                      (updateConfig (SetRows 3) (gridConfig RowMajor 2 2 4 []))
  = seqZ 0 (3 * 2).
Proof.
  destruct (update_keeps_full_grid (gridConfig RowMajor 2 2 4 [])) as [_ H];
    [reflexivity|].
  destruct (H eq_refl) as [Hrows _]. apply Hrows; reflexivity.
Defined.

(** ** Empty canvases *)




